(** * Hardware-telemetry collectors of cAdvisor: perf events and resctrl

    A shallow embedding of [perf/collector_libpfm.go] (the perf event
    collector built on libpfm4 and perf_event_open) and of the resctrl
    collector, together with the properties of the specification that
    were checked against them.

    Conventions.
    - Go integers are [Z]; a [uint64] is a [Z] in [0, 2^64).
    - Go maps are stdpp [gmap]s.  [range] over a map visits the entries
      in an order Go leaves unspecified; the model visits them in
      [map_to_list] order, and the statements below are phrased so as
      not to depend on it.
    - Calls that leave the program (system calls, libpfm, the intelrdt
      and cgroups packages, klog) are recorded in a chronological trace;
      their results are chosen by an oracle that sees the trace so far.
    - A Go function returning [(T, error)] returns [T + error]; a run-time
      panic is a separate outcome. *)

From Stdlib Require Import ZArith Lia Strings.Byte PrimFloat SpecFloat FloatOps.
From stdpp Require Import gmap strings list fin_maps.

(** ** The libpfm4 life cycle: [init] and [Finalize] *)

Module Libpfm.
Local Open Scope Z_scope.

(** [PFM_SUCCESS] of perfmon/pfmlib.h. *)
Definition PFM_SUCCESS : Z := 0.

(** What leaves the process: the two library calls and the error log of
    [init].  ([klog.V(1).Info] lines are verbosity-gated and left out.) *)
Inductive event :=
| Call_pfm_initialize (pErr : Z)
| Call_pfm_terminate
| Log_unable_to_initialize (pErr : Z).

(** The package-level variable [isLibpfmInitialized] and the trace.
    [libpmfMutex] is held for the whole body of both functions, so the
    calls are atomic and a run is a sequence of calls. *)
Record state := State { isLibpfmInitialized : bool; trace : list event }.

Definition initial : state := State false [].

(** [func init()]; [pErr] is what [C.pfm_initialize()] answers. *)
Definition init (pErr : Z) (s : state) : state :=
  let tr := trace s ++ [Call_pfm_initialize pErr] in
  if negb (pErr =? PFM_SUCCESS)
  then State (isLibpfmInitialized s) (tr ++ [Log_unable_to_initialize pErr])
  else State true tr.

(** [func Finalize()]. *)
Definition Finalize (s : state) : state :=
  if negb (isLibpfmInitialized s)
  then s
  else State false (trace s ++ [Call_pfm_terminate]).

Inductive op := OpInit (pErr : Z) | OpFinalize.

Definition step (s : state) (o : op) : state :=
  match o with
  | OpInit pErr => init pErr s
  | OpFinalize => Finalize s
  end.

Definition run (ops : list op) (s : state) : state := foldl step s ops.

Definition is_terminate (e : event) : bool :=
  match e with Call_pfm_terminate => true | _ => false end.

Definition is_successful_init (e : event) : bool :=
  match e with Call_pfm_initialize pErr => pErr =? PFM_SUCCESS | _ => false end.

Definition terminations (tr : list event) : nat :=
  length (List.filter is_terminate tr).

Definition successful_inits (tr : list event) : nat :=
  length (List.filter is_successful_init tr).

(** The library is owed one terminate exactly when the flag is set. *)
Definition owed (s : state) : nat := if isLibpfmInitialized s then 1%nat else 0%nat.

End Libpfm.

(** ** The resctrl collector *)

Module Resctrl.
Local Open Scope string_scope.
Local Open Scope list_scope.

Definition rootContainerID : string := "/".

Definition error := string.

(** [intelrdt.IntelRdtManager], of which the collector sets [Id] and
    [Type]; [MON] and [CTRL_MON] are the two types it uses. *)
Inductive rdtType := MON | CTRL_MON.

Record IntelRdtManager := { Id : string; Type_ : rdtType }.

Record collector := Collector { resctrl : IntelRdtManager; pidsPath : string }.

(** Every call that reaches the cgroup or resctrl file systems, with
    the answer it got, and the error log of [Destroy]. *)
Inductive event :=
| Cgroups_IsCgroup2UnifiedMode (r : bool)
| Rdt_Set (m : IntelRdtManager) (r : option error)
| Cgroups_GetPids (path : string) (r : list Z + error)
| Rdt_Apply (m : IntelRdtManager) (pid : Z) (r : option error)
| Rdt_Destroy (m : IntelRdtManager) (r : option error)
| Log_Error (e : error).

(** The packages outside the repository.  [filepath_Join] is pure; the
    others answer from the state of the file system, which the model
    abstracts as the trace so far. *)
Record env := {
  filepath_Join : string → string → string;
  cgroups_IsCgroup2UnifiedMode : list event → bool;
  cgroups_GetPids : list event → string → list Z + error;
  rdt_Set : list event → IntelRdtManager → option error;
  rdt_Apply : list event → IntelRdtManager → Z → option error;
  rdt_Destroy : list event → IntelRdtManager → option error
}.

Section WithEnv.
Variable e : env.

(** The loop of [updatePids]: [Apply] each pid, stop at the first error. *)
Fixpoint applyPids (m : IntelRdtManager) (pids : list Z) (tr : list event)
  : list event * option error :=
  match pids with
  | [] => (tr, None)
  | pid :: rest =>
      let r := rdt_Apply e tr m pid in
      let tr := tr ++ [Rdt_Apply m pid r] in
      match r with
      | Some err => (tr, Some err)
      | None => applyPids m rest tr
      end
  end.

Definition updatePids (c : collector) (tr : list event)
  : list event * option error :=
  let r := cgroups_GetPids e tr (pidsPath c) in
  let tr := tr ++ [Cgroups_GetPids (pidsPath c) r] in
  match r with
  | inr err => (tr, Some err)
  | inl pids => applyPids (resctrl c) pids tr
  end.

Definition newCollector (id : string) (tr : list event)
  : list event * (collector + error) :=
  if String.eqb id rootContainerID then
    (tr, inl (Collector {| Id := id; Type_ := CTRL_MON |} ""))
  else
    let unified := cgroups_IsCgroup2UnifiedMode e tr in
    let tr := tr ++ [Cgroups_IsCgroup2UnifiedMode unified] in
    let pidsPath :=
      if unified then filepath_Join e "/sys/fs/cgroup" id
      else filepath_Join e "/sys/fs/cgroup/cpu" id in
    let collector := Collector {| Id := id; Type_ := MON |} pidsPath in
    (* Prepare monitoring directory. *)
    let r := rdt_Set e tr (resctrl collector) in
    let tr := tr ++ [Rdt_Set (resctrl collector) r] in
    match r with
    | Some err => (tr, inr err)
    | None =>
        (* Prepare pids. *)
        match updatePids collector tr with
        | (tr, Some err) => (tr, inr err)
        | (tr, None) => (tr, inl collector)
        end
    end.

Definition Destroy (c : collector) (tr : list event) : list event :=
  (* We shouldn't destroy Resctrl rootfs. *)
  if negb (String.eqb (Id (resctrl c)) rootContainerID) then
    let r := rdt_Destroy e tr (resctrl c) in
    let tr := tr ++ [Rdt_Destroy (resctrl c) r] in
    match r with
    | Some err => tr ++ [Log_Error err]
    | None => tr
    end
  else tr.

End WithEnv.

(** The collector [newCollector] builds for the root container. *)
Definition rootCollector : collector :=
  Collector {| Id := rootContainerID; Type_ := CTRL_MON |} "".


(** *** Reading the statistics: [UpdateStats] *)

(** Modelled from the source's use of them: [intelrdt.Stats] and the
    statistics of [info.ContainerStats] are declared outside the
    available sources.  [MBMStats] and [CMTStats] are pointers to slices
    (the source dereferences them), [None] standing for nil. *)
Record MBMNumaNodeStats := { MBMTotalBytes : Z; MBMLocalBytes : Z }.

Record CMTNumaNodeStats := { CMT_LLCOccupancy : Z }.

Record Stats := {
  MBMStats : option (list MBMNumaNodeStats);
  CMTStats : option (list CMTNumaNodeStats)
}.

Record MemoryBandwidthStats := { TotalBytes : Z; LocalBytes : Z }.

Record CacheStats := { LLCOccupancy : Z }.

Record ResctrlStats := {
  MemoryBandwidth : list MemoryBandwidthStats;
  Cache : list CacheStats
}.

(** How a call of [UpdateStats] ends: it returns its error, or the
    dereference of a nil pointer panics. *)
Inductive outcome :=
| Returned (err : option error)
| Panicked_nil_dereference.

Section WithStats.
Variable e : env.
(** [c.resctrl.GetStats()] reads the monitoring files of the group and
    changes nothing: it is not recorded in the trace, but its answer may
    depend on what the trace records.  A nil [*Stats] returned with a
    nil error is not modelled. *)
Variable rdt_GetStats : list event → IntelRdtManager → Stats + error.

(** [func (c *collector) UpdateStats], on [stats.Resctrl], the one field
    of [stats] it writes.  The field is written in place: what was
    stored before a panic or an error stays stored. *)
Definition UpdateStats (c : collector) (stats : ResctrlStats) (tr : list event)
  : (list event * ResctrlStats) * outcome :=
  match rdt_GetStats tr (resctrl c) with
  | inr err => ((tr, stats), Returned (Some err))
  | inl resctrlStats =>
      let stats := {| MemoryBandwidth := []; Cache := [] |} in
      match MBMStats resctrlStats with
      | None => ((tr, stats), Panicked_nil_dereference)
      | Some mbmStats =>
          let stats :=
            {| MemoryBandwidth :=
                 foldl (λ acc numaNodeStats,
                          acc ++ [{| TotalBytes := MBMTotalBytes numaNodeStats;
                                     LocalBytes := MBMLocalBytes numaNodeStats |}])
                   [] mbmStats;
               Cache := [] |} in
          match CMTStats resctrlStats with
          | None => ((tr, stats), Panicked_nil_dereference)
          | Some cmtStats =>
              let stats :=
                {| MemoryBandwidth := MemoryBandwidth stats;
                   Cache :=
                     foldl (λ acc numaNodeStats,
                              acc ++ [{| LLCOccupancy := CMT_LLCOccupancy numaNodeStats |}])
                       [] cmtStats |} in
              if negb (String.eqb (Id (resctrl c)) rootContainerID) then
                match updatePids e c tr with
                | (tr, Some err) => ((tr, stats), Returned (Some err))
                | (tr, None) => ((tr, stats), Returned None)
                end
              else ((tr, stats), Returned None)
          end
      end
  end.

End WithStats.

(** *** Reading a trace *)

(** The pids passed to [Apply], in order. *)
Definition applied (tr : list event) : list Z :=
  omap (λ ev, match ev with Rdt_Apply _ pid _ => Some pid | _ => None end) tr.

Definition is_failure (ev : event) : bool :=
  match ev with
  | Rdt_Set _ (Some _) | Cgroups_GetPids _ (inr _) | Rdt_Apply _ _ (Some _)
  | Rdt_Destroy _ (Some _) => true
  | _ => false
  end.

Definition is_Rdt_Destroy (ev : event) : bool :=
  match ev with Rdt_Destroy _ _ => true | _ => false end.

(** An environment whose file systems accept every call: the cgroup of
    any container holds the pids 10, 11 and 12. *)
Definition sample_env : env :=
  {| filepath_Join := λ dir id, String.append dir id;
     cgroups_IsCgroup2UnifiedMode := λ _, true;
     cgroups_GetPids := λ _ _, inl [10; 11; 12]%Z;
     rdt_Set := λ _ _, None;
     rdt_Apply := λ _ _ _, None;
     rdt_Destroy := λ _ _, None |}.

(** The same, where the pid 11 has exited and cannot be assigned. *)
Definition pid_gone_env : env :=
  {| filepath_Join := filepath_Join sample_env;
     cgroups_IsCgroup2UnifiedMode := cgroups_IsCgroup2UnifiedMode sample_env;
     cgroups_GetPids := cgroups_GetPids sample_env;
     rdt_Set := rdt_Set sample_env;
     rdt_Apply := λ _ _ pid, if (pid =? 11)%Z then Some "no such process" else None;
     rdt_Destroy := rdt_Destroy sample_env |}.

Definition sample_collector : collector :=
  Collector {| Id := "/docker/c1"; Type_ := MON |} "/sys/fs/cgroup/docker/c1".

Definition sample_Stats : list event → IntelRdtManager → Stats + error :=
  λ _ _, inl {| MBMStats := Some [{| MBMTotalBytes := 100; MBMLocalBytes := 60 |};
                                  {| MBMTotalBytes := 200; MBMLocalBytes := 90 |}];
                CMTStats := Some [{| CMT_LLCOccupancy := 7 |};
                                  {| CMT_LLCOccupancy := 9 |}] |}.

(** What [UpdateStats] reports for the statistics of the NUMA nodes. *)
Definition memory_bandwidth_of (node : MBMNumaNodeStats) : MemoryBandwidthStats :=
  {| TotalBytes := MBMTotalBytes node; LocalBytes := MBMLocalBytes node |}.

Definition cache_of (node : CMTNumaNodeStats) : CacheStats :=
  {| LLCOccupancy := CMT_LLCOccupancy node |}.

(** The base directory of the pids of a container. *)
Definition cgroup_root (unified : bool) : string :=
  if unified then "/sys/fs/cgroup" else "/sys/fs/cgroup/cpu".

End Resctrl.

(** ** The perf event collector *)

Module Perf.
Local Open Scope Z_scope.

(** *** Data *)

(** [unix.PerfEventAttr], the fields the collector writes.  The
    remaining fields are left as libpfm or the zero value set them. *)
Record PerfEventAttr := {
  Type_ : Z;
  Size : Z;
  Config : Z;
  Sample_type : Z;
  Read_format : Z;
  Bits : Z;
  Ext1 : Z;
  Ext2 : Z
}.

(** Go [error] values this file creates or passes on.  The [Errorf_*]
    constructors are the [fmt.Errorf] calls of the source, with the
    arguments of the format string. *)
Inductive error :=
| Errno (e : Z)
| io_EOF
| io_ErrUnexpectedEOF
| ExternalError (msg : string)
| Errorf_unable_to_open_cgroup (cgroupPath : string) (err : error)
| Errorf_unable_to_transform (name : string) (pErr : Z)
| Errorf_setting_up_failed (config : PerfEventAttr) (err : error)
| Errorf_unable_to_create_file (fd : Z)
| Errorf_cannot_decide_leader
| Errorf_unable_to_read_group (leaderName : string) (err : error)
| Errorf_unable_to_decode_group (leaderName : string) (err : error)
| Errorf_unable_to_decode_values (leaderName : string) (err : error).

Inductive panic :=
| IndexOutOfRange (i len : nat)
| MakesliceLenOutOfRange (n : Z).

Inductive outcome (A : Type) :=
| Ret (a : A)
| Panic (p : panic).
Arguments Ret {A} a.
Arguments Panic {A} p.

(** [*os.File], the [readerCloser] the collector stores: the descriptor
    and the name given to [os.NewFile]. *)
Record os_File := { file_fd : Z; file_name : string }.

(** [type group struct]. *)
Record group := Group_ {
  group_cpuFiles : gmap string (gmap Z os_File);
  names : list string;
  leaderName : string
}.

(** Modelled from the spec: the configuration types [PerfEvents],
    [Events], [Group] and [CustomEvent] are declared outside the
    available sources.  An event group is an ordered list of event
    names; a custom event carries a type code, its configuration words
    and its name. *)
Record CustomEvent := {
  CustomEvent_Type : Z;
  CustomEvent_Config : list Z;
  CustomEvent_Name : string
}.

Record Group := { Group_events : list string; Group_array : bool }.

Record Events := { Events_Events : list Group; CustomEvents : list CustomEvent }.

Record PerfEvents := { Core : Events; Uncore : Events }.

(** [type collector struct].  [cpuFilesLock] serialises [setup],
    [UpdateStats] and [Destroy], which are therefore modelled as atomic;
    the uncore collector is part of the environment below. *)
Record collector := Collector {
  cgroupPath : string;
  events : PerfEvents;
  cpuFiles : gmap Z group;
  onlineCPUs : list Z;
  eventToCustomEvent : gmap string CustomEvent
}.

(** Modelled from the spec: [GroupReadFormat] and [Values] are declared
    outside the available sources.  The header of a group read is the
    count of value entries, the accumulated enabled time and the
    accumulated running time; each entry is a 64-bit counter and an
    opaque identifier. *)
Record GroupReadFormat := { Nr : Z; TimeEnabled : Z; TimeRunning : Z }.

Record Values := { Values_Value : Z; Values_ID : Z }.

(** Modelled from the spec: [info.PerfValue] and [info.PerfStat] are
    declared outside the available sources.  A reported counter carries
    a value, a name and a scaling ratio, and is reported per CPU; the
    fields are those the source fills. *)
Record PerfValue := { ScalingRatio : float; Value : Z; Name : string }.

Record PerfStat := { PerfStat_PerfValue : PerfValue; Cpu : Z }.

(** *** The trace *)

Inductive event :=
| Ev_os_Open (path : string) (r : Z + error)
| Ev_os_Close (fd : Z)
| Ev_pfm_get_os_event_encoding (name : string) (r : PerfEventAttr + Z)
| Ev_PerfEventOpen (attr : PerfEventAttr) (pid cpu groupFd flags : Z) (r : Z + error)
| Ev_IoctlSetInt (fd req value : Z) (r : option error)
| Ev_Read (file : os_File) (len : nat) (r : list byte * option error)
| Ev_uncore_UpdateStats (r : option error)
| Log_Errorf_uncore (err : error)
| Log_Warningf_unable_to_read (leaderName : string) (cpu : Z) (cgroupPath : string)
    (err : error).

(** The kernel and libpfm.  [file_Read f n] answers a [Read] into a
    buffer of [n] bytes with the bytes it stored and the error. *)
Record world := {
  os_Open : list event → string → Z + error;
  pfm_get_os_event_encoding : list event → string → PerfEventAttr + Z;
  unix_PerfEventOpen :
    list event → PerfEventAttr → Z → Z → Z → Z → Z + error;
  unix_IoctlSetInt : list event → Z → Z → Z → option error;
  file_Read : list event → os_File → nat → list byte * option error
}.

(** *** Constants of golang.org/x/sys/unix (Linux) *)

Definition PERF_FORMAT_TOTAL_TIME_ENABLED : Z := 1.
Definition PERF_FORMAT_TOTAL_TIME_RUNNING : Z := 2.
Definition PERF_FORMAT_ID : Z := 4.
Definition PERF_FORMAT_GROUP : Z := 8.
Definition PERF_FLAG_PID_CGROUP : Z := 4.
Definition PERF_FLAG_FD_CLOEXEC : Z := 8.
Definition PERF_EVENT_IOC_ENABLE : Z := 0x2400.
Definition PERF_EVENT_IOC_RESET : Z := 0x2403.
Definition PerfBitDisabled : Z := 1.

Definition groupLeaderFileDescriptor : Z := -1.

(** *** Numbers *)

(** [float64(x)] for a [uint64] [x]: the nearest binary64 value, ties
    to even. *)
Definition float64_of_uint64 (x : Z) : float :=
  SF2Prim (binary_normalize 53 1024 x 0 false).

(** The integer part of a finite float, towards zero. *)
Definition float64_trunc (f : float) : option Z :=
  match Prim2SF f with
  | S754_zero _ => Some 0
  | S754_finite s m e =>
      let magnitude :=
        if 0 <=? e then Z.pos m * 2 ^ e else Z.pos m / 2 ^ (- e) in
      Some (if s then - magnitude else magnitude)
  | S754_infinity _ | S754_nan => None
  end.

(** The run time refuses a slice whose size exceeds [maxAlloc], 2^48
    bytes on 64-bit Linux. *)
Definition maxAlloc : Z := 2 ^ 48.

(** *** Decoding the group read *)

Definition le_uint64 (bs : list byte) : Z :=
  foldr (λ b acc, Z.of_N (Byte.to_N b) + 256 * acc) 0 (take 8 bs).

(** What [binary.Read] answers when the reader holds [avail] bytes and
    the data needs [need]: [io.ReadFull] reports [io.EOF] when nothing
    could be read and [io.ErrUnexpectedEOF] on a partial read. *)
Definition readFull_error (avail need : nat) : option error :=
  if (need <=? avail)%nat then None
  else if (avail =? 0)%nat then Some io_EOF
  else Some io_ErrUnexpectedEOF.

(** [binary.Read(reader, binary.LittleEndian, perfData)]. *)
Definition binary_Read_GroupReadFormat (bs : list byte) : GroupReadFormat + error :=
  match readFull_error (length bs) 24 with
  | Some err => inr err
  | None =>
      inl {| Nr := le_uint64 bs;
             TimeEnabled := le_uint64 (drop 8 bs);
             TimeRunning := le_uint64 (drop 16 bs) |}
  end.

Fixpoint decode_Values (n : nat) (bs : list byte) : list Values :=
  match n with
  | O => []
  | S n =>
      {| Values_Value := le_uint64 bs; Values_ID := le_uint64 (drop 8 bs) |}
        :: decode_Values n (drop 16 bs)
  end.

(** [binary.Read(reader, binary.LittleEndian, values)] for a slice of
    [n] entries. *)
Definition binary_Read_Values (n : nat) (bs : list byte) : list Values + error :=
  match readFull_error (length bs) (16 * n) with
  | Some err => inr err
  | None => inl (decode_Values n bs)
  end.

(** *** A state and panic monad

    [M S A] threads a state [S] and stops at the first panic.  Go
    errors are ordinary values and are matched on where the source
    tests [err != nil]. *)

Definition M (S A : Type) : Type := S → S * outcome A.

Definition ret {S A} (a : A) : M S A := λ s, (s, Ret a).

Definition bind {S A B} (m : M S A) (f : A → M S B) : M S B :=
  λ s, match m s with
       | (s', Ret a) => f a s'
       | (s', Panic p) => (s', Panic p)
       end.

Definition raise {S A} (p : panic) : M S A := λ s, (s, Panic p).

Notation "x <- m ;; f" := (bind m (λ x, f))
  (at level 100, m at next level, right associativity).
Notation "m ;;; f" := (bind m (λ _, f))
  (at level 100, right associativity).

(** *** Reading: [UpdateStats], [readGroupPerfStat], [getPerfValues] *)

Section Reading.
(** Go leaves the result of converting a float64 that no [uint64]
    holds to the implementation. *)
Variable uint64_unrepresentable : float → Z.

(** The fields of [info.ContainerStats] other than [PerfStats]. *)
Variable OtherStats : Type.

Record ContainerStats := { PerfStats : list PerfStat; Other : OtherStats }.

Variable k : world.

(** [c.uncore.UpdateStats], the socket-level collector. *)
Variable uncore_UpdateStats :
  list event → ContainerStats → ContainerStats * option error.

(** [uint64(f)]: the fraction is discarded. *)
Definition uint64_of_float64 (f : float) : Z :=
  match float64_trunc f with
  | Some z => if (0 <=? z) && (z <? 2 ^ 64) then z else uint64_unrepresentable f
  | None => uint64_unrepresentable f
  end.

(** Lines 150-153 of [getPerfValues]. *)
Definition scalingRatio (perfData : GroupReadFormat) : float :=
  if negb (TimeRunning perfData =? 0) && negb (TimeEnabled perfData =? 0)
  then (float64_of_uint64 (TimeRunning perfData)
          / float64_of_uint64 (TimeEnabled perfData))%float
  else 1%float.

Definition zero_PerfValue : PerfValue :=
  {| ScalingRatio := 0%float; Value := 0; Name := "" |}.

(** [for i, name := range group.names { perfValues[i] = ... values[i] ... }],
    from index [i] on; [value] is what the branch stores for a raw
    counter.  Both slices are indexed with a bounds check. *)
Fixpoint fill (value : Z → Z) (ratio : float) (values : list Values)
    (i : nat) (names : list string) (perfValues : list PerfValue)
  : outcome (list PerfValue) :=
  match names with
  | [] => Ret perfValues
  | name :: rest =>
      match values !! i with
      | None => Panic (IndexOutOfRange i (length values))
      | Some v =>
          if (i <? length perfValues)%nat then
            fill value ratio values (S i) rest
              (<[i := {| ScalingRatio := ratio;
                         Value := value (Values_Value v);
                         Name := name |}]> perfValues)
          else Panic (IndexOutOfRange i (length perfValues))
      end
  end.

(** Lines 155-172 of [getPerfValues]: the slice of [n] reported
    values, filled by one of the two loops.  ([n] entries were decoded
    from the buffer just before, so this second [make] is not refused.) *)
Definition scale (scalingRatio : float) (n : nat) (values : list Values)
    (names : list string) : outcome (list PerfValue) :=
  let perfValues := replicate n zero_PerfValue in
  if negb (scalingRatio =? 0)%float then
    fill (λ raw, uint64_of_float64 (float64_of_uint64 raw / scalingRatio))
      scalingRatio values 0 names perfValues
  else
    fill (λ raw, raw) scalingRatio values 0 names perfValues.

Definition do_Read (file : os_File) (size : nat)
  : M (list event) (list byte * option error) :=
  λ tr, let r := file_Read k tr file size in
        (tr ++ [Ev_Read file size r], Ret r).

(** [buf] after [file.Read(buf)]: [make] zeroed it and [Read]
    overwrote a prefix with [data].  The count [Read] returns is
    dropped by the source. *)
Definition fill_buffer (size : nat) (data : list byte) : list byte :=
  take size (data ++ replicate size x00).

Definition lift_outcome {S A} (o : outcome A) : M S A := λ s, (s, o).

Definition getPerfValues (file : os_File) (g : group)
  : M (list event) (list PerfValue + error) :=
  (* 24 bytes of GroupReadFormat struct.
     16 bytes of Values struct for each element in group. *)
  let size := (24 + 16 * length (names g))%nat in
  r <- do_Read file size ;;
  let buf := fill_buffer size r.1 in
  match r.2 with
  | Some err => ret (inr (Errorf_unable_to_read_group (leaderName g) err))
  | None =>
  match binary_Read_GroupReadFormat (take 24 buf) with
  | inr err => ret (inr (Errorf_unable_to_decode_group (leaderName g) err))
  | inl perfData =>
  (* values := make([]Values, perfData.Nr) *)
  if maxAlloc <? 16 * Nr perfData
  then raise (MakesliceLenOutOfRange (Nr perfData)) else
  let n := Z.to_nat (Nr perfData) in
  match binary_Read_Values n (drop 24 buf) with
  | inr err => ret (inr (Errorf_unable_to_decode_values (leaderName g) err))
  | inl values =>
      perfValues <- lift_outcome (scale (scalingRatio perfData) n values (names g)) ;;
      ret (inl perfValues)
  end end end.

Definition readGroupPerfStat (file : os_File) (g : group) (cpu : Z)
    (cgroupPath : string)
  : M (list event) (list PerfStat + error) :=
  r <- getPerfValues file g ;;
  match r with
  | inr err => ret (inr err)
  | inl values =>
      ret (inl (map (λ value, {| PerfStat_PerfValue := value; Cpu := cpu |})
                    values))
  end.

Definition log (e : event) : M (list event) unit :=
  λ tr, (tr ++ [e], Ret tt).

(** The inner loop of [UpdateStats], over the leader's files. *)
Fixpoint UpdateStats_files (c : collector) (g : group)
    (files : list (Z * os_File)) (perfStats : list PerfStat)
  : M (list event) (list PerfStat) :=
  match files with
  | [] => ret perfStats
  | (cpu, file) :: rest =>
      r <- readGroupPerfStat file g cpu (cgroupPath c) ;;
      match r with
      | inr err =>
          log (Log_Warningf_unable_to_read (leaderName g) cpu (cgroupPath c) err) ;;;
          UpdateStats_files c g rest perfStats
      | inl stat => UpdateStats_files c g rest (perfStats ++ stat)
      end
  end.

(** The outer loop, over the groups. *)
Fixpoint UpdateStats_groups (c : collector) (groups : list (Z * group))
    (perfStats : list PerfStat)
  : M (list event) (list PerfStat) :=
  match groups with
  | [] => ret perfStats
  | (_, g) :: rest =>
      perfStats <- UpdateStats_files c g
                     (map_to_list (default ∅ (group_cpuFiles g !! leaderName g)))
                     perfStats ;;
      UpdateStats_groups c rest perfStats
  end.

Definition do_uncore_UpdateStats (stats : ContainerStats)
  : M (list event) (ContainerStats * option error) :=
  λ tr, let r := uncore_UpdateStats tr stats in
        (tr ++ [Ev_uncore_UpdateStats r.2], Ret r).

Definition UpdateStats (c : collector) (stats : ContainerStats)
  : M (list event) (ContainerStats * option error) :=
  r <- do_uncore_UpdateStats stats ;;
  match r.2 with
  | Some err => log (Log_Errorf_uncore err)
  | None => ret tt
  end ;;;
  let stats := {| PerfStats := []; Other := Other r.1 |} in
  perfStats <- UpdateStats_groups c (map_to_list (cpuFiles c)) (PerfStats stats) ;;
  ret ({| PerfStats := perfStats; Other := Other stats |}, None).

End Reading.

Arguments PerfStats {OtherStats} _.
Arguments Other {OtherStats} _.

(** *** Setting up: [newCollector], [setup], [registerEvent], [addEventFile] *)

(** [collector.eventToCustomEvent[event.Name] = &CustomEvents[key]], in
    slice order. *)
Definition mapEventsToCustomEvents (events : PerfEvents) : gmap string CustomEvent :=
  foldl (λ m event, <[CustomEvent_Name event := event]> m) ∅ (CustomEvents (Core events)).

(** [newCollector]; [cpuToSocket] only reaches the uncore collector. *)
Definition newCollector (cgroupPath : string) (events : PerfEvents)
    (onlineCPUs : list Z) (cpuToSocket : gmap Z Z) : collector :=
  Collector cgroupPath events ∅ onlineCPUs (mapEventsToCustomEvents events).

(** [os.NewFile] answers nil for a descriptor that is not valid. *)
Definition os_NewFile (fd : Z) (name : string) : option os_File :=
  if fd <? 0 then None else Some {| file_fd := fd; file_name := name |}.

(** [func (c *collector) addEventFile], on the one field it changes. *)
Definition addEventFile (index : Z) (name : string) (cpu : Z) (perfFile : os_File)
    (cpuFiles : gmap Z group) : gmap Z group :=
  let cpuFiles :=
    match cpuFiles !! index with
    | Some _ => cpuFiles
    | None => <[index := Group_ ∅ [] name]> cpuFiles
    end in
  let g := default (Group_ ∅ [] name) (cpuFiles !! index) in
  let files := default ∅ (group_cpuFiles g !! name) in
  (* c.cpuFiles[index].cpuFiles[name][cpu] = perfFile; the inner maps are
     shared with the group stored in c.cpuFiles. *)
  let g := Group_ (<[name := <[cpu := perfFile]> files]> (group_cpuFiles g))
                  (names g) (leaderName g) in
  let cpuFiles := <[index := g]> cpuFiles in
  (* Check if name is already stored. *)
  if bool_decide (name ∈ names g) then cpuFiles
  else
    (* Otherwise save it. *)
    <[index := Group_ (group_cpuFiles g) (names g ++ [name]) (leaderName g)]> cpuFiles.

Record eventInfo := {
  eventInfo_name : string;
  eventInfo_config : PerfEventAttr;
  eventInfo_pid : Z;
  eventInfo_groupIndex : Z
}.

(** [m[key]] on a [map[int]int]: the zero value when the key is absent. *)
Definition map_index (m : gmap Z Z) (key : Z) : Z := default 0 (m !! key).

(** The state [setup] works on: [c.cpuFiles] and the trace. *)
Definition setup_state : Type := gmap Z group * list event.

Section Setup.
(** Constants declared outside the available sources, and the size of
    [unix.PerfEventAttr]. *)
Variable perfSampleIdentifier : Z.
Variable perfAttrBitsInherit : Z.
Variable perfAttrBitsExcludeGuest : Z.
Variable sizeof_PerfEventAttr : Z.

Variable k : world.

Definition createPerfEventAttr (event : CustomEvent) : outcome PerfEventAttr :=
  let length := length (CustomEvent_Config event) in
  match CustomEvent_Config event !! 0%nat with
  | None => Panic (IndexOutOfRange 0 0)
  | Some config0 =>
      Ret {| Type_ := CustomEvent_Type event;
             Size := 0;
             Config := config0;
             Sample_type := 0;
             Read_format := 0;
             Bits := 0;
             Ext1 := if (2 <=? length)%nat
                     then default 0 (CustomEvent_Config event !! 1%nat) else 0;
             Ext2 := if (length =? 3)%nat
                     then default 0 (CustomEvent_Config event !! 2%nat) else 0 |}
  end.

Definition setAttributes (config : PerfEventAttr) (leader : bool) : PerfEventAttr :=
  let bits := Z.lor perfAttrBitsInherit perfAttrBitsExcludeGuest in
  {| Type_ := Type_ config;
     Size := sizeof_PerfEventAttr;
     Config := Config config;
     Sample_type := perfSampleIdentifier;
     Read_format :=
       Z.lor (Z.lor (Z.lor PERF_FORMAT_TOTAL_TIME_ENABLED PERF_FORMAT_TOTAL_TIME_RUNNING)
                PERF_FORMAT_GROUP) PERF_FORMAT_ID;
     (* Group leader should have this flag set to disable counting until
        all group would be prepared. *)
     Bits := if leader then Z.lor bits PerfBitDisabled else bits;
     Ext1 := Ext1 config;
     Ext2 := Ext2 config |}.

Definition createConfigFromRawEvent (event : CustomEvent) (isGroupLeader : bool)
  : outcome PerfEventAttr :=
  match createPerfEventAttr event with
  | Ret config => Ret (setAttributes config isGroupLeader)
  | Panic p => Panic p
  end.

(** [readPerfEventAttr]: libpfm fills the attribute or answers an error
    code.  (The C allocations of the source are not modelled.) *)
Definition readPerfEventAttr (name : string) : M setup_state (PerfEventAttr + error) :=
  λ '(cpuFiles, tr),
    let r := pfm_get_os_event_encoding k tr name in
    ((cpuFiles, tr ++ [Ev_pfm_get_os_event_encoding name r]),
     Ret match r with
         | inl attr => inl attr
         | inr pErr => inr (Errorf_unable_to_transform name pErr)
         end).

Definition createConfigFromEvent (event : string) (isGroupLeader : bool)
  : M setup_state (PerfEventAttr + error) :=
  r <- readPerfEventAttr event ;;
  match r with
  | inr err => ret (inr err)
  | inl config => ret (inl (setAttributes config isGroupLeader))
  end.

Definition do_PerfEventOpen (attr : PerfEventAttr) (pid cpu groupFd flags : Z)
  : M setup_state (Z + error) :=
  λ '(cpuFiles, tr),
    let r := unix_PerfEventOpen k tr attr pid cpu groupFd flags in
    ((cpuFiles, tr ++ [Ev_PerfEventOpen attr pid cpu groupFd flags r]), Ret r).

Definition do_IoctlSetInt (fd req value : Z) : M setup_state (option error) :=
  λ '(cpuFiles, tr),
    let r := unix_IoctlSetInt k tr fd req value in
    ((cpuFiles, tr ++ [Ev_IoctlSetInt fd req value r]), Ret r).

Definition do_addEventFile (index : Z) (name : string) (cpu : Z) (perfFile : os_File)
  : M setup_state unit :=
  λ '(cpuFiles, tr), ((addEventFile index name cpu perfFile cpuFiles, tr), Ret tt).

(** [for _, cpu := range c.onlineCPUs] of [registerEvent]; the result is
    [newLeaderFileDescriptors]. *)
Fixpoint registerEvent_cpus (event : eventInfo) (pid flags : Z) (isGroupLeader : bool)
    (leaderFileDescriptors : gmap Z Z) (cpus : list Z)
    (newLeaderFileDescriptors : gmap Z Z)
  : M setup_state (gmap Z Z + error) :=
  match cpus with
  | [] => ret (inl newLeaderFileDescriptors)
  | cpu :: rest =>
      r <- do_PerfEventOpen (eventInfo_config event) pid cpu
             (map_index leaderFileDescriptors cpu) flags ;;
      match r with
      | inr err => ret (inr (Errorf_setting_up_failed (eventInfo_config event) err))
      | inl fd =>
          match os_NewFile fd (eventInfo_name event) with
          | None => ret (inr (Errorf_unable_to_create_file fd))
          | Some perfFile =>
              do_addEventFile (eventInfo_groupIndex event) (eventInfo_name event)
                cpu perfFile ;;;
              (* If group leader, save fd for others. *)
              registerEvent_cpus event pid flags isGroupLeader leaderFileDescriptors
                rest
                (if isGroupLeader then <[cpu := fd]> newLeaderFileDescriptors
                 else newLeaderFileDescriptors)
          end
      end
  end.

Definition registerEvent (c : collector) (event : eventInfo)
    (leaderFileDescriptors : gmap Z Z)
  : M setup_state (gmap Z Z + error) :=
  if bool_decide (size leaderFileDescriptors = length (onlineCPUs c)) then
    let isGroupLeader :=
      bool_decide (map_index leaderFileDescriptors 0 = groupLeaderFileDescriptor) in
    let pid := if isGroupLeader then eventInfo_pid event else -1 in
    let flags :=
      if isGroupLeader then Z.lor PERF_FLAG_FD_CLOEXEC PERF_FLAG_PID_CGROUP
      else PERF_FLAG_FD_CLOEXEC in
    r <- registerEvent_cpus event pid flags isGroupLeader leaderFileDescriptors
           (onlineCPUs c) ∅ ;;
    match r with
    | inr err => ret (inr err)
    | inl newLeaderFileDescriptors =>
        if isGroupLeader then ret (inl newLeaderFileDescriptors)
        else ret (inl leaderFileDescriptors)
    end
  else ret (inr Errorf_cannot_decide_leader).

(** The body of [for j, event := range group.events] in [setup] (lines
    195-215): configure the event and register it. *)
Definition setup_event (c : collector) (cgroupFd i : Z) (j : nat) (event : string)
    (leaderFileDescriptors : gmap Z Z)
  : M setup_state (gmap Z Z + error) :=
  (* First element is group leader. *)
  let isGroupLeader := (j =? 0)%nat in
  match eventToCustomEvent c !! event with
  | Some customEvent =>
      config <- lift_outcome (createConfigFromRawEvent customEvent isGroupLeader) ;;
      registerEvent c
        {| eventInfo_name := CustomEvent_Name customEvent;
           eventInfo_config := config;
           eventInfo_pid := cgroupFd;
           eventInfo_groupIndex := i |}
        leaderFileDescriptors
  | None =>
      r <- createConfigFromEvent event isGroupLeader ;;
      match r with
      | inr err => ret (inr err)
      | inl config =>
          registerEvent c
            {| eventInfo_name := event;
               eventInfo_config := config;
               eventInfo_pid := cgroupFd;
               eventInfo_groupIndex := i |}
            leaderFileDescriptors
      end
  end.

(** [for j, event := range group.events], from index [j] on. *)
Fixpoint setup_events (c : collector) (cgroupFd i : Z) (j : nat) (events : list string)
    (leaderFileDescriptors : gmap Z Z)
  : M setup_state (gmap Z Z + error) :=
  match events with
  | [] => ret (inl leaderFileDescriptors)
  | event :: rest =>
      r <- setup_event c cgroupFd i j event leaderFileDescriptors ;;
      match r with
      | inr err => ret (inr err)
      | inl leaderFileDescriptors =>
          setup_events c cgroupFd i (S j) rest leaderFileDescriptors
      end
  end.

(** [for _, fd := range leaderFileDescriptors]: reset, then enable. *)
Fixpoint setup_enable (fds : list Z) : M setup_state (option error) :=
  match fds with
  | [] => ret None
  | fd :: rest =>
      r <- do_IoctlSetInt fd PERF_EVENT_IOC_RESET 0 ;;
      match r with
      | Some err => ret (Some err)
      | None =>
          r <- do_IoctlSetInt fd PERF_EVENT_IOC_ENABLE 0 ;;
          match r with
          | Some err => ret (Some err)
          | None => setup_enable rest
          end
      end
  end.

(** The body of [for i, group := range c.events.Core.Events] in [setup]
    (lines 188-228): open the events of the group, then reset and enable
    it. *)
Definition setup_group (c : collector) (cgroupFd i : Z) (group : Group)
  : M setup_state (option error) :=
  (* CPUs file descriptors of group leader needed for perf_event_open. *)
  let leaderFileDescriptors :=
    foldl (λ m cpu, <[cpu := groupLeaderFileDescriptor]> m) ∅ (onlineCPUs c) in
  r <- setup_events c cgroupFd i 0 (Group_events group) leaderFileDescriptors ;;
  match r with
  | inr err => ret (Some err)
  | inl leaderFileDescriptors =>
      (* Group is prepared so we should reset and enable counting. *)
      setup_enable (map snd (map_to_list leaderFileDescriptors))
  end.

(** [for i, group := range c.events.Core.Events], from index [i] on. *)
Fixpoint setup_groups (c : collector) (cgroupFd i : Z) (groups : list Group)
  : M setup_state (option error) :=
  match groups with
  | [] => ret None
  | group :: rest =>
      r <- setup_group c cgroupFd i group ;;
      match r with
      | Some err => ret (Some err)
      | None => setup_groups c cgroupFd (i + 1) rest
      end
  end.

(** [func (c *collector) setup() error].  The deferred [cgroup.Close()]
    runs on every way out, a panic included. *)
Definition setup (c : collector) (tr : list event)
  : (collector * list event) * outcome (option error) :=
  let r := os_Open k tr (cgroupPath c) in
  let tr := tr ++ [Ev_os_Open (cgroupPath c) r] in
  match r with
  | inr err => ((c, tr), Ret (Some (Errorf_unable_to_open_cgroup (cgroupPath c) err)))
  | inl cgroupFd =>
      let '((cpuFiles, tr), result) :=
        setup_groups c cgroupFd 0 (Events_Events (Core (events c))) (cpuFiles c, tr) in
      ((Collector (cgroupPath c) (events c) cpuFiles (onlineCPUs c)
          (eventToCustomEvent c),
        tr ++ [Ev_os_Close cgroupFd]),
       result)
  end.

End Setup.

(** *** Encoding a group read, to state concrete reads *)

Definition byte_of_Z (z : Z) : byte :=
  default x00 (Byte.of_N (Z.to_N (z mod 256))).

Fixpoint uint64_le_bytes (n : nat) (z : Z) : list byte :=
  match n with
  | O => []
  | S n => byte_of_Z z :: uint64_le_bytes n (z / 256)
  end.

(** The eight bytes of a [uint64], least significant first. *)
Definition uint64_le (z : Z) : list byte := uint64_le_bytes 8 z.

(** The record the kernel writes for a read with [PERF_FORMAT_GROUP],
    the two times and the identifiers. *)
Definition encode_group_read (perfData : GroupReadFormat) (values : list Values)
  : list byte :=
  uint64_le (Nr perfData) ++ uint64_le (TimeEnabled perfData)
    ++ uint64_le (TimeRunning perfData)
    ++ concat (map (λ v, uint64_le (Values_Value v) ++ uint64_le (Values_ID v)) values).

(** *** A well-behaved kernel, to state concrete runs

    Descriptors are handed out in increasing order from 3; libpfm knows
    every name; [ioctl] fails with [EBADF] on a negative descriptor and
    succeeds otherwise; a file answers a read with the bytes [reads]
    gives for it. *)

Definition is_open (e : event) : bool :=
  match e with
  | Ev_os_Open _ (inl _) | Ev_PerfEventOpen _ _ _ _ _ (inl _) => true
  | _ => false
  end.

Definition next_fd (tr : list event) : Z :=
  3 + Z.of_nat (length (List.filter is_open tr)).

Definition zero_PerfEventAttr : PerfEventAttr :=
  {| Type_ := 0; Size := 0; Config := 0; Sample_type := 0; Read_format := 0;
     Bits := 0; Ext1 := 0; Ext2 := 0 |}.

Definition EBADF : Z := 9.

Definition sample_world (reads : os_File → list byte) : world :=
  {| os_Open := λ tr _, inl (next_fd tr);
     pfm_get_os_event_encoding := λ _ _, inl zero_PerfEventAttr;
     unix_PerfEventOpen := λ tr _ _ _ _ _, inl (next_fd tr);
     unix_IoctlSetInt := λ _ fd _ _, if fd <? 0 then Some (Errno EBADF) else None;
     file_Read := λ _ file n, (take n (reads file), None) |}.

(** The descriptors [setup] was given by [perf_event_open], and those it
    asked for with the new-group sentinel. *)
Definition opened (tr : list event) : list Z :=
  omap (λ e, match e with
             | Ev_PerfEventOpen _ _ _ _ _ (inl fd) => Some fd
             | _ => None
             end) tr.

Definition opened_as_leader (tr : list event) : list Z :=
  omap (λ e, match e with
             | Ev_PerfEventOpen _ _ _ groupFd _ (inl fd) =>
                 if groupFd =? groupLeaderFileDescriptor then Some fd else None
             | _ => None
             end) tr.

(** *** The scenario of the specification

    One group of three events, online CPUs 0 and 1, and a group read of
    header (3, 1000, 500) with raw values 100, 200, 300. *)

Definition no_events : Events := {| Events_Events := []; CustomEvents := [] |}.

Definition scenario_events : PerfEvents :=
  {| Core := {| Events_Events :=
                  [{| Group_events := ["instructions"; "cycles"; "cache-misses"]%string;
                      Group_array := false |}];
                CustomEvents := [] |};
     Uncore := no_events |}.

Definition scenario_collector : collector :=
  newCollector "/sys/fs/cgroup/perf_event/docker/c1" scenario_events [0; 1] ∅.

Definition group_read (nr timeEnabled timeRunning : Z) (raw : list Z) : list byte :=
  encode_group_read
    {| Nr := nr; TimeEnabled := timeEnabled; TimeRunning := timeRunning |}
    (imap (λ i v, {| Values_Value := v; Values_ID := Z.of_nat i |}) raw).

Definition scenario_world : world :=
  sample_world (λ _, group_read 3 1000 500 [100; 200; 300]).

(** A group as [addEventFile] leaves it: for each event name, in
    registration order, the descriptor opened on each CPU. *)
Definition group_of (files : list (string * list (Z * Z))) (leader : string) : group :=
  Group_ (list_to_map
            (map (λ '(name, fds),
                    (name,
                     list_to_map
                       (map (λ '(cpu, fd), (cpu, {| file_fd := fd; file_name := name |}))
                          fds)))
               files))
         (map fst files) leader.

(** The scenario after [setup], with the kernel answering the read of
    the leader on CPU 0 (descriptor 4) with a count of 2, and the read
    on CPU 1 as in the scenario. *)
Definition mismatch_world : world :=
  sample_world (λ file, if file_fd file =? 4
                        then group_read 2 1000 500 [100; 200]
                        else group_read 3 1000 500 [100; 200; 300]).

(** The same, with the read on CPU 0 failing with [EIO]. *)
Definition EIO : Z := 5.

Definition read_error_world : world :=
  {| os_Open := os_Open scenario_world;
     pfm_get_os_event_encoding := pfm_get_os_event_encoding scenario_world;
     unix_PerfEventOpen := unix_PerfEventOpen scenario_world;
     unix_IoctlSetInt := unix_IoctlSetInt scenario_world;
     file_Read := λ tr file n,
       if file_fd file =? 4 then ([], Some (Errno EIO))
       else file_Read scenario_world tr file n |}.

Definition scenario_group : group :=
  group_of [("instructions", [(0, 4); (1, 5)]);
            ("cycles", [(0, 6); (1, 7)]);
            ("cache-misses", [(0, 8); (1, 9)])]%string
    "instructions".

Definition three_event_collector : collector :=
  Collector "/sys/fs/cgroup/perf_event/docker/c1" scenario_events
    {[ 0 := scenario_group ]} [0; 1] ∅.

Definition scenario_values : list PerfValue :=
  [{| ScalingRatio := 0.5; Value := 200; Name := "instructions" |};
   {| ScalingRatio := 0.5; Value := 400; Name := "cycles" |};
   {| ScalingRatio := 0.5; Value := 600; Name := "cache-misses" |}].

(** A collector of one event on one CPU, whose leader read answers a
    header with a count of 0. *)
Definition one_event_collector : collector :=
  Collector "/sys/fs/cgroup/perf_event/docker/c1"
    {| Core := {| Events_Events := [{| Group_events := ["cycles"]%string;
                                       Group_array := false |}];
                  CustomEvents := [] |};
       Uncore := no_events |}
    {[ 0 := group_of [("cycles", [(0, 4)])]%string "cycles" ]}
    [0] ∅.

Definition empty_count_world : world :=
  sample_world (λ _, group_read 0 1000 500 []).

(** The uncore collector succeeding without touching the record. *)
Definition quiet_uncore {OtherStats : Type}
  : list event → ContainerStats OtherStats → ContainerStats OtherStats * option error :=
  λ _ stats, (stats, None).

(** Modelled from the specification's words, to compare with the code:
    [round(x)], the integer nearest to [x], halves away from zero. *)
Definition round_nearest (f : float) : option Z :=
  match Prim2SF f with
  | S754_zero _ => Some 0
  | S754_finite s m e =>
      let magnitude :=
        if 0 <=? e then Z.pos m * 2 ^ e
        else (2 * Z.pos m + 2 ^ (- e)) / (2 * 2 ^ (- e)) in
      Some (if s then - magnitude else magnitude)
  | S754_infinity _ | S754_nan => None
  end.

(** What [scale] stores for a raw counter, read off its two loops. *)
Definition reported (uint64_unrepresentable : float → Z) (ratio : float) (raw : Z) : Z :=
  if (ratio =? 0)%float then raw
  else uint64_of_float64 uint64_unrepresentable (float64_of_uint64 raw / ratio).

(** The kernel of the scenario, with every read stopping after the 24
    bytes of the header and reporting no error. *)
Definition short_read_world : world :=
  sample_world (λ _, take 24 (group_read 3 1000 500 [100; 200; 300])).

(** One event on CPU 0, read through descriptor 4. *)
Definition cycles_file : os_File := {| file_fd := 4; file_name := "cycles" |}.

Definition one_event_group : group := group_of [("cycles", [(0, 4)])]%string "cycles".

(** The event was enabled for 1000 and never ran. *)
Definition idle_world : world := sample_world (λ _, group_read 1 1000 0 [100]).

(** The event ran for three quarters of the time. *)
Definition three_quarters_world : world := sample_world (λ _, group_read 1 4 3 [5]).

(** *** Reading a run of [setup] off its trace *)

(** The descriptor [fd] is tracked under (group index, event name, CPU). *)
Definition tracked_at (cpuFiles : gmap Z group) (i : Z) (name : string) (cpu fd : Z)
  : Prop :=
  ∃ g files file,
    cpuFiles !! i = Some g
    ∧ group_cpuFiles g !! name = Some files
    ∧ files !! cpu = Some file
    ∧ file_fd file = fd.

Definition tracked (cpuFiles : gmap Z group) (fd : Z) : Prop :=
  ∃ i name cpu, tracked_at cpuFiles i name cpu fd.


(** How a call ended. *)
Inductive status :=
| Succeeded
| Failed (err : error)
| Panicked (p : panic).

Definition status_of_sum {A} (o : outcome (A + error)) : status :=
  match o with
  | Ret (inl _) => Succeeded
  | Ret (inr err) => Failed err
  | Panic p => Panicked p
  end.

Definition status_of_option (o : outcome (option error)) : status :=
  match o with
  | Ret None => Succeeded
  | Ret (Some err) => Failed err
  | Panic p => Panicked p
  end.

(** The calls [setup] cannot go on after: libpfm not resolving a name,
    [perf_event_open] failing (or answering a descriptor [os.NewFile]
    refuses), [ioctl] failing. *)
Definition failing (ev : event) : bool :=
  match ev with
  | Ev_pfm_get_os_event_encoding _ (inr _) => true
  | Ev_PerfEventOpen _ _ _ _ _ (inr _) => true
  | Ev_PerfEventOpen _ _ _ _ _ (inl fd) => fd <? 0
  | Ev_IoctlSetInt _ _ _ (Some _) => true
  | _ => false
  end.

(** The error [setup] returns for a failing call: what it is built from. *)
Definition explains (ev : event) (err : error) : Prop :=
  match ev with
  | Ev_pfm_get_os_event_encoding name (inr pErr) =>
      err = Errorf_unable_to_transform name pErr
  | Ev_PerfEventOpen attr _ _ _ _ (inr e) => err = Errorf_setting_up_failed attr e
  | Ev_PerfEventOpen _ _ _ _ _ (inl fd) => err = Errorf_unable_to_create_file fd
  | Ev_IoctlSetInt _ _ _ (Some e) => err = e
  | _ => False
  end.

(** The calls the loops of [setup] make: no descriptor is closed. *)
Definition is_setup_call (ev : event) : bool :=
  match ev with
  | Ev_pfm_get_os_event_encoding _ _ | Ev_PerfEventOpen _ _ _ _ _ _
  | Ev_IoctlSetInt _ _ _ _ => true
  | _ => false
  end.

Definition quiet (body : list event) : Prop := Forall (λ ev, failing ev = false) body.

(** A run that succeeded (or panicked) made no failing call; a run that
    returned an error either made none and could not decide on the
    leader, or stopped right after its one failing call, with the error
    of that call. *)
Definition explained (body : list event) (st : status) : Prop :=
  match st with
  | Succeeded | Panicked _ => quiet body
  | Failed err =>
      (quiet body ∧ err = Errorf_cannot_decide_leader)
      ∨ ∃ b ev, body = b ++ [ev] ∧ quiet b ∧ failing ev = true ∧ explains ev err
  end.

(** What a part of [setup] that may only register under the keys [K]
    did, from state [s0] to state [s]. *)
Definition Post (K : Z → string → Z → Prop) (s0 s : setup_state) (st : status) : Prop :=
  ∃ body,
    s.2 = s0.2 ++ body
    ∧ explained body st
    ∧ Forall (λ ev, is_setup_call ev = true) body
    ∧ (∀ fd, fd ∈ opened body → 0 ≤ fd →
         ∃ i name cpu, K i name cpu ∧ tracked_at s.1 i name cpu fd)
    ∧ (∀ i name cpu fd, ¬ K i name cpu →
         tracked_at s0.1 i name cpu fd → tracked_at s.1 i name cpu fd).

(** The key of the map under which a custom event is looked up is its
    name, as [mapEventsToCustomEvents] makes it. *)
Definition custom_names_coherent (c : collector) : Prop :=
  ∀ event customEvent,
    eventToCustomEvent c !! event = Some customEvent →
    CustomEvent_Name customEvent = event.

(** *** Concrete runs of [setup] *)

(** [setup] with the values the Linux ABI gives the constants:
    [PERF_SAMPLE_IDENTIFIER] is [1 << 16], the inherit and exclude-guest
    flags are bits 1 and 20 of the attribute bit field (bit 0 is
    [disabled]), and the attribute is 128 bytes long. *)
Definition sample_setup (k : world) (c : collector) (tr : list event)
  : (collector * list event) * outcome (option error) :=
  setup (2 ^ 16) (2 ^ 1) (2 ^ 20) 128 k c tr.

(** The arguments and the answer of each [perf_event_open], in order:
    [(pid, cpu, groupFd, flags, answer)]. *)
Definition perf_event_open_calls (tr : list event)
  : list (Z * Z * Z * Z * (Z + error)) :=
  omap (λ e, match e with
             | Ev_PerfEventOpen _ pid cpu groupFd flags r =>
                 Some (pid, cpu, groupFd, flags, r)
             | _ => None
             end) tr.

(** Whether each [perf_event_open] asked for a counter that starts
    disabled. *)
Definition opened_disabled (tr : list event) : list bool :=
  omap (λ e, match e with
             | Ev_PerfEventOpen attr _ _ _ _ _ =>
                 Some (Z.testbit (Bits attr) 0)
             | _ => None
             end) tr.

(** The control operations, in order: [(fd, request, answer)]. *)
Definition ioctl_calls (tr : list event) : list (Z * Z * option error) :=
  omap (λ e, match e with
             | Ev_IoctlSetInt fd req _ r => Some (fd, req, r)
             | _ => None
             end) tr.

(** One group of two events on a machine whose CPU 0 is offline. *)
Definition two_events : PerfEvents :=
  {| Core := {| Events_Events := [{| Group_events := ["instructions"; "cycles"]%string;
                                     Group_array := false |}];
                CustomEvents := [] |};
     Uncore := no_events |}.

Definition cpu0_offline_collector : collector :=
  newCollector "/sys/fs/cgroup/perf_event/docker/c1" two_events [1] ∅.

(** The kernel of the scenario, refusing every control operation. *)
Definition EACCES : Z := 13.

Definition ioctl_denied_world : world :=
  {| os_Open := os_Open scenario_world;
     pfm_get_os_event_encoding := pfm_get_os_event_encoding scenario_world;
     unix_PerfEventOpen := unix_PerfEventOpen scenario_world;
     unix_IoctlSetInt := λ _ _ _ _, Some (Errno EACCES);
     file_Read := file_Read scenario_world |}.





(** The header a read of [file] decodes to, when the trace so far is [tr]. *)
Definition header_of_read (k : world) (tr : list event) (file : os_File) (g : group)
  : GroupReadFormat + error :=
  let size := (24 + 16 * length (names g))%nat in
  binary_Read_GroupReadFormat (take 24 (fill_buffer size (file_Read k tr file size).1)).

(** The raw entries the same read decodes to. *)
Definition values_of_read (k : world) (tr : list event) (file : os_File) (g : group)
    (n : nat) : list Values :=
  let size := (24 + 16 * length (names g))%nat in
  decode_Values n (drop 24 (fill_buffer size (file_Read k tr file size).1)).

(** *** Leaders and siblings *)

(** In [body], the kernel answered [fd] to a [perf_event_open] on [cpu]
    that asked for a new group. *)
Definition leader_opened (body : list event) (cpu fd : Z) : Prop :=
  ∃ attr pid flags,
    Ev_PerfEventOpen attr pid cpu groupLeaderFileDescriptor flags (inl fd) ∈ body.

Definition is_ioctl (ev : event) : bool :=
  match ev with Ev_IoctlSetInt _ _ _ _ => true | _ => false end.

(** What [registerEvent] takes an event for, from the entry of CPU 0. *)
Definition taken_for_leader (leaderFileDescriptors : gmap Z Z) : bool :=
  bool_decide (map_index leaderFileDescriptors 0 = groupLeaderFileDescriptor).

(** The calls of the enabling loop over the descriptors [fds]: a reset
    and then an enable on each in turn, up to the first call the kernel
    refuses. *)
Inductive enabled_in_turn : list Z → list event → Prop :=
| enabled_done : enabled_in_turn [] []
| enabled_reset_refused fd rest err :
    enabled_in_turn (fd :: rest)
      [Ev_IoctlSetInt fd PERF_EVENT_IOC_RESET 0 (Some err)]
| enabled_enable_refused fd rest err :
    enabled_in_turn (fd :: rest)
      [Ev_IoctlSetInt fd PERF_EVENT_IOC_RESET 0 None;
       Ev_IoctlSetInt fd PERF_EVENT_IOC_ENABLE 0 (Some err)]
| enabled_next fd rest body :
    enabled_in_turn rest body →
    enabled_in_turn (fd :: rest)
      (Ev_IoctlSetInt fd PERF_EVENT_IOC_RESET 0 None
         :: Ev_IoctlSetInt fd PERF_EVENT_IOC_ENABLE 0 None :: body).

(** *** More to state about [UpdateStats] *)

Definition is_uint64 (z : Z) : Prop := 0 ≤ z < 2 ^ 64.

(** The files [UpdateStats] reads for a group: those of its leader. *)
Definition leader_files (g : group) : gmap Z os_File :=
  default ∅ (group_cpuFiles g !! leaderName g).

Definition is_read_warning (ev : event) : bool :=
  match ev with Log_Warningf_unable_to_read _ _ _ _ => true | _ => false end.

Definition read_warnings (tr : list event) : nat :=
  length (List.filter is_read_warning tr).

(** The number of leader files of a collector, and the number of
    statistics a complete read of them gives. *)
Definition count_leader_files (groups : list (Z * group)) : nat :=
  sum_list (map (λ ig, size (leader_files ig.2)) groups).

Definition count_stats (groups : list (Z * group)) : nat :=
  sum_list (map (λ ig, (size (leader_files ig.2) * length (names ig.2))%nat) groups).

(** Every read of a leader file of [c] stores, without error, a record
    whose count is the number of names of its group. *)
Definition reads_complete (k : world) (c : collector) : Prop :=
  ∀ tr i g cpu file,
    cpuFiles c !! i = Some g →
    leader_files g !! cpu = Some file →
    (file_Read k tr file (24 + 16 * length (names g))).2 = None
    ∧ ∃ perfData,
        header_of_read k tr file g = inl perfData
        ∧ Nr perfData = Z.of_nat (length (names g))
        ∧ 16 * Nr perfData ≤ maxAlloc.

(** What identifies a statistic, and the statistics a complete update
    reports: one for each name of each group on each CPU its leader is
    tracked on. *)
Definition stat_key (stat : PerfStat) : Z * string :=
  (Cpu stat, Name (PerfStat_PerfValue stat)).

Definition group_keys (g : group) : list (Z * string) :=
  flat_map (λ cf, map (λ name, (cf.1, name)) (names g)) (map_to_list (leader_files g)).

Definition collector_keys (c : collector) : list (Z * string) :=
  flat_map (λ ig, group_keys ig.2) (map_to_list (cpuFiles c)).

Definition all_reads_failing_world : world :=
  {| os_Open := os_Open scenario_world;
     pfm_get_os_event_encoding := pfm_get_os_event_encoding scenario_world;
     unix_PerfEventOpen := unix_PerfEventOpen scenario_world;
     unix_IoctlSetInt := unix_IoctlSetInt scenario_world;
     file_Read := λ _ _ _, ([], Some (Errno EIO)) |}.

(** *** Tearing down: [Destroy] *)

(** What [Destroy] does to its environment: it destroys the uncore
    collector, closes files and logs a warning for a file that could not
    be closed. *)
Inductive destroy_event :=
| Ev_uncore_Destroy
| Ev_file_Close (file : os_File) (r : option error)
| Log_Warningf_unable_to_close (cgroupPath name : string) (cpu : Z).

Section Destroying.
(** The answer of [file.Close], after what happened so far. *)
Variable file_Close : list destroy_event → os_File → option error.

Definition do_Close (file : os_File) : M (list destroy_event) (option error) :=
  λ tr, let err := file_Close tr file in (tr ++ [Ev_file_Close file err], Ret err).

Definition log_destroy (e : destroy_event) : M (list destroy_event) unit :=
  λ tr, (tr ++ [e], Ret tt).

(** [for cpu, file := range files]. *)
Fixpoint Destroy_files (c : collector) (name : string) (files : list (Z * os_File))
  : M (list destroy_event) unit :=
  match files with
  | [] => ret tt
  | (cpu, file) :: rest =>
      err <- do_Close file ;;
      match err with
      | Some _ => log_destroy (Log_Warningf_unable_to_close (cgroupPath c) name cpu)
      | None => ret tt
      end ;;;
      Destroy_files c name rest
  end.

(** [for name, files := range group.cpuFiles], over the entries the map
    had when the loop began: an entry is deleted only after it was
    visited, so the loop visits every one of them.  [cpuFiles] is the map
    as the deletions leave it. *)
Fixpoint Destroy_names (c : collector) (entries : list (string * gmap Z os_File))
    (cpuFiles : gmap string (gmap Z os_File))
  : M (list destroy_event) (gmap string (gmap Z os_File)) :=
  match entries with
  | [] => ret cpuFiles
  | (name, files) :: rest =>
      Destroy_files c name (map_to_list files) ;;;
      Destroy_names c rest (delete name cpuFiles)
  end.

(** [for _, group := range c.cpuFiles].  [group] is a copy of the stored
    struct, but its [cpuFiles] is the map the stored group refers to: the
    deletions show in [c.cpuFiles].  The groups of a collector do not
    share their maps: [addEventFile] makes a new one for each index. *)
Fixpoint Destroy_groups (c : collector) (groups : list (Z * group))
    (cpuFiles : gmap Z group)
  : M (list destroy_event) (gmap Z group) :=
  match groups with
  | [] => ret cpuFiles
  | (i, g) :: rest =>
      m <- Destroy_names c (map_to_list (group_cpuFiles g)) (group_cpuFiles g) ;;
      Destroy_groups c rest (<[i := Group_ m (names g) (leaderName g)]> cpuFiles)
  end.

(** [func (c *collector) Destroy]: the collector it leaves. *)
Definition Destroy (c : collector) : M (list destroy_event) collector :=
  log_destroy Ev_uncore_Destroy ;;;
  m <- Destroy_groups c (map_to_list (cpuFiles c)) (cpuFiles c) ;;
  ret (Collector (cgroupPath c) (events c) m (onlineCPUs c) (eventToCustomEvent c)).

End Destroying.

(** The files closed in a trace, the closes that failed and the warnings
    logged. *)
Definition closed (tr : list destroy_event) : list os_File :=
  omap (λ ev, match ev with Ev_file_Close file _ => Some file | _ => None end) tr.

Definition is_failed_close (ev : destroy_event) : bool :=
  match ev with Ev_file_Close _ (Some _) => true | _ => false end.

Definition is_close_warning (ev : destroy_event) : bool :=
  match ev with Log_Warningf_unable_to_close _ _ _ => true | _ => false end.

Definition failed_closes (tr : list destroy_event) : nat :=
  length (List.filter is_failed_close tr).

Definition close_warnings (tr : list destroy_event) : nat :=
  length (List.filter is_close_warning tr).

(** Every file a collector tracks, under any group, name and CPU. *)
Definition group_files (g : group) : list os_File :=
  flat_map (λ nf : string * gmap Z os_File, map snd (map_to_list nf.2))
    (map_to_list (group_cpuFiles g)).

Definition tracked_files (c : collector) : list os_File :=
  flat_map (λ ig : Z * group, group_files ig.2) (map_to_list (cpuFiles c)).

(** A group that tracks no file any more. *)
Definition emptied (g : group) : group := Group_ ∅ (names g) (leaderName g).


(** *** What [setup] leaves tracked *)

(** [addEventFile] on the group it changes: the file is stored under the
    name and the CPU, and the name is appended unless it is there. *)
Definition with_file (g : group) (name : string) (cpu : Z) (perfFile : os_File) : group :=
  Group_ (<[name := <[cpu := perfFile]> (default ∅ (group_cpuFiles g !! name))]>
            (group_cpuFiles g))
         (if bool_decide (name ∈ names g) then names g else names g ++ [name])
         (leaderName g).

(** The files of one event: one for each CPU of [cpus], each a valid
    descriptor carrying the name of the event. *)
Definition wf_files (name : string) (cpus : gset Z) (files : gmap Z os_File) : Prop :=
  dom files = cpus
  ∧ ∀ cpu file, files !! cpu = Some file → file_name file = name ∧ 0 ≤ file_fd file.

(** A group whose names are [evs], led by the first of them, that tracks
    files for exactly these names, on the CPUs [cpus_of] gives. *)
Definition shaped (g : group) (evs : list string) (cpus_of : string → gset Z) : Prop :=
  names g = evs
  ∧ head evs = Some (leaderName g)
  ∧ dom (group_cpuFiles g) = list_to_set evs
  ∧ ∀ name files, group_cpuFiles g !! name = Some files → wf_files name (cpus_of name) files.

(** The group of the events [evs], each registered on every CPU of
    [cpus]. *)
Definition registered (g : group) (evs : list string) (cpus : list Z) : Prop :=
  shaped g evs (λ _, list_to_set cpus).

(** What is stored under the index of a group of which the events [evs]
    were registered: nothing yet when there are none. *)
Definition registered_at (cpuFiles : gmap Z group) (i : Z) (evs : list string)
    (cpus : list Z) : Prop :=
  match cpuFiles !! i with
  | None => evs = []
  | Some g => registered g evs cpus
  end.

(** A collector told twice about CPU 1. *)
Definition duplicate_cpu_collector : collector :=
  newCollector "/sys/fs/cgroup/perf_event/docker/c1" two_events [1; 1] ∅.

(** The custom events configured under a name, in the order of the
    configuration. *)
Definition configured (events : PerfEvents) (name : string) : list CustomEvent :=
  filter (λ customEvent, CustomEvent_Name customEvent = name) (CustomEvents (Core events)).

(** A configuration with one group that has no event. *)
Definition empty_group_events : PerfEvents :=
  {| Core := {| Events_Events := [{| Group_events := []; Group_array := false |}];
                CustomEvents := [] |};
     Uncore := no_events |}.

Definition empty_group_collector : collector :=
  newCollector "/sys/fs/cgroup/perf_event/docker/c1" empty_group_events [0; 1] ∅.

(** The number of distinct online CPUs. *)
Definition distinct_cpus (c : collector) : nat :=
  size (list_to_set (onlineCPUs c) : gset Z).

End Perf.

(** ** Properties of the libpfm4 life cycle *)

Module LibpfmProperties.
Import Libpfm.
Local Open Scope Z_scope.

Lemma terminations_app tr1 tr2 :
  terminations (tr1 ++ tr2) = (terminations tr1 + terminations tr2)%nat.
Proof. unfold terminations. by rewrite List.filter_app, length_app. Qed.

Lemma successful_inits_app tr1 tr2 :
  successful_inits (tr1 ++ tr2) = (successful_inits tr1 + successful_inits tr2)%nat.
Proof. unfold successful_inits. by rewrite List.filter_app, length_app. Qed.

Lemma step_balance s o :
  (terminations (trace s) + owed s ≤ successful_inits (trace s))%nat →
  (terminations (trace (step s o)) + owed (step s o)
     ≤ successful_inits (trace (step s o)))%nat.
Proof.
  destruct s as [b tr], o as [pErr|]; unfold owed; simpl; intros H.
  - unfold init; simpl. destruct (pErr =? PFM_SUCCESS) eqn:E; simpl;
      rewrite !terminations_app, !successful_inits_app;
      unfold terminations at 2, successful_inits at 2; simpl; rewrite E; simpl.
    + destruct b; lia.
    + unfold terminations at 2, successful_inits at 2; simpl. lia.
  - unfold Finalize; simpl. destruct b; simpl; [|lia].
    rewrite terminations_app, successful_inits_app.
    unfold terminations at 2, successful_inits at 2. simpl. lia.
Qed.

Lemma run_balance ops s :
  (terminations (trace s) + owed s ≤ successful_inits (trace s))%nat →
  (terminations (trace (run ops s)) + owed (run ops s)
     ≤ successful_inits (trace (run ops s)))%nat.
Proof.
  revert s. induction ops as [|o ops IH]; intros s H; [done|].
  apply IH. by apply step_balance.
Qed.

(** C9: whatever sequence of [init] and [Finalize] calls has run, the
    [pfm_terminate] calls issued, plus the one still owed when the flag
    is set, never exceed the successful initialisations: at most one
    terminate per successful initialisation, and none owed when no
    initialisation succeeded.  [Finalize] leaves the flag false, issues
    its terminate only when the flag was set and does nothing otherwise
    (never initialised, or already finalised); a second [Finalize]
    changes nothing. *)
Theorem Finalize_idempotent (ops : list op) :
  let s := run ops initial in
  (terminations (trace s) + owed s ≤ successful_inits (trace s))%nat
  ∧ isLibpfmInitialized (Finalize s) = false
  ∧ Finalize s =
      (if isLibpfmInitialized s
       then State false (trace s ++ [Call_pfm_terminate]) else s)
  ∧ Finalize (Finalize s) = Finalize s
  ∧ Finalize initial = initial.
Proof.
  intros s. split; [|split; [|split; [|split]]].
  - apply run_balance. unfold terminations, successful_inits, owed. simpl. lia.
  - unfold Finalize. by destruct s as [[] tr].
  - unfold Finalize. by destruct s as [[] tr].
  - unfold Finalize. by destruct s as [[] tr].
  - reflexivity.
Qed.

End LibpfmProperties.

(** ** Properties of the resctrl collector *)

Module ResctrlProperties.
Import Resctrl.
Local Open Scope string_scope.
Local Open Scope list_scope.

(** C8: constructing the collector for the root container identifier
    touches no file system (the trace is unchanged: no pid-source path
    is looked up, no monitoring group is provisioned, no pid is
    assigned), the collector it returns has an empty pid-source path,
    and [Destroy] on it, and on any collector whose manager carries the
    root identifier, leaves the trace unchanged as well. *)
Theorem root_collector_touches_nothing (e : env) (tr : list event) :
  newCollector e rootContainerID tr = (tr, inl rootCollector)
  ∧ pidsPath rootCollector = ""
  ∧ Destroy e rootCollector tr = tr
  ∧ ∀ ty path, Destroy e (Collector {| Id := rootContainerID; Type_ := ty |} path) tr = tr.
Proof. repeat split. Qed.

(** For contrast, a non-root collector does reach the file system. *)
Lemma non_root_Destroy_removes (e : env) (tr : list event) (c : collector) :
  Id (resctrl c) ≠ rootContainerID →
  ∃ r, Rdt_Destroy (resctrl c) r ∈ Destroy e c tr.
Proof.
  intros Hne. unfold Destroy.
  destruct (String.eqb_spec (Id (resctrl c)) rootContainerID) as [|_]; [done|].
  simpl. exists (rdt_Destroy e tr (resctrl c)).
  destruct (rdt_Destroy e tr (resctrl c)); set_solver.
Qed.


Lemma applied_app tr1 tr2 : applied (tr1 ++ tr2) = applied tr1 ++ applied tr2.
Proof. apply omap_app. Qed.

Lemma applyPids_run e m pids tr tr' r :
  applyPids e m pids tr = (tr', r) →
  ∃ body,
    tr' = tr ++ body
    ∧ applied body `prefix_of` pids
    ∧ Forall (λ ev, ∃ pid a, ev = Rdt_Apply m pid a) body
    ∧ match r with
      | None => applied body = pids ∧ Forall (λ ev, is_failure ev = false) body
      | Some err =>
          ∃ done pid, body = done ++ [Rdt_Apply m pid (Some err)]
                      ∧ Forall (λ ev, is_failure ev = false) done
      end.
Proof.
  revert tr. induction pids as [|pid rest IH]; intros tr; cbn [applyPids].
  - intros [= <- <-]. exists []. rewrite app_nil_r. by repeat apply conj.
  - destruct (rdt_Apply e tr m pid) as [err|] eqn:Hanswer.
    + intros [= <- <-]. exists [Rdt_Apply m pid (Some err)]. repeat apply conj.
      * done.
      * by exists rest.
      * repeat constructor. eauto.
      * by exists [], pid.
    + intros Hrun. apply IH in Hrun as (body & -> & Hprefix & Hshape & Hres).
      exists (Rdt_Apply m pid None :: body). repeat apply conj.
      * by rewrite <- app_assoc.
      * change (applied (Rdt_Apply m pid None :: body)) with (pid :: applied body).
        by apply prefix_cons.
      * constructor; eauto.
      * destruct r as [err|].
        -- destruct Hres as (done & pid' & -> & Hdone).
           exists (Rdt_Apply m pid None :: done), pid'. split; [done|].
           by constructor.
        -- destruct Hres as [Hall Hquiet]. split; [|by constructor].
           change (applied (Rdt_Apply m pid None :: body)) with (pid :: applied body).
           by rewrite Hall.
Qed.

(** X10: [updatePids] looks the pids up once and assigns them in the
    order of the answer, stopping at the first pid that cannot be
    assigned: it returns nil exactly when every pid was assigned, and
    otherwise the error of the lookup or of the last assignment made. *)
Theorem updatePids_in_order e c tr tr' r :
  updatePids e c tr = (tr', r) →
  (∃ err,
     cgroups_GetPids e tr (pidsPath c) = inr err
     ∧ tr' = tr ++ [Cgroups_GetPids (pidsPath c) (inr err)]
     ∧ r = Some err)
  ∨ (∃ pids body,
       cgroups_GetPids e tr (pidsPath c) = inl pids
       ∧ tr' = tr ++ Cgroups_GetPids (pidsPath c) (inl pids) :: body
       ∧ applied body `prefix_of` pids
       ∧ Forall (λ ev, ∃ pid a, ev = Rdt_Apply (resctrl c) pid a) body
       ∧ (r = None ↔ applied body = pids ∧ Forall (λ ev, is_failure ev = false) body)
       ∧ (∀ err, r = Some err →
            ∃ done pid, body = done ++ [Rdt_Apply (resctrl c) pid (Some err)]
                        ∧ Forall (λ ev, is_failure ev = false) done)).
Proof.
  unfold updatePids.
  destruct (cgroups_GetPids e tr (pidsPath c)) as [pids|err] eqn:Hpids.
  - intros Hrun. right.
    apply applyPids_run in Hrun as (body & -> & Hprefix & Hshape & Hres).
    exists pids, body. repeat apply conj; try done.
    + by rewrite <- app_assoc.
    + intros ->. exact Hres.
    + destruct r as [err|]; [|done]. intros [_ Hquiet].
      destruct Hres as (done & pid & -> & _).
      apply Forall_app in Hquiet as [_ Hlast]. by inversion Hlast.
    + intros err ->. exact Hres.
  - intros [= <- <-]. left. eauto.
Qed.

Lemma updatePids_in_order_witness :
  (∃ err,
     cgroups_GetPids pid_gone_env [] (pidsPath sample_collector) = inr err
     ∧ (updatePids pid_gone_env sample_collector []).1
       = [] ++ [Cgroups_GetPids (pidsPath sample_collector) (inr err)]
     ∧ (updatePids pid_gone_env sample_collector []).2 = Some err)
  ∨ (∃ pids body,
       cgroups_GetPids pid_gone_env [] (pidsPath sample_collector) = inl pids
       ∧ (updatePids pid_gone_env sample_collector []).1
         = [] ++ Cgroups_GetPids (pidsPath sample_collector) (inl pids) :: body
       ∧ applied body `prefix_of` pids
       ∧ Forall (λ ev, ∃ pid a, ev = Rdt_Apply (resctrl sample_collector) pid a) body
       ∧ ((updatePids pid_gone_env sample_collector []).2 = None
          ↔ applied body = pids ∧ Forall (λ ev, is_failure ev = false) body)
       ∧ (∀ err, (updatePids pid_gone_env sample_collector []).2 = Some err →
            ∃ done pid,
              body = done ++ [Rdt_Apply (resctrl sample_collector) pid (Some err)]
              ∧ Forall (λ ev, is_failure ev = false) done)).
Proof.
  apply (updatePids_in_order pid_gone_env sample_collector []).
  vm_compute. reflexivity.
Defined.

Lemma updatePids_run e c tr tr' r :
  updatePids e c tr = (tr', r) →
  ∃ body,
    tr' = tr ++ body
    ∧ Forall (λ ev, is_Rdt_Destroy ev = false) body
    ∧ match r with
      | None =>
          Forall (λ ev, is_failure ev = false) body
          ∧ ∃ pids rest,
              body = Cgroups_GetPids (pidsPath c) (inl pids) :: rest
              ∧ applied rest = pids
      | Some err =>
          ∃ done ev, body = done ++ [ev] ∧ is_failure ev = true
                     ∧ Forall (λ ev, is_failure ev = false) done
      end.
Proof.
  unfold updatePids.
  destruct (cgroups_GetPids e tr (pidsPath c)) as [pids|err] eqn:Hpids.
  - intros Hrun. apply applyPids_run in Hrun as (body & -> & Hprefix & Hshape & Hres).
    exists (Cgroups_GetPids (pidsPath c) (inl pids) :: body). repeat apply conj.
    + by rewrite <- app_assoc.
    + constructor; [done|]. eapply Forall_impl; [exact Hshape|].
      by intros ev (pid & a & ->).
    + destruct r as [err|].
      * destruct Hres as (done & pid & -> & Hdone).
        exists (Cgroups_GetPids (pidsPath c) (inl pids) :: done), (Rdt_Apply (resctrl c) pid (Some err)).
        repeat apply conj; try done. by constructor.
      * destruct Hres as [Hall Hquiet]. split; [by constructor|]. by exists pids, body.
  - intros [= <- <-]. exists [Cgroups_GetPids (pidsPath c) (inr err)].
    repeat apply conj; try done; [by repeat constructor|].
    by exists [], (Cgroups_GetPids (pidsPath c) (inr err)).
Qed.

(** X11: for a container other than the root, [newCollector] asks for
    the cgroup mode, prepares the monitoring group and then assigns the
    pids.  When it succeeds no call failed, the collector is a [MON]
    manager of the container with the pids path of the mode, and every
    pid of the container was assigned; when it fails, the call that
    failed is the last one, and the monitoring group is never destroyed,
    not even when it was prepared before the failure. *)
Theorem newCollector_non_root e id tr tr' r :
  id ≠ rootContainerID →
  newCollector e id tr = (tr', r) →
  let c := Collector {| Id := id; Type_ := MON |}
             (filepath_Join e (cgroup_root (cgroups_IsCgroup2UnifiedMode e tr)) id) in
  ∃ set body,
    tr' = tr ++ Cgroups_IsCgroup2UnifiedMode (cgroups_IsCgroup2UnifiedMode e tr)
               :: Rdt_Set (resctrl c) set :: body
    ∧ Forall (λ ev, is_Rdt_Destroy ev = false) body
    ∧ match r with
      | inl c' =>
          c' = c ∧ set = None
          ∧ Forall (λ ev, is_failure ev = false) body
          ∧ ∃ pids rest,
              body = Cgroups_GetPids (pidsPath c) (inl pids) :: rest
              ∧ applied rest = pids
      | inr err =>
          (set = Some err ∧ body = [])
          ∨ (set = None
             ∧ ∃ done ev, body = done ++ [ev] ∧ is_failure ev = true
                          ∧ Forall (λ ev, is_failure ev = false) done)
      end.
Proof.
  intros Hid. unfold newCollector.
  destruct (String.eqb_spec id rootContainerID) as [|_]; [done|].
  set (unified := cgroups_IsCgroup2UnifiedMode e tr).
  assert ((if unified then filepath_Join e "/sys/fs/cgroup" id
           else filepath_Join e "/sys/fs/cgroup/cpu" id)
          = filepath_Join e (cgroup_root unified) id) as -> by by destruct unified.
  set (c := Collector _ _). cbn zeta.
  destruct (rdt_Set e _ (resctrl c)) as [err|] eqn:Hset.
  - intros [= <- <-]. exists (Some err), []. rewrite <- app_assoc. eauto.
  - destruct (updatePids e c _) as [tr1 r1] eqn:Hpids.
    apply updatePids_run in Hpids as (body & -> & Hquiet & Hres).
    destruct r1 as [err|]; intros [= <- <-]; exists None, body;
      rewrite <- !app_assoc; (split; [done|]); (split; [done|]).
    + right. by split.
    + destruct Hres as (Hok & pids & rest & -> & Happlied).
      repeat apply conj; try done. by exists pids, rest.
Qed.

Lemma newCollector_non_root_witness :
  let c := Collector {| Id := "/docker/c1"; Type_ := MON |}
             (filepath_Join pid_gone_env
                (cgroup_root (cgroups_IsCgroup2UnifiedMode pid_gone_env [])) "/docker/c1") in
  ∃ set body,
    (newCollector pid_gone_env "/docker/c1" []).1
    = [] ++ Cgroups_IsCgroup2UnifiedMode (cgroups_IsCgroup2UnifiedMode pid_gone_env [])
         :: Rdt_Set (resctrl c) set :: body
    ∧ Forall (λ ev, is_Rdt_Destroy ev = false) body
    ∧ match (newCollector pid_gone_env "/docker/c1" []).2 with
      | inl c' =>
          c' = c ∧ set = None
          ∧ Forall (λ ev, is_failure ev = false) body
          ∧ ∃ pids rest,
              body = Cgroups_GetPids (pidsPath c) (inl pids) :: rest
              ∧ applied rest = pids
      | inr err =>
          (set = Some err ∧ body = [])
          ∨ (set = None
             ∧ ∃ done ev, body = done ++ [ev] ∧ is_failure ev = true
                          ∧ Forall (λ ev, is_failure ev = false) done)
      end.
Proof.
  apply (newCollector_non_root pid_gone_env "/docker/c1" []).
  - discriminate.
  - vm_compute. reflexivity.
Defined.

Lemma foldl_snoc_map {A B} (f : A → B) (l : list A) (acc : list B) :
  foldl (λ acc a, acc ++ [f a]) acc l = acc ++ map f l.
Proof.
  revert acc. induction l as [|a l IH]; intros acc; simpl.
  - by rewrite app_nil_r.
  - by rewrite IH, <- app_assoc.
Qed.

(** X12: when the statistics of both kinds are there, [UpdateStats]
    replaces what [stats] held by one entry for each NUMA node, in the
    order of the nodes, and then refreshes the pids of a container that
    is not the root.  The new statistics are stored even when the
    refresh fails and its error is returned. *)
Theorem UpdateStats_reports_per_node e rdt_GetStats c stats tr mbmStats cmtStats :
  rdt_GetStats tr (resctrl c)
  = inl {| MBMStats := Some mbmStats; CMTStats := Some cmtStats |} →
  let refresh :=
    if bool_decide (Id (resctrl c) = rootContainerID) then (tr, None)
    else updatePids e c tr in
  UpdateStats e rdt_GetStats c stats tr
  = ((refresh.1,
      {| MemoryBandwidth := map memory_bandwidth_of mbmStats;
         Cache := map cache_of cmtStats |}),
     Returned refresh.2).
Proof.
  intros Hstats refresh. subst refresh. unfold UpdateStats. rewrite Hstats.
  cbn [MBMStats CMTStats MemoryBandwidth].
  rewrite (foldl_snoc_map memory_bandwidth_of), (foldl_snoc_map cache_of).
  cbn [app].
  destruct (String.eqb_spec (Id (resctrl c)) rootContainerID) as [Hroot|Hroot].
  - by rewrite bool_decide_eq_true_2.
  - rewrite bool_decide_eq_false_2 by done. cbn [negb].
    by destruct (updatePids e c tr) as [tr' [err|]].
Qed.

Lemma UpdateStats_reports_per_node_witness :
  let refresh :=
    if bool_decide (Id (resctrl sample_collector) = rootContainerID) then ([], None)
    else updatePids pid_gone_env sample_collector [] in
  UpdateStats pid_gone_env sample_Stats sample_collector
    {| MemoryBandwidth := [{| TotalBytes := 1; LocalBytes := 1 |}]; Cache := [] |} []
  = ((refresh.1,
      {| MemoryBandwidth :=
           map memory_bandwidth_of [{| MBMTotalBytes := 100; MBMLocalBytes := 60 |};
                                    {| MBMTotalBytes := 200; MBMLocalBytes := 90 |}];
         Cache := map cache_of [{| CMT_LLCOccupancy := 7 |};
                                {| CMT_LLCOccupancy := 9 |}] |}),
     Returned refresh.2).
Proof.
  apply (UpdateStats_reports_per_node pid_gone_env sample_Stats sample_collector
           {| MemoryBandwidth := [{| TotalBytes := 1; LocalBytes := 1 |}]; Cache := [] |}
           []).
  reflexivity.
Defined.

(** X13: statistics of one kind that are missing make [UpdateStats]
    panic on the nil pointer, after it has discarded what [stats] held
    and before any pid is looked up: without the bandwidth statistics
    [stats] is left empty, without the cache statistics it is left with
    the bandwidth entries alone. *)
Theorem UpdateStats_missing_statistics_panics e rdt_GetStats c stats tr resctrlStats :
  rdt_GetStats tr (resctrl c) = inl resctrlStats →
  MBMStats resctrlStats = None ∨ CMTStats resctrlStats = None →
  UpdateStats e rdt_GetStats c stats tr
  = ((tr,
      {| MemoryBandwidth :=
           map memory_bandwidth_of (default [] (MBMStats resctrlStats));
         Cache := [] |}),
     Panicked_nil_dereference).
Proof.
  intros Hstats Hnil. unfold UpdateStats. rewrite Hstats.
  destruct (MBMStats resctrlStats) as [mbmStats|]; [|done].
  destruct Hnil as [|Hcmt]; [done|]. rewrite Hcmt.
  by rewrite (foldl_snoc_map memory_bandwidth_of).
Qed.

Lemma UpdateStats_missing_statistics_panics_witness :
  UpdateStats sample_env
    (λ _ _, inl {| MBMStats := Some [{| MBMTotalBytes := 100; MBMLocalBytes := 60 |}];
                   CMTStats := None |})
    sample_collector
    {| MemoryBandwidth := []; Cache := [{| LLCOccupancy := 3 |}] |} []
  = (([],
      {| MemoryBandwidth :=
           map memory_bandwidth_of
             (default []
                (MBMStats {| MBMStats := Some [{| MBMTotalBytes := 100;
                                                   MBMLocalBytes := 60 |}];
                             CMTStats := None |}));
         Cache := [] |}),
     Panicked_nil_dereference).
Proof.
  apply (UpdateStats_missing_statistics_panics sample_env
           (λ _ _, inl {| MBMStats := Some [{| MBMTotalBytes := 100;
                                               MBMLocalBytes := 60 |}];
                          CMTStats := None |})
           sample_collector
           {| MemoryBandwidth := []; Cache := [{| LLCOccupancy := 3 |}] |} []).
  - reflexivity.
  - right. reflexivity.
Defined.

(** X14: for a collector of the root container [UpdateStats] touches no
    file system, whatever the statistics are, and [Destroy] after it
    touches none either. *)
Theorem UpdateStats_root_touches_nothing e rdt_GetStats ty path stats tr :
  let c := Collector {| Id := rootContainerID; Type_ := ty |} path in
  (UpdateStats e rdt_GetStats c stats tr).1.1 = tr
  ∧ Destroy e c (UpdateStats e rdt_GetStats c stats tr).1.1 = tr
  ∧ ((UpdateStats e rdt_GetStats c stats tr).2 = Returned None
     ↔ ∃ mbmStats cmtStats,
         rdt_GetStats tr (resctrl c)
         = inl {| MBMStats := Some mbmStats; CMTStats := Some cmtStats |}).
Proof.
  intros c. unfold UpdateStats. cbn [resctrl Id c].
  destruct (rdt_GetStats tr _) as [[[mbmStats|] [cmtStats|]]|err]; cbn;
    repeat apply conj; try done; try (intros (? & ? & ?); done); eauto.
Qed.

End ResctrlProperties.

(** ** Properties of the perf event collector *)

Module PerfProperties.
Import Perf.
Local Open Scope Z_scope.

(** *** Properties of the group read *)

Lemma length_fill_buffer size data : length (fill_buffer size data) = size.
Proof.
  unfold fill_buffer. rewrite length_take, length_app, length_replicate. lia.
Qed.

Lemma length_decode_Values n bs : length (decode_Values n bs) = n.
Proof. revert bs. induction n as [|n IH]; intros bs; simpl; [done|]. by rewrite IH. Qed.

Lemma readFull_error_None avail need :
  readFull_error avail need = None → (need ≤ avail)%nat.
Proof.
  unfold readFull_error. destruct (need <=? avail)%nat eqn:E.
  - intros _. by apply Nat.leb_le.
  - by destruct (avail =? 0)%nat.
Qed.

(** What a loop that ran to its end stored: entry [i + j] holds the
    [j]-th name, the ratio and the value of the [i + j]-th raw counter;
    the entries before [i] are untouched and the length is kept. *)
Lemma fill_Ret value ratio values names :
  ∀ i perfValues pvs,
    fill value ratio values i names perfValues = Ret pvs →
    length pvs = length perfValues
    ∧ (∀ j, (j < i)%nat → pvs !! j = perfValues !! j)
    ∧ (∀ j name, names !! j = Some name →
         ∃ v, values !! (i + j)%nat = Some v
              ∧ pvs !! (i + j)%nat =
                  Some {| ScalingRatio := ratio;
                          Value := value (Values_Value v);
                          Name := name |}).
Proof.
  induction names as [|name rest IH]; intros i perfValues pvs; simpl.
  - intros [= <-]. split; [done|]. split; [done|]. intros j name Hj. by destruct j.
  - destruct (values !! i) as [v|] eqn:Hv; [|done].
    destruct (i <? length perfValues)%nat eqn:Hi; [|done].
    apply Nat.ltb_lt in Hi. intros Hfill.
    destruct (IH _ _ _ Hfill) as (Hlen & Hbefore & Hat).
    rewrite length_insert in Hlen. split; [done|]. split.
    + intros j Hj. rewrite Hbefore by lia. apply list_lookup_insert_ne. lia.
    + intros [|j] name' Hj; simpl in Hj.
      * injection Hj as <-. rewrite Nat.add_0_r. exists v. split; [done|].
        rewrite Hbefore by lia. by apply list_lookup_insert_eq.
      * replace (i + S j)%nat with (S i + j)%nat by lia. by apply Hat.
Qed.

(** A read that is reported decoded a header whose count is the number
    of names of the group, and reports what [scale] stored. *)
Lemma getPerfValues_Ret uu k file g tr tr' pvs :
  getPerfValues uu k file g tr = (tr', Ret (inl pvs)) →
  ∃ perfData,
    header_of_read k tr file g = inl perfData
    ∧ Z.to_nat (Nr perfData) = length (names g)
    ∧ length pvs = length (names g)
    ∧ scale uu (scalingRatio perfData) (length (names g))
        (values_of_read k tr file g (length (names g))) (names g) = Ret pvs.
Proof.
  unfold getPerfValues, header_of_read, values_of_read, bind, do_Read, ret, raise,
    lift_outcome.
  set (size := (24 + 16 * length (names g))%nat).
  set (r := file_Read k tr file size). simpl.
  destruct (r.2) as [err|]; [done|].
  destruct (binary_Read_GroupReadFormat _) as [perfData|err]; [|done].
  destruct (maxAlloc <? 16 * Nr perfData); [done|].
  unfold binary_Read_Values.
  destruct (readFull_error _ _) eqn:Hfull; [done|].
  apply readFull_error_None in Hfull.
  rewrite length_drop, length_fill_buffer in Hfull. subst size.
  destruct (scale _ _ _ _ _) as [pvs'|p] eqn:Hscale; [|done].
  intros [= _ <-]. exists perfData. split; [done|].
  assert (length pvs' = Z.to_nat (Nr perfData)
          ∧ (length (names g) ≤ Z.to_nat (Nr perfData))%nat) as [Hlen Hle].
  { assert (∃ value, fill value (scalingRatio perfData)
              (decode_Values (Z.to_nat (Nr perfData))
                 (drop 24 (fill_buffer (24 + 16 * length (names g)) r.1)))
              0 (names g) (replicate (Z.to_nat (Nr perfData)) zero_PerfValue)
              = Ret pvs') as [value Hfill].
    { unfold scale in Hscale. destruct (negb _); eauto. }
    apply fill_Ret in Hfill as (Hlen & _ & Hat).
    rewrite length_replicate in Hlen. split; [done|].
    destruct (decide (length (names g) = 0%nat)) as [->|Hne]; [lia|].
    destruct (lookup_lt_is_Some_2 (names g) (length (names g) - 1)) as [name Hname];
      [lia|].
    destruct (Hat _ _ Hname) as (v & Hv & _).
    apply lookup_lt_Some in Hv. rewrite length_decode_Values in Hv. lia. }
  assert (Z.to_nat (Nr perfData) = length (names g)) as Hn by lia.
  rewrite Hn in *. done.
Qed.

Lemma scale_Ret uu ratio n values names pvs :
  scale uu ratio n values names = Ret pvs →
  length pvs = n
  ∧ ∀ j name, names !! j = Some name →
      ∃ v, values !! j = Some v
           ∧ pvs !! j = Some {| ScalingRatio := ratio;
                                Value := reported uu ratio (Values_Value v);
                                Name := name |}.
Proof.
  unfold scale, reported. intros Hscale.
  destruct (ratio =? 0)%float; simpl in Hscale;
    apply fill_Ret in Hscale as (Hlen & _ & Hat);
    rewrite length_replicate in Hlen; (split; [done|]);
    intros j name Hj; apply (Hat j name Hj).
Qed.

(** C1, as amended: every value of a decoded group read carries the
    scaling ratio of the decoded header, which is
    runningTime / enabledTime when both times are non-zero and the
    neutral 1.0 when either of them is zero; so it is 1.0, not 0, when
    enabledTime > 0 and runningTime = 0. *)
Theorem getPerfValues_scalingRatio uu k file g tr tr' pvs :
  getPerfValues uu k file g tr = (tr', Ret (inl pvs)) →
  ∃ perfData,
    header_of_read k tr file g = inl perfData
    ∧ (∀ pv, pv ∈ pvs → ScalingRatio pv = scalingRatio perfData)
    ∧ (TimeRunning perfData ≠ 0 → TimeEnabled perfData ≠ 0 →
       scalingRatio perfData =
         (float64_of_uint64 (TimeRunning perfData)
            / float64_of_uint64 (TimeEnabled perfData))%float)
    ∧ (TimeEnabled perfData = 0 → scalingRatio perfData = 1%float)
    ∧ (TimeRunning perfData = 0 → scalingRatio perfData = 1%float).
Proof.
  intros Hret.
  destruct (getPerfValues_Ret _ _ _ _ _ _ _ Hret) as (perfData & Hhdr & _ & Hlen & Hscale).
  exists perfData. split; [done|]. split; [|split; [|split]].
  - intros pv Hpv. apply list_elem_of_lookup in Hpv as [j Hj].
    apply scale_Ret in Hscale as [_ Hat].
    destruct (lookup_lt_is_Some_2 (names g) j) as [name Hname].
    { rewrite <- Hlen. by eapply lookup_lt_Some. }
    destruct (Hat j name Hname) as (v & _ & Hpv). rewrite Hj in Hpv.
    by injection Hpv as ->.
  - intros Hr He. unfold scalingRatio.
    apply Z.eqb_neq in Hr, He. by rewrite Hr, He.
  - intros He. unfold scalingRatio. rewrite He. simpl. by rewrite andb_false_r.
  - intros Hr. unfold scalingRatio. by rewrite Hr.
Qed.

Lemma getPerfValues_scalingRatio_witness :
  ∃ perfData,
    header_of_read scenario_world []
      {| file_fd := 4; file_name := "instructions" |}
      scenario_group = inl perfData
    ∧ (∀ pv, pv ∈ scenario_values → ScalingRatio pv = scalingRatio perfData)
    ∧ (TimeRunning perfData ≠ 0 → TimeEnabled perfData ≠ 0 →
       scalingRatio perfData =
         (float64_of_uint64 (TimeRunning perfData)
            / float64_of_uint64 (TimeEnabled perfData))%float)
    ∧ (TimeEnabled perfData = 0 → scalingRatio perfData = 1%float)
    ∧ (TimeRunning perfData = 0 → scalingRatio perfData = 1%float).
Proof.
  eapply (getPerfValues_scalingRatio (λ _, 0) scenario_world
            {| file_fd := 4; file_name := "instructions" |}
            scenario_group []).
  vm_compute. reflexivity.
Defined.

(** C1, the claim as stated fails: with enabledTime = 1000 and
    runningTime = 0 the quotient runningTime / enabledTime is 0, yet the
    ratio [getPerfValues] computes and reports is 1.0. *)
Lemma scalingRatio_running_zero_counterexample :
  let perfData := {| Nr := 1; TimeEnabled := 1000; TimeRunning := 0 |} in
  header_of_read idle_world [] cycles_file one_event_group = inl perfData
  ∧ 0 < TimeEnabled perfData
  ∧ TimeRunning perfData = 0
  ∧ (float64_of_uint64 (TimeRunning perfData)
       / float64_of_uint64 (TimeEnabled perfData) =? 0)%float = true
  ∧ (scalingRatio perfData =? 0)%float = false
  ∧ ∀ uu, (getPerfValues uu idle_world cycles_file one_event_group []).2
          = Ret (inl [{| ScalingRatio := 1; Value := 100; Name := "cycles" |}]).
Proof.
  repeat apply conj; intros; vm_compute; reflexivity.
Qed.

(** C2, as amended: the value reported for the [j]-th name of the group
    is computed from the [j]-th raw counter of the read and carries the
    ratio of the header; for a non-zero ratio it is the float64 quotient
    raw / ratio with its fraction discarded (not rounded to the nearest
    integer), and for a ratio equal to 0 it is the raw counter. *)
Theorem getPerfValues_reported uu k file g tr tr' pvs :
  getPerfValues uu k file g tr = (tr', Ret (inl pvs)) →
  ∃ perfData,
    header_of_read k tr file g = inl perfData
    ∧ length pvs = length (names g)
    ∧ (∀ j name, names g !! j = Some name →
         ∃ v, values_of_read k tr file g (length (names g)) !! j = Some v
              ∧ pvs !! j =
                  Some {| ScalingRatio := scalingRatio perfData;
                          Value := reported uu (scalingRatio perfData) (Values_Value v);
                          Name := name |})
    ∧ (∀ raw, reported uu 0 raw = raw)
    ∧ (∀ ratio raw z,
         (ratio =? 0)%float = false →
         float64_trunc (float64_of_uint64 raw / ratio) = Some z →
         0 ≤ z < 2 ^ 64 →
         reported uu ratio raw = z).
Proof.
  intros Hret.
  destruct (getPerfValues_Ret _ _ _ _ _ _ _ Hret) as (perfData & Hhdr & _ & Hlen & Hscale).
  exists perfData. split; [done|]. split; [done|].
  apply scale_Ret in Hscale as [_ Hat]. split; [done|]. split; [done|].
  intros ratio raw z Hratio Htrunc [Hlo Hhi]. unfold reported, uint64_of_float64.
  rewrite Hratio, Htrunc.
  apply Z.leb_le in Hlo. apply Z.ltb_lt in Hhi. by rewrite Hlo, Hhi.
Qed.

Lemma getPerfValues_reported_witness :
  ∃ perfData,
    header_of_read scenario_world []
      {| file_fd := 4; file_name := "instructions" |} scenario_group = inl perfData
    ∧ length scenario_values = length (names scenario_group)
    ∧ (∀ j name, names scenario_group !! j = Some name →
         ∃ v, values_of_read scenario_world []
                {| file_fd := 4; file_name := "instructions" |} scenario_group
                (length (names scenario_group)) !! j = Some v
              ∧ scenario_values !! j =
                  Some {| ScalingRatio := scalingRatio perfData;
                          Value := reported (λ _, 0) (scalingRatio perfData)
                                     (Values_Value v);
                          Name := name |})
    ∧ (∀ raw, reported (λ _, 0) 0 raw = raw)
    ∧ (∀ ratio raw z,
         (ratio =? 0)%float = false →
         float64_trunc (float64_of_uint64 raw / ratio) = Some z →
         0 ≤ z < 2 ^ 64 →
         reported (λ _, 0) ratio raw = z).
Proof.
  eapply (getPerfValues_reported (λ _, 0) scenario_world
            {| file_fd := 4; file_name := "instructions" |} scenario_group []).
  vm_compute. reflexivity.
Defined.

(** C2, the claim as stated fails: for a raw counter of 5 and a ratio of
    3/4 the nearest integer to 5 / 0.75 = 6.67 is 7, and the value
    reported is 6. *)
Lemma reported_value_not_rounded_counterexample :
  (scalingRatio {| Nr := 1; TimeEnabled := 4; TimeRunning := 3 |} =? 0.75)%float = true
  ∧ round_nearest (float64_of_uint64 5 / 0.75) = Some 7
  ∧ ∀ uu, (getPerfValues uu three_quarters_world cycles_file one_event_group []).2
          = Ret (inl [{| ScalingRatio := 0.75; Value := 6; Name := "cycles" |}]).
Proof.
  repeat apply conj; intros; vm_compute; reflexivity.
Qed.

(** *** Properties of [UpdateStats] *)

(** Whenever [UpdateStats] returns, its error is nil; and what it
    returns holds none of the values the record held before the call. *)
Lemma UpdateStats_returns_nil uu (O : Type) k uncore c
    (stats : ContainerStats O) tr tr' stats' err :
  UpdateStats uu O k uncore c stats tr = (tr', Ret (stats', err)) →
  err = None ∧ (cpuFiles c = ∅ → PerfStats stats' = []).
Proof.
  unfold UpdateStats, bind, do_uncore_UpdateStats, log, ret. simpl.
  destruct (uncore tr stats) as [stats1 [e|]]; simpl;
    (destruct (UpdateStats_groups _ _ _ _ _ _) as [tr2 [perfStats|p]] eqn:Hgroups;
     [|done]);
    intros [= _ <- <-]; (split; [done|]); intros Hc; rewrite Hc in Hgroups;
    rewrite map_to_list_empty in Hgroups; simpl in Hgroups; unfold ret in Hgroups;
    by injection Hgroups as _ <-.
Qed.

(** A read or decode that ends with an error costs the call one warning
    and nothing else: the loop goes on with the remaining files and the
    values gathered so far. *)
Lemma UpdateStats_files_error_skipped uu k c g cpu file rest perfStats tr tr1 err :
  readGroupPerfStat uu k file g cpu (cgroupPath c) tr = (tr1, Ret (inr err)) →
  UpdateStats_files uu k c g ((cpu, file) :: rest) perfStats tr
  = UpdateStats_files uu k c g rest perfStats
      (tr1 ++ [Log_Warningf_unable_to_read (leaderName g) cpu (cgroupPath c) err]).
Proof.
  intros Hread. cbn [UpdateStats_files]. unfold bind at 1. rewrite Hread.
  unfold bind, log. reflexivity.
Qed.

(** In the scenario, with the read on CPU 0 failing: the warning is
    logged and CPU 1 still contributes. *)
Lemma UpdateStats_read_error_is_skipped uu (O : Type) (stats : ContainerStats O) :
  let r := UpdateStats uu O read_error_world quiet_uncore three_event_collector
             stats [] in
  r.2 = Ret ({| PerfStats := map (λ v, {| PerfStat_PerfValue := v; Cpu := 1 |})
                               scenario_values;
                Other := Other stats |}, None)
  ∧ Log_Warningf_unable_to_read "instructions" 0
      "/sys/fs/cgroup/perf_event/docker/c1"
      (Errorf_unable_to_read_group "instructions" (Errno EIO)) ∈ r.1.
Proof.
  split; [vm_compute; reflexivity|].
  apply list_elem_of_In. vm_compute. tauto.
Qed.

(** A read that stops short without an error is not noticed: the count
    [Read] returns is dropped, the bytes that were not read stay zero and
    decode as counters of value 0. *)
Lemma getPerfValues_short_read_unnoticed uu :
  (getPerfValues uu short_read_world {| file_fd := 4; file_name := "instructions" |}
     scenario_group []).2
  = Ret (inl [{| ScalingRatio := 0.5; Value := 0; Name := "instructions" |};
              {| ScalingRatio := 0.5; Value := 0; Name := "cycles" |};
              {| ScalingRatio := 0.5; Value := 0; Name := "cache-misses" |}]).
Proof. vm_compute. reflexivity. Qed.

(** C3, evaluated where the code departs from the claim: the leader of
    CPU 0 answers a well-formed record whose header counts 2 entries for
    a group of 3 registered events.  The call panics with an index out
    of range; it returns nothing, what the leader of CPU 1 has to
    contribute is lost with it, and no warning reaches the log. *)
Theorem UpdateStats_count_mismatch_panics uu (O : Type) (stats : ContainerStats O) :
  let r := UpdateStats uu O mismatch_world quiet_uncore three_event_collector
             stats [] in
  r.2 = Panic (IndexOutOfRange 2 2)
  ∧ (getPerfValues uu mismatch_world {| file_fd := 5; file_name := "instructions" |}
       scenario_group []).2 = Ret (inl scenario_values)
  ∧ (getPerfValues uu mismatch_world {| file_fd := 4; file_name := "instructions" |}
       scenario_group []).2 = Panic (IndexOutOfRange 2 2)
  ∧ Forall (λ e, match e with Log_Warningf_unable_to_read _ _ _ _ => False | _ => True end)
      r.1.
Proof.
  repeat apply conj; try (vm_compute; reflexivity).
  vm_compute. repeat constructor.
Qed.

(** C10, evaluated where the code departs from the claim: the single
    leader read answers a header that counts 0 entries for a group of one
    event.  [UpdateStats] does not return nil: it does not return. *)
Theorem UpdateStats_empty_count_panics uu (O : Type) (stats : ContainerStats O) :
  (UpdateStats uu O empty_count_world quiet_uncore one_event_collector stats []).2
  = Panic (IndexOutOfRange 0 0).
Proof. vm_compute. reflexivity. Qed.

(** *** Properties of [setup] *)

Lemma addEventFile_lookup i name cpu perfFile cpuFiles :
  let g := default (Group_ ∅ [] name) (cpuFiles !! i) in
  (∃ g', addEventFile i name cpu perfFile cpuFiles !! i = Some g'
         ∧ group_cpuFiles g' =
             <[name := <[cpu := perfFile]> (default ∅ (group_cpuFiles g !! name))]>
               (group_cpuFiles g))
  ∧ ∀ i', i' ≠ i → addEventFile i name cpu perfFile cpuFiles !! i' = cpuFiles !! i'.
Proof.
  intros g. unfold addEventFile.
  assert (default (Group_ ∅ [] name)
            (match cpuFiles !! i with
             | Some _ => cpuFiles
             | None => <[i := Group_ ∅ [] name]> cpuFiles
             end !! i) = g) as ->.
  { subst g. destruct (cpuFiles !! i) eqn:Hi; [by rewrite Hi|]. by rewrite lookup_insert_eq. }
  split.
  - case_bool_decide; rewrite lookup_insert_eq; eauto.
  - intros i' Hi'. case_bool_decide; rewrite !lookup_insert_ne by done;
      destruct (cpuFiles !! i); by rewrite ?lookup_insert_ne.
Qed.

Lemma addEventFile_tracks i name cpu perfFile cpuFiles :
  tracked_at (addEventFile i name cpu perfFile cpuFiles) i name cpu (file_fd perfFile).
Proof.
  destruct (addEventFile_lookup i name cpu perfFile cpuFiles) as [(g' & Hg' & Hfiles) _].
  exists g', (<[cpu := perfFile]>
               (default ∅ (group_cpuFiles (default (Group_ ∅ [] name) (cpuFiles !! i))
                             !! name))), perfFile.
  rewrite Hfiles. by rewrite !lookup_insert_eq.
Qed.

Lemma addEventFile_frame i name cpu perfFile cpuFiles i' name' cpu' fd :
  (i', name', cpu') ≠ (i, name, cpu) →
  tracked_at cpuFiles i' name' cpu' fd →
  tracked_at (addEventFile i name cpu perfFile cpuFiles) i' name' cpu' fd.
Proof.
  intros Hne (g & files & file & Hg & Hfiles & Hfile & Hfd).
  destruct (addEventFile_lookup i name cpu perfFile cpuFiles) as [(g' & Hg' & Hfiles') Hother].
  destruct (decide (i' = i)) as [->|Hi]; [|exists g, files, file; by rewrite Hother].
  rewrite Hg in Hfiles'. simpl in Hfiles'.
  destruct (decide (name' = name)) as [->|Hname].
  - rewrite Hfiles in Hfiles'. simpl in Hfiles'.
    exists g', (<[cpu := perfFile]> files), file. rewrite Hfiles'.
    rewrite lookup_insert_eq, lookup_insert_ne by congruence. done.
  - exists g', files, file. rewrite Hfiles'. by rewrite lookup_insert_ne.
Qed.

Lemma opened_app tr1 tr2 : opened (tr1 ++ tr2) = opened tr1 ++ opened tr2.
Proof. unfold opened. apply omap_app. Qed.

Lemma quiet_app b1 b2 : quiet b1 → quiet b2 → quiet (b1 ++ b2).
Proof. unfold quiet. intros. by apply Forall_app. Qed.

Lemma explained_app b1 b2 st : quiet b1 → explained b2 st → explained (b1 ++ b2) st.
Proof.
  intros Hq. destruct st as [|err|p]; simpl; try by apply quiet_app.
  intros [[Hq2 ->]|(b & ev & -> & Hb & Hev & Hexp)].
  - left. split; [by apply quiet_app|done].
  - right. exists (b1 ++ b), ev. rewrite app_assoc. repeat split; try done.
    by apply quiet_app.
Qed.

(** A part that called nothing. *)
Lemma Post_nil K s st : explained [] st → Post K s s st.
Proof.
  intros Hexp. exists []. rewrite app_nil_r. repeat split; try done; try by constructor.
  intros fd Hfd. by apply elem_of_nil in Hfd.
Qed.

Lemma Post_refl K s : Post K s s Succeeded.
Proof. apply Post_nil. constructor. Qed.

Lemma Post_mono (K K' : Z → string → Z → Prop) s0 s st :
  (∀ i name cpu, K i name cpu → K' i name cpu) →
  Post K s0 s st → Post K' s0 s st.
Proof.
  intros HK (body & Htr & Hexp & Hcalls & Htracked & Hframe).
  exists body. repeat split; try done.
  - intros fd Hfd Hpos. destruct (Htracked fd Hfd Hpos) as (i & name & cpu & Hkey & Ht).
    eauto 10.
  - intros i name cpu fd Hkey. apply Hframe. intros Hk. apply Hkey. by apply HK.
Qed.

(** One part after another, registering under disjoint keys. *)
Lemma Post_seq (K1 K2 : Z → string → Z → Prop) s0 s1 s2 st :
  (∀ i name cpu, K1 i name cpu → K2 i name cpu → False) →
  Post K1 s0 s1 Succeeded → Post K2 s1 s2 st →
  Post (λ i name cpu, K1 i name cpu ∨ K2 i name cpu) s0 s2 st.
Proof.
  intros Hdisj (b1 & Htr1 & Hexp1 & Hc1 & Ht1 & Hf1) (b2 & Htr2 & Hexp2 & Hc2 & Ht2 & Hf2).
  exists (b1 ++ b2). split; [by rewrite Htr2, Htr1, app_assoc|].
  split; [by apply explained_app|]. split; [by apply Forall_app|]. split.
  - intros fd Hfd Hpos. rewrite opened_app in Hfd. apply elem_of_app in Hfd as [Hfd|Hfd].
    + destruct (Ht1 fd Hfd Hpos) as (i & name & cpu & Hkey & Ht).
      exists i, name, cpu. split; [by left|]. apply Hf2; [|done].
      intros Hk2. by apply (Hdisj i name cpu).
    + destruct (Ht2 fd Hfd Hpos) as (i & name & cpu & Hkey & Ht). eauto 10.
  - intros i name cpu fd Hkey Ht.
    apply Hf2; [by intros ?; apply Hkey; right|].
    apply Hf1; [by intros ?; apply Hkey; left|done].
Qed.

(** A single call that registers nothing. *)
Lemma Post_call K (cpuFiles : gmap Z group) tr ev st :
  is_setup_call ev = true →
  opened [ev] = [] ∨ (∃ fd, opened [ev] = [fd] ∧ fd < 0) →
  (failing ev = false ∧ st = Succeeded
   ∨ failing ev = true ∧ ∃ err, st = Failed err ∧ explains ev err) →
  Post K (cpuFiles, tr) (cpuFiles, tr ++ [ev]) st.
Proof.
  intros Hcall Hopened Hst. exists [ev]. split; [done|]. split.
  - destruct Hst as [[Hf ->]|(Hf & err & -> & Hexp)]; simpl.
    + by repeat constructor.
    + right. exists [], ev. repeat split; try done. constructor.
  - split; [by repeat constructor|]. split; [|done].
    intros fd Hfd Hpos. destruct Hopened as [Ho|(fd' & Ho & Hneg)];
      rewrite Ho in Hfd.
    + by apply elem_of_nil in Hfd.
    + apply list_elem_of_singleton in Hfd as ->. lia.
Qed.

Lemma size_list_to_set_le (l : list Z) : (size (list_to_set l : gset Z) ≤ length l)%nat.
Proof.
  induction l as [|x l IH].
  - by rewrite list_to_set_nil, size_empty.
  - rewrite list_to_set_cons, size_union_alt, size_singleton. simpl.
    pose proof (subseteq_size (list_to_set l ∖ {[x]}) (list_to_set l : gset Z)
                  ltac:(apply subseteq_difference_l; reflexivity)).
    lia.
Qed.

Lemma size_list_to_set_NoDup (l : list Z) :
  size (list_to_set l : gset Z) = length l → NoDup l.
Proof.
  induction l as [|x l IH]; [constructor|].
  intros Hsize. pose proof (size_list_to_set_le l) as Hle.
  rewrite list_to_set_cons, size_union_alt, size_singleton in Hsize. simpl in Hsize.
  assert (list_to_set l ∖ {[x]} ⊆ (list_to_set l : gset Z)) as Hsub
    by (apply subseteq_difference_l; reflexivity).
  pose proof (subseteq_size _ _ Hsub) as Hle'.
  apply NoDup_cons. split.
  - intros Hin.
    assert (size (list_to_set l ∖ {[x]} : gset Z) < size (list_to_set l : gset Z))%nat.
    { apply subset_size. split; [done|]. intros Hsup.
      assert (x ∈ (list_to_set l ∖ {[x]} : gset Z)) as Hx.
      { apply Hsup. by apply elem_of_list_to_set. }
      apply elem_of_difference in Hx as [_ Hx]. apply Hx. by apply elem_of_singleton. }
    lia.
  - apply IH. lia.
Qed.

Lemma dom_initial_leaderFileDescriptors (cpus : list Z) :
  ∀ m : gmap Z Z,
    dom (foldl (λ m cpu, <[cpu := groupLeaderFileDescriptor]> m) m cpus)
    = dom m ∪ list_to_set cpus.
Proof.
  induction cpus as [|cpu rest IH]; intros m.
  - rewrite list_to_set_nil. cbn [foldl]. apply set_eq. intros x.
    rewrite elem_of_union, elem_of_empty. tauto.
  - rewrite list_to_set_cons. cbn [foldl]. rewrite IH, dom_insert_L.
    apply set_eq. intros x. rewrite !elem_of_union. tauto.
Qed.

Section SetupProperties.
Variables perfSampleIdentifier perfAttrBitsInherit perfAttrBitsExcludeGuest : Z.
Variable sizeof_PerfEventAttr : Z.
Variable k : world.

Lemma registerEvent_cpus_Post event pid flags isGroupLeader leaderFileDescriptors :
  ∀ cpus newLeaderFileDescriptors s s' o,
    NoDup cpus →
    registerEvent_cpus k event pid flags isGroupLeader leaderFileDescriptors cpus
      newLeaderFileDescriptors s = (s', o) →
    Post (λ i name cpu,
            i = eventInfo_groupIndex event ∧ name = eventInfo_name event ∧ cpu ∈ cpus)
      s s' (status_of_sum o).
Proof.
  induction cpus as [|cpu rest IH]; intros newL [cpuFiles tr] s' o Hnodup; simpl.
  - unfold ret. intros [= <- <-]. apply Post_refl.
  - apply NoDup_cons in Hnodup as [Hcpu Hrest].
    unfold bind at 1, do_PerfEventOpen at 1.
    set (ev := Ev_PerfEventOpen _ _ _ _ _ _).
    destruct (unix_PerfEventOpen k tr _ _ _ _ _) as [fd|err] eqn:Hopen.
    + unfold os_NewFile. destruct (fd <? 0) eqn:Hfd.
      * unfold ret. intros [= <- <-]. apply Post_call; [done| |].
        -- right. exists fd. split; [done|]. by apply Z.ltb_lt.
        -- right. simpl. split; [done|]. eauto.
      * unfold bind at 1, do_addEventFile at 1. intros Hrun.
        apply IH in Hrun; [|done].
        eapply Post_mono; [|eapply (Post_seq
          (λ i name cpu', i = eventInfo_groupIndex event
                          ∧ name = eventInfo_name event ∧ cpu' = cpu)); [| |exact Hrun]].
        -- intros i name cpu' [(? & ? & ->)|(? & ? & ?)]; repeat split; try done;
             apply elem_of_cons; auto.
        -- intros i name cpu' (_ & _ & ->) (_ & _ & ?). done.
        -- exists [ev]. split; [done|]. split; [by repeat constructor|].
           split; [by repeat constructor|]. simpl. split.
           ++ intros fd' Hfd' _. apply list_elem_of_singleton in Hfd' as ->.
              exists (eventInfo_groupIndex event), (eventInfo_name event), cpu.
              split; [done|]. apply (addEventFile_tracks _ _ _ {| file_fd := fd |}).
           ++ intros i name cpu' fd' Hkey. apply addEventFile_frame.
              intros [= -> -> ->]. by apply Hkey.
    + unfold ret. intros [= <- <-]. apply Post_call; [done|by left|].
      right. simpl. eauto.
Qed.

(** The map [registerEvent] hands back has an entry for each online CPU. *)
Lemma registerEvent_cpus_dom event pid flags leaderFileDescriptors :
  ∀ cpus newLeaderFileDescriptors s s' m,
    registerEvent_cpus k event pid flags true leaderFileDescriptors cpus
      newLeaderFileDescriptors s = (s', Ret (inl m)) →
    dom m = dom newLeaderFileDescriptors ∪ list_to_set cpus.
Proof.
  induction cpus as [|cpu rest IH]; intros newL [cpuFiles tr] s' m.
  - cbn [registerEvent_cpus]. unfold ret. intros [= _ <-].
    rewrite list_to_set_nil. apply set_eq. intros x.
    rewrite elem_of_union, elem_of_empty. tauto.
  - cbn [registerEvent_cpus]. unfold bind at 1, do_PerfEventOpen at 1.
    destruct (unix_PerfEventOpen k tr _ _ _ _ _) as [fd|err]; [|done].
    destruct (os_NewFile fd _) as [perfFile|]; [|done].
    unfold bind at 1, do_addEventFile at 1. intros Hrun. apply IH in Hrun.
    rewrite Hrun, dom_insert_L, list_to_set_cons.
    apply set_eq. intros x. rewrite !elem_of_union. tauto.
Qed.

Lemma registerEvent_dom c event leaderFileDescriptors s s' m :
  dom leaderFileDescriptors = list_to_set (onlineCPUs c) →
  registerEvent k c event leaderFileDescriptors s = (s', Ret (inl m)) →
  dom m = list_to_set (onlineCPUs c).
Proof.
  intros Hdom. unfold registerEvent. case_bool_decide; [|done].
  unfold bind. destruct (bool_decide _) eqn:Hleader.
  - destruct (registerEvent_cpus _ _ _ _ _ _ _ _ _) as [s1 [[newL|err]|p]] eqn:Hcpus;
      try done.
    unfold ret. intros [= _ <-]. apply registerEvent_cpus_dom in Hcpus.
    rewrite Hcpus, dom_empty_L. apply set_eq. intros x.
    rewrite elem_of_union, elem_of_empty. tauto.
  - destruct (registerEvent_cpus _ _ _ _ _ _ _ _ _) as [s1 [[newL|err]|p]]; try done.
    unfold ret. by intros [= _ <-].
Qed.

Lemma registerEvent_Post c event leaderFileDescriptors s s' o :
  dom leaderFileDescriptors = list_to_set (onlineCPUs c) →
  registerEvent k c event leaderFileDescriptors s = (s', o) →
  Post (λ i name _, i = eventInfo_groupIndex event ∧ name = eventInfo_name event)
    s s' (status_of_sum o).
Proof.
  intros Hdom. unfold registerEvent. case_bool_decide as Hsize.
  - assert (NoDup (onlineCPUs c)) as Hnodup.
    { apply size_list_to_set_NoDup. by rewrite <- Hdom, size_dom. }
    unfold bind.
    destruct (registerEvent_cpus _ _ _ _ _ _ _ _ _) as [s1 [r|p]] eqn:Hcpus;
      apply registerEvent_cpus_Post in Hcpus; try done.
    + intros Hrun.
      assert (s' = s1 ∧ status_of_sum o = status_of_sum (Ret r)) as [-> ->].
      { destruct r; [destruct (bool_decide _)|]; unfold ret in Hrun;
          by injection Hrun as <- <-. }
      eapply Post_mono; [|exact Hcpus]. by intros i name cpu (? & ? & _).
    + intros [= <- <-]. eapply Post_mono; [|exact Hcpus]. by intros i name cpu (? & ? & _).
  - unfold ret. intros [= <- <-]. apply Post_nil. left. split; [constructor|done].
Qed.

Lemma setup_event_dom c cgroupFd i j event leaderFileDescriptors s s' m :
  dom leaderFileDescriptors = list_to_set (onlineCPUs c) →
  setup_event perfSampleIdentifier perfAttrBitsInherit perfAttrBitsExcludeGuest
    sizeof_PerfEventAttr k c cgroupFd i j event leaderFileDescriptors s
  = (s', Ret (inl m)) →
  dom m = list_to_set (onlineCPUs c).
Proof.
  intros Hdom. unfold setup_event.
  destruct (eventToCustomEvent c !! event) as [customEvent|].
  - unfold bind, lift_outcome.
    destruct (createConfigFromRawEvent _ _ _ _ _ _) as [config|p]; [|done].
    by apply registerEvent_dom.
  - unfold bind at 1, createConfigFromEvent, bind, readPerfEventAttr.
    destruct s as [cpuFiles tr].
    destruct (pfm_get_os_event_encoding k tr event) as [config|pErr]; simpl; [|done].
    by apply registerEvent_dom.
Qed.

Lemma setup_event_Post c cgroupFd i j event leaderFileDescriptors s s' o :
  dom leaderFileDescriptors = list_to_set (onlineCPUs c) →
  custom_names_coherent c →
  setup_event perfSampleIdentifier perfAttrBitsInherit perfAttrBitsExcludeGuest
    sizeof_PerfEventAttr k c cgroupFd i j event leaderFileDescriptors s = (s', o) →
  Post (λ i' name _, i' = i ∧ name = event) s s' (status_of_sum o).
Proof.
  intros Hdom Hcoh. unfold setup_event.
  destruct (eventToCustomEvent c !! event) as [customEvent|] eqn:Hcustom.
  - unfold bind, lift_outcome.
    destruct (createConfigFromRawEvent _ _ _ _ _ _) as [config|p].
    + intros Hrun. apply registerEvent_Post in Hrun; [|done]. simpl in Hrun.
      by rewrite (Hcoh _ _ Hcustom) in Hrun.
    + intros [= <- <-]. apply Post_nil. constructor.
  - unfold bind at 1, createConfigFromEvent, bind, readPerfEventAttr.
    destruct s as [cpuFiles tr].
    set (ev := Ev_pfm_get_os_event_encoding _ _).
    destruct (pfm_get_os_event_encoding k tr event) as [config|pErr] eqn:Hpfm; simpl.
    + intros Hrun. apply registerEvent_Post in Hrun; [|done]. simpl in Hrun.
      eapply Post_mono; [|eapply (Post_seq (λ _ _ _, False)); [| |exact Hrun]].
      * by intros i' name cpu [[]|?].
      * done.
      * apply Post_call; [done|by left|]. left. by subst ev.
    + unfold ret. intros [= <- <-]. apply Post_call; [done|by left|].
      right. subst ev. simpl. eauto.
Qed.

Lemma setup_events_Post c cgroupFd i :
  ∀ evs j leaderFileDescriptors s s' o,
    dom leaderFileDescriptors = list_to_set (onlineCPUs c) →
    custom_names_coherent c →
    NoDup evs →
    setup_events perfSampleIdentifier perfAttrBitsInherit perfAttrBitsExcludeGuest
      sizeof_PerfEventAttr k c cgroupFd i j evs leaderFileDescriptors s = (s', o) →
    Post (λ i' name _, i' = i ∧ name ∈ evs) s s' (status_of_sum o).
Proof.
  induction evs as [|event rest IH];
    intros j leaderFileDescriptors s s' o Hcpus Hcoh Hnodup; simpl.
  - unfold ret. intros [= <- <-]. apply Post_refl.
  - apply NoDup_cons in Hnodup as [Hevent Hrest]. unfold bind at 1.
    destruct (setup_event _ _ _ _ _ _ _ _ _ _ _ _) as [s1 [r|p]] eqn:Hstep;
      pose proof Hstep as Hdom'; apply setup_event_Post in Hstep; try done.
    + destruct r as [leaderFileDescriptors'|err].
      * apply setup_event_dom in Hdom'; [|done].
        intros Hrun. apply IH in Hrun; try done.
        eapply Post_mono; [|eapply Post_seq; [|exact Hstep|exact Hrun]].
        -- intros i' name cpu [[-> ->]|[-> ?]]; split; try done; apply elem_of_cons; auto.
        -- intros i' name cpu [_ ->] [_ ?]. done.
      * unfold ret. intros [= <- <-]. eapply Post_mono; [|exact Hstep].
        intros i' name cpu [-> ->]. split; [done|]. apply elem_of_cons; auto.
    + intros [= <- <-]. eapply Post_mono; [|exact Hstep].
      intros i' name cpu [-> ->]. split; [done|]. apply elem_of_cons; auto.
Qed.

Lemma setup_enable_Post :
  ∀ fds s s' o,
    setup_enable k fds s = (s', o) →
    Post (λ _ _ _, False) s s' (status_of_option o).
Proof.
  pose proof (Post_seq (λ _ _ _, False) (λ _ _ _, False)) as Hseq.
  assert (∀ s0 s1 s2 st,
            Post (λ _ _ _, False) s0 s1 Succeeded →
            Post (λ _ _ _, False) s1 s2 st →
            Post (λ _ _ _, False) s0 s2 st) as Hthen.
  { intros s0 s1 s2 st H1 H2. eapply Post_mono; [|eapply Hseq; [|exact H1|exact H2]].
    - by intros i name cpu [[]|[]].
    - done. }
  clear Hseq.
  induction fds as [|fd rest IH]; intros [cpuFiles tr] s' o; simpl.
  - unfold ret. intros [= <- <-]. apply Post_refl.
  - unfold bind at 1, do_IoctlSetInt at 1.
    set (reset := Ev_IoctlSetInt _ _ _ _).
    destruct (unix_IoctlSetInt k tr fd PERF_EVENT_IOC_RESET 0) as [err|] eqn:Hreset.
    + unfold ret. intros [= <- <-]. apply Post_call; [done|by left|].
      right. subst reset. simpl. eauto.
    + unfold bind at 1, do_IoctlSetInt at 1.
      set (enable := Ev_IoctlSetInt _ _ _ _).
      assert (Post (λ _ _ _, False) (cpuFiles, tr) (cpuFiles, tr ++ [reset]) Succeeded)
        as Hfirst.
      { apply Post_call; [done|by left|]. left. by subst reset. }
      destruct (unix_IoctlSetInt k (tr ++ [reset]) fd PERF_EVENT_IOC_ENABLE 0)
        as [err|] eqn:Henable.
      * unfold ret. intros [= <- <-]. eapply Hthen; [exact Hfirst|].
        apply Post_call; [done|by left|]. right. subst enable. simpl. eauto.
      * intros Hrun. apply IH in Hrun.
        eapply Hthen; [exact Hfirst|]. eapply Hthen; [|exact Hrun].
        apply Post_call; [done|by left|]. left. by subst enable.
Qed.

Lemma setup_group_Post c cgroupFd i g s s' o :
  custom_names_coherent c →
  NoDup (Group_events g) →
  setup_group perfSampleIdentifier perfAttrBitsInherit perfAttrBitsExcludeGuest
    sizeof_PerfEventAttr k c cgroupFd i g s = (s', o) →
  Post (λ i' _ _, i' = i) s s' (status_of_option o).
Proof.
  intros Hcoh Hg. unfold setup_group, bind at 1.
  destruct (setup_events _ _ _ _ _ _ _ _ _ _ _ _) as [s1 [r|p]] eqn:Hevents;
    apply setup_events_Post in Hevents; try done;
    try (rewrite dom_initial_leaderFileDescriptors, dom_empty_L;
         apply set_eq; intros x; rewrite elem_of_union, elem_of_empty; tauto).
  - destruct r as [leaderFileDescriptors|err].
    + intros Henable. apply setup_enable_Post in Henable.
      eapply Post_mono; [|eapply Post_seq; [|exact Hevents|exact Henable]].
      * by intros i' name cpu [[-> _]|[]].
      * done.
    + unfold ret. intros [= <- <-]. eapply Post_mono; [|exact Hevents].
      by intros i' name cpu [-> _].
  - intros [= <- <-]. eapply Post_mono; [|exact Hevents]. by intros i' name cpu [-> _].
Qed.

Lemma setup_groups_Post c cgroupFd :
  ∀ groups i s s' o,
    custom_names_coherent c →
    Forall (λ g, NoDup (Group_events g)) groups →
    setup_groups perfSampleIdentifier perfAttrBitsInherit perfAttrBitsExcludeGuest
      sizeof_PerfEventAttr k c cgroupFd i groups s = (s', o) →
    Post (λ i' _ _, i ≤ i') s s' (status_of_option o).
Proof.
  induction groups as [|g rest IH]; intros i s s' o Hcoh Hgroups; simpl.
  - unfold ret. intros [= <- <-]. apply Post_refl.
  - apply Forall_cons in Hgroups as [Hg Hrest]. unfold bind at 1.
    destruct (setup_group _ _ _ _ _ _ _ _ _ _) as [s1 [r|p]] eqn:Hgroup;
      apply setup_group_Post in Hgroup; try done.
    + destruct r as [err|].
      * unfold ret. intros [= <- <-]. eapply Post_mono; [|exact Hgroup].
        intros i' _ _ ->. lia.
      * intros Hrun. apply IH in Hrun; try done.
        eapply Post_mono; [|eapply Post_seq; [|exact Hgroup|exact Hrun]].
        -- intros i' name cpu [->|?]; lia.
        -- intros i' name cpu -> ?. lia.
    + intros [= <- <-]. eapply Post_mono; [|exact Hgroup]. intros i' _ _ ->. lia.
Qed.

End SetupProperties.

(** *** Leaders and siblings when CPU 0 is online *)

Section Grouping.
Variables perfSampleIdentifier perfAttrBitsInherit perfAttrBitsExcludeGuest : Z.
Variable sizeof_PerfEventAttr : Z.
Variable k : world.

(** Every open of the loop of [registerEvent] passes the entry of its
    CPU in the map it was given, with the pid and flags decided before
    the loop; the map it builds for a leader holds what the kernel
    answered. *)
Lemma registerEvent_cpus_calls event pid flags isGroupLeader leaderFileDescriptors :
  ∀ cpus newLeaderFileDescriptors s s' o,
    registerEvent_cpus k event pid flags isGroupLeader leaderFileDescriptors cpus
      newLeaderFileDescriptors s = (s', o) →
    ∃ body,
      s'.2 = s.2 ++ body
      ∧ Forall (λ ev, is_ioctl ev = false) body
      ∧ (∀ attr pid' cpu groupFd flags' r,
           Ev_PerfEventOpen attr pid' cpu groupFd flags' r ∈ body →
           groupFd = map_index leaderFileDescriptors cpu
           ∧ pid' = pid ∧ flags' = flags ∧ cpu ∈ cpus)
      ∧ (∀ m cpu fd,
           o = Ret (inl m) → isGroupLeader = true → m !! cpu = Some fd →
           newLeaderFileDescriptors !! cpu = Some fd
           ∨ (0 ≤ fd
              ∧ ∃ attr, Ev_PerfEventOpen attr pid cpu
                          (map_index leaderFileDescriptors cpu) flags (inl fd) ∈ body)).
Proof.
  induction cpus as [|cpu rest IH]; intros newL [cpuFiles tr] s' o.
  - cbn [registerEvent_cpus]. unfold ret. intros [= <- <-]. exists [].
    rewrite app_nil_r. split; [done|]. split; [constructor|]. split.
    + intros * H. by apply elem_of_nil in H.
    + intros m cpu fd [= <-] _ Hm. by left.
  - cbn [registerEvent_cpus]. unfold bind at 1, do_PerfEventOpen at 1.
    set (ev := Ev_PerfEventOpen _ _ _ _ _ _).
    assert (∀ attr pid' cpu' groupFd flags' r,
              Ev_PerfEventOpen attr pid' cpu' groupFd flags' r ∈ [ev] →
              groupFd = map_index leaderFileDescriptors cpu'
              ∧ pid' = pid ∧ flags' = flags ∧ cpu' ∈ cpu :: rest) as Hev.
    { intros * H. apply list_elem_of_singleton in H. subst ev.
      injection H as -> -> -> -> -> ->. split; [done|]. split; [done|].
      split; [done|]. apply elem_of_cons. by left. }
    assert (∀ o' : outcome (gmap Z Z + error),
              (∀ m, o' ≠ Ret (inl m)) →
              ∃ body,
                (cpuFiles, tr ++ [ev]).2 = (cpuFiles, tr).2 ++ body
                ∧ Forall (λ ev, is_ioctl ev = false) body
                ∧ (∀ attr pid' cpu0 groupFd flags' r,
                     Ev_PerfEventOpen attr pid' cpu0 groupFd flags' r ∈ body →
                     groupFd = map_index leaderFileDescriptors cpu0
                     ∧ pid' = pid ∧ flags' = flags ∧ cpu0 ∈ cpu :: rest)
                ∧ (∀ m cpu0 fd,
                     o' = Ret (inl m) → isGroupLeader = true → m !! cpu0 = Some fd →
                     newL !! cpu0 = Some fd
                     ∨ (0 ≤ fd
                        ∧ ∃ attr, Ev_PerfEventOpen attr pid cpu0
                                    (map_index leaderFileDescriptors cpu0) flags (inl fd)
                                  ∈ body))) as Hstop.
    { intros o' Ho'. exists [ev]. split; [done|]. split; [by repeat constructor|].
      split; [exact Hev|]. intros m cpu0 fd Hm. by destruct (Ho' m). }
    destruct (unix_PerfEventOpen k tr _ _ _ _ _) as [fd|err] eqn:Hopen.
    + destruct (os_NewFile fd _) as [perfFile|] eqn:Hfile.
      * unfold bind at 1, do_addEventFile at 1. intros Hrun.
        destruct (IH _ _ _ _ Hrun) as (body & Htr & Hio & Hcalls & Hmap).
        exists (ev :: body). simpl in *. split; [by rewrite Htr, <- app_assoc|].
        split; [by constructor|]. split.
        -- intros * H. apply elem_of_cons in H as [H|H].
           ++ eapply Hev. rewrite H. by apply list_elem_of_singleton.
           ++ destruct (Hcalls _ _ _ _ _ _ H) as (? & ? & ? & ?).
              split; [done|]. split; [done|]. split; [done|].
              apply elem_of_cons. by right.
        -- intros m cpu' fd' Ho Hleader Hm.
           destruct (Hmap m cpu' fd' Ho Hleader Hm) as [Hnew|(Hpos & attr & Hin)].
           ++ rewrite Hleader in Hnew.
              destruct (decide (cpu = cpu')) as [<-|Hne].
              ** rewrite lookup_insert_eq in Hnew. injection Hnew as <-. right.
                 unfold os_NewFile in Hfile.
                 destruct (fd <? 0) eqn:Hneg; [done|]. apply Z.ltb_ge in Hneg.
                 split; [done|]. eexists. apply elem_of_cons. left. reflexivity.
              ** rewrite lookup_insert_ne in Hnew by done. by left.
           ++ right. split; [done|]. exists attr. apply elem_of_cons. by right.
      * unfold ret. intros [= <- <-]. by apply Hstop.
    + unfold ret. intros [= <- <-]. by apply Hstop.
Qed.

Lemma registerEvent_calls c event leaderFileDescriptors s s' o :
  registerEvent k c event leaderFileDescriptors s = (s', o) →
  ∃ body,
    s'.2 = s.2 ++ body
    ∧ Forall (λ ev, is_ioctl ev = false) body
    ∧ (∀ attr pid cpu groupFd flags r,
         Ev_PerfEventOpen attr pid cpu groupFd flags r ∈ body →
         groupFd = map_index leaderFileDescriptors cpu
         ∧ pid = (if taken_for_leader leaderFileDescriptors then eventInfo_pid event else -1)
         ∧ flags = (if taken_for_leader leaderFileDescriptors
                    then Z.lor PERF_FLAG_FD_CLOEXEC PERF_FLAG_PID_CGROUP
                    else PERF_FLAG_FD_CLOEXEC)
         ∧ cpu ∈ onlineCPUs c)
    ∧ (∀ m, o = Ret (inl m) →
         if taken_for_leader leaderFileDescriptors
         then ∀ cpu fd, m !! cpu = Some fd →
                0 ≤ fd
                ∧ ∃ attr pid flags,
                    Ev_PerfEventOpen attr pid cpu
                      (map_index leaderFileDescriptors cpu) flags (inl fd) ∈ body
         else m = leaderFileDescriptors).
Proof.
  unfold registerEvent. case_bool_decide as Hsize.
  - unfold bind.
    destruct (registerEvent_cpus _ _ _ _ _ _ _ _ _) as [s1 [r|p]] eqn:Hcpus;
      apply registerEvent_cpus_calls in Hcpus as (body & Htr & Hio & Hcalls & Hmap).
    + fold (taken_for_leader leaderFileDescriptors) in Hcalls, Hmap |- *.
      intros Hrun.
      assert (s' = s1) as ->.
      { destruct r; [destruct (taken_for_leader _)|]; unfold ret in Hrun;
          by injection Hrun as <- _. }
      exists body. split; [done|]. split; [done|]. split; [exact Hcalls|].
      intros m ->. destruct (taken_for_leader _) eqn:Hleader.
      * destruct r as [newL|err]; unfold ret in Hrun; [|done].
        injection Hrun as <-. intros cpu fd Hm.
        destruct (Hmap _ cpu fd eq_refl eq_refl Hm) as [Hempty|(Hpos & attr & Hin)].
        -- by rewrite lookup_empty in Hempty.
        -- split; [done|]. eauto.
      * destruct r as [newL|err]; unfold ret in Hrun; [|done]. by injection Hrun as <-.
    + fold (taken_for_leader leaderFileDescriptors) in Hcalls, Hmap |- *.
      intros [= <- <-]. exists body. split; [done|]. split; [done|].
      split; [exact Hcalls|]. intros m. done.
  - unfold ret. intros [= <- <-]. exists []. rewrite app_nil_r.
    split; [done|]. split; [constructor|]. split.
    + intros * H. by apply elem_of_nil in H.
    + intros m. done.
Qed.

Lemma setup_event_calls c cgroupFd i j event leaderFileDescriptors s s' o :
  setup_event perfSampleIdentifier perfAttrBitsInherit perfAttrBitsExcludeGuest
    sizeof_PerfEventAttr k c cgroupFd i j event leaderFileDescriptors s = (s', o) →
  ∃ body,
    s'.2 = s.2 ++ body
    ∧ Forall (λ ev, is_ioctl ev = false) body
    ∧ (∀ attr pid cpu groupFd flags r,
         Ev_PerfEventOpen attr pid cpu groupFd flags r ∈ body →
         groupFd = map_index leaderFileDescriptors cpu
         ∧ pid = (if taken_for_leader leaderFileDescriptors then cgroupFd else -1)
         ∧ flags = (if taken_for_leader leaderFileDescriptors
                    then Z.lor PERF_FLAG_FD_CLOEXEC PERF_FLAG_PID_CGROUP
                    else PERF_FLAG_FD_CLOEXEC)
         ∧ cpu ∈ onlineCPUs c)
    ∧ (∀ m, o = Ret (inl m) →
         if taken_for_leader leaderFileDescriptors
         then ∀ cpu fd, m !! cpu = Some fd →
                0 ≤ fd
                ∧ ∃ attr pid flags,
                    Ev_PerfEventOpen attr pid cpu
                      (map_index leaderFileDescriptors cpu) flags (inl fd) ∈ body
         else m = leaderFileDescriptors).
Proof.
  unfold setup_event.
  destruct (eventToCustomEvent c !! event) as [customEvent|].
  - unfold bind, lift_outcome.
    destruct (createConfigFromRawEvent _ _ _ _ _ _) as [config|p].
    + intros Hrun. by apply registerEvent_calls in Hrun.
    + intros [= <- <-]. exists []. rewrite app_nil_r.
      split; [done|]. split; [constructor|]. split.
      * intros * H. by apply elem_of_nil in H.
      * intros m. done.
  - unfold bind at 1, createConfigFromEvent, bind, readPerfEventAttr.
    destruct s as [cpuFiles tr].
    set (ev := Ev_pfm_get_os_event_encoding _ _).
    destruct (pfm_get_os_event_encoding k tr event) as [config|pErr]; simpl.
    + intros Hrun.
      apply registerEvent_calls in Hrun as (body & Htr & Hio & Hcalls & Hmap).
      simpl in *.
      exists (ev :: body). split; [by rewrite Htr, <- app_assoc|].
      split; [by constructor|]. split.
      * intros * H. apply elem_of_cons in H as [H|H]; [by subst ev|]. eauto.
      * intros m Hm. specialize (Hmap m Hm). destruct (taken_for_leader _); [|done].
        intros cpu fd Hfd. destruct (Hmap cpu fd Hfd) as (Hpos & attr & pid & flags & Hin).
        split; [done|]. exists attr, pid, flags. apply elem_of_cons. by right.
    + unfold ret. intros [= <- <-]. exists [ev].
      split; [done|]. split; [by repeat constructor|]. split.
      * intros * H. apply list_elem_of_singleton in H. by subst ev.
      * intros m. done.
Qed.

(** Once the map holds the leader of CPU 0, every further event of the
    group is a sibling: it is opened on each CPU passing the entry of
    that CPU, and the map is handed on unchanged. *)
Lemma setup_events_siblings c cgroupFd i :
  ∀ evs j leaderFileDescriptors s s' o,
    map_index leaderFileDescriptors 0 ≠ groupLeaderFileDescriptor →
    setup_events perfSampleIdentifier perfAttrBitsInherit perfAttrBitsExcludeGuest
      sizeof_PerfEventAttr k c cgroupFd i j evs leaderFileDescriptors s = (s', o) →
    ∃ body,
      s'.2 = s.2 ++ body
      ∧ Forall (λ ev, is_ioctl ev = false) body
      ∧ (∀ attr pid cpu groupFd flags r,
           Ev_PerfEventOpen attr pid cpu groupFd flags r ∈ body →
           groupFd = map_index leaderFileDescriptors cpu
           ∧ pid = -1 ∧ flags = PERF_FLAG_FD_CLOEXEC ∧ cpu ∈ onlineCPUs c)
      ∧ (∀ m, o = Ret (inl m) → m = leaderFileDescriptors).
Proof.
  induction evs as [|event rest IH]; intros j L s s' o Hleader.
  - cbn [setup_events]. unfold ret. intros [= <- <-]. exists []. rewrite app_nil_r.
    split; [done|]. split; [constructor|]. split.
    + intros * H. by apply elem_of_nil in H.
    + by intros m [= <-].
  - cbn [setup_events]. unfold bind at 1.
    destruct (setup_event _ _ _ _ _ _ _ _ _ _ _ _) as [s1 [r|p]] eqn:Hstep;
      apply setup_event_calls in Hstep as (body1 & Htr1 & Hio1 & Hcalls1 & Hmap1);
      unfold taken_for_leader in Hcalls1, Hmap1;
      rewrite bool_decide_eq_false_2 in Hcalls1, Hmap1 by done.
    + destruct r as [L'|err].
      * rewrite (Hmap1 L' eq_refl). intros Hrun.
        destruct (IH _ _ _ _ _ Hleader Hrun) as (body2 & Htr2 & Hio2 & Hcalls2 & Hmap2).
        exists (body1 ++ body2). split; [by rewrite Htr2, Htr1, app_assoc|].
        split; [by apply Forall_app|]. split; [|done].
        intros * H. apply elem_of_app in H as [H|H]; eauto.
      * unfold ret. intros [= <- <-]. exists body1. split; [done|]. split; [done|].
        split; [exact Hcalls1|]. intros m. done.
    + intros [= <- <-]. exists body1. split; [done|]. split; [done|].
      split; [exact Hcalls1|]. intros m. done.
Qed.


Lemma initial_leaderFileDescriptors_lookup (cpus : list Z) :
  ∀ (m : gmap Z Z) cpu,
    foldl (λ m cpu, <[cpu := groupLeaderFileDescriptor]> m) m cpus !! cpu
    = if bool_decide (cpu ∈ cpus) then Some groupLeaderFileDescriptor else m !! cpu.
Proof.
  induction cpus as [|x rest IH]; intros m cpu; cbn [foldl].
  - rewrite bool_decide_eq_false_2; [done|]. apply not_elem_of_nil.
  - rewrite IH. case_bool_decide as Hrest.
    + rewrite bool_decide_eq_true_2; [done|]. apply elem_of_cons. by right.
    + destruct (decide (cpu = x)) as [->|Hne].
      * rewrite lookup_insert_eq, bool_decide_eq_true_2; [done|].
        apply elem_of_cons. by left.
      * rewrite lookup_insert_ne by done. rewrite bool_decide_eq_false_2; [done|].
        intros H. apply elem_of_cons in H as [H|H]; done.
Qed.

(** With CPU 0 online, the first event of a group is opened on every
    CPU as a leader, with the sentinel, the cgroup descriptor as pid and
    the cgroup flag; every later event is opened on every CPU passing
    the descriptor the kernel answered for the leader on that CPU; and
    the map handed to the enabling loop holds those descriptors. *)
Lemma setup_events_grouped c cgroupFd i event rest s s' o :
  0 ∈ onlineCPUs c →
  setup_events perfSampleIdentifier perfAttrBitsInherit perfAttrBitsExcludeGuest
    sizeof_PerfEventAttr k c cgroupFd i 0 (event :: rest)
    (foldl (λ m cpu, <[cpu := groupLeaderFileDescriptor]> m) ∅ (onlineCPUs c)) s
  = (s', o) →
  ∃ body_leader body_siblings,
    s'.2 = s.2 ++ body_leader ++ body_siblings
    ∧ Forall (λ ev, is_ioctl ev = false) (body_leader ++ body_siblings)
    ∧ (∀ attr pid cpu groupFd flags r,
         Ev_PerfEventOpen attr pid cpu groupFd flags r ∈ body_leader →
         groupFd = groupLeaderFileDescriptor
         ∧ pid = cgroupFd
         ∧ flags = Z.lor PERF_FLAG_FD_CLOEXEC PERF_FLAG_PID_CGROUP)
    ∧ (∀ attr pid cpu groupFd flags r,
         Ev_PerfEventOpen attr pid cpu groupFd flags r ∈ body_siblings →
         leader_opened body_leader cpu groupFd
         ∧ pid = -1
         ∧ flags = PERF_FLAG_FD_CLOEXEC)
    ∧ (∀ m cpu fd,
         o = Ret (inl m) → m !! cpu = Some fd → leader_opened body_leader cpu fd).
Proof.
  intros Hcpu0. set (L0 := foldl _ ∅ (onlineCPUs c)).
  assert (∀ cpu, cpu ∈ onlineCPUs c → map_index L0 cpu = groupLeaderFileDescriptor)
    as Hinitial.
  { intros cpu Hcpu. unfold map_index. subst L0.
    rewrite initial_leaderFileDescriptors_lookup. by rewrite bool_decide_eq_true_2. }
  assert (dom L0 = list_to_set (onlineCPUs c)) as Hdom0.
  { subst L0. rewrite dom_initial_leaderFileDescriptors, dom_empty_L.
    apply set_eq. intros x. rewrite elem_of_union, elem_of_empty. tauto. }
  cbn [setup_events]. unfold bind at 1.
  destruct (setup_event _ _ _ _ _ _ _ _ _ _ _ _) as [s1 [r|p]] eqn:Hstep;
    pose proof Hstep as Hdom1;
    apply setup_event_calls in Hstep as (body1 & Htr1 & Hio1 & Hcalls1 & Hmap1);
    unfold taken_for_leader in Hcalls1, Hmap1;
    rewrite bool_decide_eq_true_2 in Hcalls1, Hmap1 by (by apply Hinitial).
  - assert (∀ attr pid cpu groupFd flags r,
              Ev_PerfEventOpen attr pid cpu groupFd flags r ∈ body1 →
              groupFd = groupLeaderFileDescriptor
              ∧ pid = cgroupFd
              ∧ flags = Z.lor PERF_FLAG_FD_CLOEXEC PERF_FLAG_PID_CGROUP) as Hleader.
    { intros * H. destruct (Hcalls1 _ _ _ _ _ _ H) as (-> & -> & -> & Hcpu).
      split; [by apply Hinitial|done]. }
    destruct r as [L1|err].
    + apply setup_event_dom in Hdom1; [|done].
      assert (∀ cpu fd, L1 !! cpu = Some fd → 0 ≤ fd ∧ leader_opened body1 cpu fd)
        as Hheld.
      { intros cpu fd Hfd.
        destruct (Hmap1 L1 eq_refl cpu fd Hfd) as (Hpos & attr & pid & flags & Hin).
        split; [done|]. exists attr, pid, flags.
        destruct (Hcalls1 _ _ _ _ _ _ Hin) as (Hg & _ & _ & Hcpu).
        rewrite (Hinitial _ Hcpu) in Hin. done. }
      assert (∀ cpu, cpu ∈ onlineCPUs c → is_Some (L1 !! cpu)) as Hsome.
      { intros cpu Hcpu. apply elem_of_dom. rewrite Hdom1.
        by apply elem_of_list_to_set. }
      intros Hrun. apply setup_events_siblings in Hrun
        as (body2 & Htr2 & Hio2 & Hcalls2 & Hmap2).
      * exists body1, body2. split; [by rewrite Htr2, Htr1, app_assoc|].
        split; [by apply Forall_app|]. split; [exact Hleader|]. split.
        -- intros * H. destruct (Hcalls2 _ _ _ _ _ _ H) as (-> & -> & -> & Hcpu).
           split; [|done]. destruct (Hsome _ Hcpu) as [fd Hfd].
           unfold map_index. rewrite Hfd. simpl. by apply Hheld.
        -- intros m cpu fd Ho Hfd. rewrite (Hmap2 m Ho) in Hfd. by apply Hheld.
      * destruct (Hsome 0 Hcpu0) as [fd0 Hfd0]. unfold map_index. rewrite Hfd0. simpl.
        destruct (Hheld 0 fd0 Hfd0) as [Hpos _]. unfold groupLeaderFileDescriptor. lia.
    + unfold ret. intros [= <- <-]. exists body1, []. rewrite !app_nil_r.
      split; [done|]. split; [done|]. split; [exact Hleader|]. split.
      * intros * H. by apply elem_of_nil in H.
      * intros m cpu fd. done.
  - intros [= <- <-]. exists body1, []. rewrite !app_nil_r.
    split; [done|]. split; [done|]. split.
    + intros * H. destruct (Hcalls1 _ _ _ _ _ _ H) as (-> & -> & -> & Hcpu).
      split; [by apply Hinitial|done].
    + split.
      * intros * H. by apply elem_of_nil in H.
      * intros m cpu fd. done.
Qed.


Lemma setup_enable_calls :
  ∀ fds s s' o,
    setup_enable k fds s = (s', o) →
    ∃ body, s'.2 = s.2 ++ body ∧ enabled_in_turn fds body.
Proof.
  induction fds as [|fd rest IH]; intros [cpuFiles tr] s' o; cbn [setup_enable].
  - unfold ret. intros [= <- <-]. exists []. rewrite app_nil_r. split; [done|constructor].
  - unfold bind at 1, do_IoctlSetInt at 1.
    destruct (unix_IoctlSetInt k tr fd PERF_EVENT_IOC_RESET 0) as [err|].
    + unfold ret. intros [= <- <-].
      exists [Ev_IoctlSetInt fd PERF_EVENT_IOC_RESET 0 (Some err)].
      split; [done|constructor].
    + unfold bind at 1, do_IoctlSetInt at 1.
      destruct (unix_IoctlSetInt k _ fd PERF_EVENT_IOC_ENABLE 0) as [err|].
      * unfold ret. intros [= <- <-].
        exists [Ev_IoctlSetInt fd PERF_EVENT_IOC_RESET 0 None;
                Ev_IoctlSetInt fd PERF_EVENT_IOC_ENABLE 0 (Some err)].
        split; [|constructor]. simpl. by rewrite <- app_assoc.
      * intros Hrun. destruct (IH _ _ _ Hrun) as (body & Htr & Hbody).
        exists (Ev_IoctlSetInt fd PERF_EVENT_IOC_RESET 0 None
                  :: Ev_IoctlSetInt fd PERF_EVENT_IOC_ENABLE 0 None :: body).
        split; [|by constructor]. simpl in *. by rewrite Htr, <- !app_assoc.
Qed.

(** X21: with CPU 0 online, the calls [setup] makes for a group that is
    not empty are, in this order: the calls that open the leader on each
    CPU; the calls that open the siblings, each passing the leader's
    descriptor of its CPU; and, if every open succeeded, a reset and
    then an enable on leader descriptors, one after the other. *)
Lemma setup_group_leader_first c cgroupFd i g event rest s s' o :
  0 ∈ onlineCPUs c →
  Group_events g = event :: rest →
  setup_group perfSampleIdentifier perfAttrBitsInherit perfAttrBitsExcludeGuest
    sizeof_PerfEventAttr k c cgroupFd i g s = (s', o) →
  ∃ body_leader body_siblings body_enable fds,
    s'.2 = s.2 ++ body_leader ++ body_siblings ++ body_enable
    ∧ Forall (λ ev, is_ioctl ev = false) (body_leader ++ body_siblings)
    ∧ (∀ attr pid cpu groupFd flags r,
         Ev_PerfEventOpen attr pid cpu groupFd flags r ∈ body_leader →
         groupFd = groupLeaderFileDescriptor
         ∧ pid = cgroupFd
         ∧ flags = Z.lor PERF_FLAG_FD_CLOEXEC PERF_FLAG_PID_CGROUP)
    ∧ (∀ attr pid cpu groupFd flags r,
         Ev_PerfEventOpen attr pid cpu groupFd flags r ∈ body_siblings →
         leader_opened body_leader cpu groupFd
         ∧ pid = -1
         ∧ flags = PERF_FLAG_FD_CLOEXEC)
    ∧ enabled_in_turn fds body_enable
    ∧ (∀ fd, fd ∈ fds → ∃ cpu, leader_opened body_leader cpu fd).
Proof.
  intros Hcpu0 Hevents. unfold setup_group, bind at 1. rewrite Hevents.
  destruct (setup_events _ _ _ _ _ _ _ _ _ _ _ _) as [s1 [r|p]] eqn:Hrun;
    apply setup_events_grouped in Hrun
      as (body_leader & body_siblings & Htr & Hio & Hleader & Hsiblings & Hmap);
    try done.
  - destruct r as [leaderFileDescriptors|err].
    + intros Henable.
      apply setup_enable_calls in Henable as (body_enable & Htr' & Hturn).
      exists body_leader, body_siblings, body_enable,
        (map snd (map_to_list leaderFileDescriptors)).
      split; [by rewrite Htr', Htr, <- !app_assoc|]. split; [done|].
      split; [done|]. split; [done|]. split; [done|].
      intros fd Hfd. apply list_elem_of_fmap in Hfd as ([cpu fd'] & -> & Hin).
      apply elem_of_map_to_list in Hin. exists cpu. by apply (Hmap _ _ _ eq_refl).
    + unfold ret. intros [= <- <-]. exists body_leader, body_siblings, [], [].
      rewrite app_nil_r. split; [done|]. split; [done|]. split; [done|].
      split; [done|]. split; [constructor|]. intros fd Hfd. by apply elem_of_nil in Hfd.
  - intros [= <- <-]. exists body_leader, body_siblings, [], [].
    rewrite app_nil_r. split; [done|]. split; [done|]. split; [done|].
    split; [done|]. split; [constructor|]. intros fd Hfd. by apply elem_of_nil in Hfd.
Qed.

End Grouping.

Lemma mapEventsToCustomEvents_coherent events event customEvent :
  mapEventsToCustomEvents events !! event = Some customEvent →
  CustomEvent_Name customEvent = event.
Proof.
  unfold mapEventsToCustomEvents.
  assert (∀ (l : list CustomEvent) (m : gmap string CustomEvent),
            (∀ e ce, m !! e = Some ce → CustomEvent_Name ce = e) →
            ∀ e ce,
              foldl (λ m event, <[CustomEvent_Name event := event]> m) m l !! e = Some ce →
              CustomEvent_Name ce = e) as Hfold.
  { induction l as [|x l IH]; intros m Hm; simpl; [done|].
    apply IH. intros e ce. destruct (decide (CustomEvent_Name x = e)) as [<-|Hne].
    - rewrite lookup_insert_eq. by intros [= <-].
    - rewrite lookup_insert_ne by done. apply Hm. }
  apply Hfold. intros e ce. by rewrite lookup_empty.
Qed.

Lemma newCollector_coherent cgroupPath events onlineCPUs cpuToSocket :
  custom_names_coherent (newCollector cgroupPath events onlineCPUs cpuToSocket).
Proof. intros event customEvent. apply mapEventsToCustomEvents_coherent. Qed.





(** X22: the leader's configuration, and only the leader's, asks for a
    counter that starts disabled, as long as the two shared flags leave
    bit 0 alone. *)
Lemma setAttributes_disabled perfSampleIdentifier perfAttrBitsInherit
    perfAttrBitsExcludeGuest sizeof_PerfEventAttr config leader :
  Z.testbit perfAttrBitsInherit 0 = false →
  Z.testbit perfAttrBitsExcludeGuest 0 = false →
  Z.testbit (Bits (setAttributes perfSampleIdentifier perfAttrBitsInherit
                     perfAttrBitsExcludeGuest sizeof_PerfEventAttr config leader)) 0
  = leader.
Proof.
  intros Hinherit Hguest. unfold setAttributes. cbn [Bits].
  destruct leader; rewrite !Z.lor_spec, Hinherit, Hguest; reflexivity.
Qed.

(** C5: the scenario.  [setup] of a group of three events on CPUs 0 and
    1 succeeds, opens six descriptors of which two with the new-group
    sentinel, and leaves them tracked by event and CPU; the header
    (3, 1000, 500) gives the ratio 0.5, and a read of either leader
    reports 200, 400 and 600 under the three names, each with ratio 0.5;
    [UpdateStats] reports them for both CPUs, in some order of the CPUs. *)
Theorem scenario_three_events_two_cpus
    perfSampleIdentifier perfAttrBitsInherit perfAttrBitsExcludeGuest
    sizeof_PerfEventAttr uu (O : Type) (stats : ContainerStats O) :
  let r := setup perfSampleIdentifier perfAttrBitsInherit perfAttrBitsExcludeGuest
             sizeof_PerfEventAttr scenario_world scenario_collector [] in
  r.2 = Ret None
  ∧ r.1.1 = three_event_collector
  ∧ length (opened r.1.2) = 6%nat
  ∧ length (opened_as_leader r.1.2) = 2%nat
  ∧ map (λ call, call.1.1.2) (perf_event_open_calls r.1.2) = [-1; -1; 4; 5; 4; 5]
  ∧ scalingRatio {| Nr := 3; TimeEnabled := 1000; TimeRunning := 500 |} = 0.5%float
  ∧ map_to_list (default ∅ (group_cpuFiles scenario_group !! leaderName scenario_group))
    ≡ₚ [(0, {| file_fd := 4; file_name := "instructions" |});
        (1, {| file_fd := 5; file_name := "instructions" |})]
  ∧ (getPerfValues uu scenario_world {| file_fd := 4; file_name := "instructions" |}
       scenario_group r.1.2).2 = Ret (inl scenario_values)
  ∧ (getPerfValues uu scenario_world {| file_fd := 5; file_name := "instructions" |}
       scenario_group r.1.2).2 = Ret (inl scenario_values)
  ∧ scenario_values =
      [{| ScalingRatio := 0.5; Value := 200; Name := "instructions" |};
       {| ScalingRatio := 0.5; Value := 400; Name := "cycles" |};
       {| ScalingRatio := 0.5; Value := 600; Name := "cache-misses" |}]
  ∧ ∃ perfStats,
      (UpdateStats uu O scenario_world quiet_uncore r.1.1 stats r.1.2).2
      = Ret ({| PerfStats := perfStats; Other := Other stats |}, None)
      ∧ perfStats
        ≡ₚ map (λ v, {| PerfStat_PerfValue := v; Cpu := 0 |}) scenario_values
           ++ map (λ v, {| PerfStat_PerfValue := v; Cpu := 1 |}) scenario_values.
Proof.
  repeat apply conj; try (vm_compute; reflexivity).
  - vm_compute. apply Permutation_swap.
  - eexists. split; [vm_compute; reflexivity|].
    apply (Permutation_app_comm
             (map (λ v, {| PerfStat_PerfValue := v; Cpu := 1 |}) scenario_values)).
Qed.

(** C4, evaluated where the code departs from the claim: CPU 0 is
    offline and CPU 1 online.  [registerEvent] decides on the leader by
    looking up CPU 0 in the descriptor map, finds the zero value, and
    takes every event for a sibling: both events are opened with
    pid -1 and without the cgroup flag, and the second event is opened
    passing the sentinel -1, not descriptor 4 of the first. *)
Theorem setup_cpu0_offline_opens_ungrouped
    perfSampleIdentifier perfAttrBitsInherit perfAttrBitsExcludeGuest
    sizeof_PerfEventAttr :
  let r := setup perfSampleIdentifier perfAttrBitsInherit perfAttrBitsExcludeGuest
             sizeof_PerfEventAttr (sample_world (λ _, [])) cpu0_offline_collector [] in
  onlineCPUs cpu0_offline_collector = [1]
  ∧ perf_event_open_calls r.1.2
    = [(-1, 1, groupLeaderFileDescriptor, PERF_FLAG_FD_CLOEXEC, inl 4);
       (-1, 1, groupLeaderFileDescriptor, PERF_FLAG_FD_CLOEXEC, inl 5)].
Proof. split; vm_compute; reflexivity. Qed.

(** C6, evaluated where the code departs from the claim: on the same
    input the first event is opened disabled and the second is not, yet
    the second was opened as a group of its own and so counts from its
    open on; the only control operation is a reset on the sentinel -1,
    which the kernel refuses, so that no reset and no enable reaches
    descriptor 4, and setup returns that error. *)
Theorem setup_cpu0_offline_never_enables :
  let r := sample_setup (sample_world (λ _, [])) cpu0_offline_collector [] in
  opened r.1.2 = [4; 5]
  ∧ opened_as_leader r.1.2 = [4; 5]
  ∧ opened_disabled r.1.2 = [true; false]
  ∧ ioctl_calls r.1.2 = [(-1, PERF_EVENT_IOC_RESET, Some (Errno EBADF))]
  ∧ r.2 = Ret (Some (Errno EBADF)).
Proof. repeat apply conj; vm_compute; reflexivity. Qed.

(** The loop fills every name when both slices are long enough. *)
Lemma fill_enough value ratio values names :
  ∀ i perfValues,
    (i + length names ≤ length values)%nat →
    (i + length names ≤ length perfValues)%nat →
    ∃ pvs, fill value ratio values i names perfValues = Ret pvs.
Proof.
  induction names as [|name rest IH]; intros i perfValues Hv Hp; simpl in *.
  - eauto.
  - destruct (lookup_lt_is_Some_2 values i) as [v Hvi]; [lia|]. rewrite Hvi.
    destruct (i <? length perfValues)%nat eqn:Hi; [|apply Nat.ltb_ge in Hi; lia].
    apply IH; rewrite ?length_insert; lia.
Qed.

(** The loop panics at the first index past the end of the slices. *)
Lemma fill_short value ratio values names :
  ∀ i perfValues,
    length perfValues = length values →
    (i ≤ length values < i + length names)%nat →
    fill value ratio values i names perfValues
    = Panic (IndexOutOfRange (length values) (length values)).
Proof.
  induction names as [|name rest IH]; intros i perfValues Hlen Hi; simpl in *; [lia|].
  destruct (decide (i = length values)) as [->|Hne].
  - by rewrite (lookup_ge_None_2 values (length values)) by lia.
  - destruct (lookup_lt_is_Some_2 values i) as [v Hvi]; [lia|]. rewrite Hvi.
    destruct (i <? length perfValues)%nat eqn:Hlt; [|apply Nat.ltb_ge in Hlt; lia].
    apply IH; rewrite ?length_insert; lia.
Qed.

Lemma le_uint64_nonneg_lt (bs : list byte) : 0 ≤ le_uint64 bs < 2 ^ 64.
Proof.
  unfold le_uint64.
  assert (∀ l : list byte,
            0 ≤ foldr (λ b acc, Z.of_N (Byte.to_N b) + 256 * acc) 0 l
              < 256 ^ Z.of_nat (length l)) as H.
  { induction l as [|b l IH]; simpl foldr; [simpl; lia|].
    pose proof (Byte.to_N_bounded b) as Hb.
    rewrite length_cons, Nat2Z.inj_succ, Z.pow_succ_r by lia. lia. }
  specialize (H (take 8 bs)).
  assert (256 ^ Z.of_nat (length (take 8 bs)) ≤ 2 ^ 64).
  { change (2 ^ 64) with (256 ^ 8). apply Z.pow_le_mono_r; [lia|].
    rewrite length_take. lia. }
  lia.
Qed.
Lemma byte_of_Z_to_N (z : Z) : Z.of_N (Byte.to_N (byte_of_Z z)) = z mod 256.
Proof.
  unfold byte_of_Z.
  assert (0 ≤ z mod 256 < 256) as Hz by (apply Z.mod_pos_bound; lia).
  destruct (Byte.of_N (Z.to_N (z mod 256))) as [b|] eqn:Hb.
  - simpl. apply Byte.to_of_N in Hb. rewrite Hb. lia.
  - apply Byte.of_N_None_iff in Hb. lia.
Qed.

Lemma length_uint64_le_bytes n z : length (uint64_le_bytes n z) = n.
Proof. revert z. induction n as [|n IH]; intros z; simpl; [done|]. by rewrite IH. Qed.

Lemma decode_uint64_le_bytes n :
  ∀ z, 0 ≤ z < 256 ^ Z.of_nat n →
       foldr (λ b acc, Z.of_N (Byte.to_N b) + 256 * acc) 0 (uint64_le_bytes n z) = z.
Proof.
  induction n as [|n IH]; intros z Hz.
  - simpl in *. lia.
  - rewrite Nat2Z.inj_succ, Z.pow_succ_r in Hz by lia.
    cbn [uint64_le_bytes foldr]. rewrite byte_of_Z_to_N, IH.
    + pose proof (Z.div_mod z 256). lia.
    + split; [apply Z.div_pos; lia|]. apply Z.div_lt_upper_bound; lia.
Qed.

(** Decoding the eight little-endian bytes of a [uint64] gives it back,
    whatever follows them. *)
Lemma le_uint64_uint64_le z rest :
  0 ≤ z < 2 ^ 64 → le_uint64 (uint64_le z ++ rest) = z.
Proof.
  intros Hz. unfold le_uint64, uint64_le.
  rewrite take_app_length' by (by rewrite length_uint64_le_bytes).
  by apply (decode_uint64_le_bytes 8).
Qed.

Lemma drop_uint64_le z rest : drop 8 (uint64_le z ++ rest) = rest.
Proof. unfold uint64_le. apply drop_app_length'. by rewrite length_uint64_le_bytes. Qed.

Lemma decode_Values_encoded (values : list Values) rest :
  Forall (λ v, is_uint64 (Values_Value v) ∧ is_uint64 (Values_ID v)) values →
  decode_Values (length values)
    (concat (map (λ v, uint64_le (Values_Value v) ++ uint64_le (Values_ID v)) values)
       ++ rest)
  = values.
Proof.
  induction 1 as [|[value id] values [Hv Hid] _ IH]; [done|].
  cbn [length decode_Values map concat]. simpl in Hv, Hid.
  rewrite <- !app_assoc. rewrite le_uint64_uint64_le by done.
  rewrite drop_uint64_le, le_uint64_uint64_le by done.
  f_equal.
  replace (drop 16 (uint64_le value ++ uint64_le id ++
             concat (map (λ v, uint64_le (Values_Value v) ++ uint64_le (Values_ID v))
                       values) ++ rest))
    with (concat (map (λ v, uint64_le (Values_Value v) ++ uint64_le (Values_ID v))
                    values) ++ rest); [exact IH|].
  change 16%nat with (8 + 8)%nat. rewrite <- drop_drop, drop_uint64_le.
  by rewrite drop_uint64_le.
Qed.

Lemma length_encode_group_read perfData values :
  length (encode_group_read perfData values) = (24 + 16 * length values)%nat.
Proof.
  unfold encode_group_read, uint64_le.
  rewrite !length_app, !length_uint64_le_bytes.
  assert (length (concat (map (λ v, uint64_le_bytes 8 (Values_Value v)
                                      ++ uint64_le_bytes 8 (Values_ID v)) values))
          = (16 * length values)%nat) as ->; [|lia].
  induction values as [|v values IH]; [done|].
  cbn [map concat length]. rewrite !length_app, !length_uint64_le_bytes, IH. lia.
Qed.

(** Round trip of the group record: the header and the entries decode
    to what was encoded. *)
Lemma decode_encode_group_read perfData values :
  is_uint64 (Nr perfData) → is_uint64 (TimeEnabled perfData) →
  is_uint64 (TimeRunning perfData) →
  Forall (λ v, is_uint64 (Values_Value v) ∧ is_uint64 (Values_ID v)) values →
  binary_Read_GroupReadFormat (take 24 (encode_group_read perfData values))
  = inl perfData
  ∧ binary_Read_Values (length values) (drop 24 (encode_group_read perfData values))
    = inl values.
Proof.
  intros Hnr Hen Hrun Hvalues. unfold encode_group_read.
  set (body := concat _).
  assert (length (uint64_le (Nr perfData) ++ uint64_le (TimeEnabled perfData)
                    ++ uint64_le (TimeRunning perfData)) = 24%nat) as Hlen.
  { unfold uint64_le. by rewrite !length_app, !length_uint64_le_bytes. }
  split.
  - rewrite !app_assoc, <- (app_assoc (uint64_le (Nr perfData))).
    rewrite take_app_length' by done.
    unfold binary_Read_GroupReadFormat. rewrite Hlen. cbn [readFull_error Nat.leb].
    rewrite le_uint64_uint64_le by done.
    rewrite drop_uint64_le, le_uint64_uint64_le by done.
    change 16%nat with (8 + 8)%nat. rewrite <- drop_drop, !drop_uint64_le.
    rewrite <- (app_nil_r (uint64_le (TimeRunning perfData))).
    rewrite le_uint64_uint64_le by done. by destruct perfData.
  - rewrite !app_assoc, <- (app_assoc (uint64_le (Nr perfData))).
    rewrite drop_app_length' by done.
    unfold binary_Read_Values.
    assert (length body = (16 * length values)%nat) as Hbody.
    { pose proof (length_encode_group_read perfData values) as H.
      unfold encode_group_read in H. fold body in H.
      rewrite !length_app in H. rewrite !length_app in Hlen. lia. }
    unfold readFull_error. rewrite Hbody, Nat.leb_refl.
    rewrite <- (app_nil_r body). subst body. by rewrite decode_Values_encoded.
Qed.
Lemma header_of_read_decodes k tr file g :
  ∃ perfData, header_of_read k tr file g = inl perfData ∧ is_uint64 (Nr perfData).
Proof.
  unfold header_of_read, binary_Read_GroupReadFormat.
  rewrite length_take, length_fill_buffer.
  replace (24 `min` (24 + 16 * length (names g)))%nat with 24%nat by lia.
  cbn [readFull_error Nat.leb]. eexists. split; [done|]. apply le_uint64_nonneg_lt.
Qed.

Ltac open_getPerfValues g Hread Hhdr Hbuf :=
  unfold header_of_read in Hhdr;
  unfold getPerfValues, bind, do_Read, ret, raise, lift_outcome;
  cbn [fst snd]; rewrite Hread, Hhdr;
  match goal with
  | |- context [drop 24 ?b] =>
      assert (length (drop 24 b) = (16 * length (names g))%nat) as Hbuf
        by (rewrite length_drop, length_fill_buffer; lia)
  end.

Lemma getPerfValues_count_too_large uu k file g tr perfData :
  (file_Read k tr file (24 + 16 * length (names g))).2 = None →
  header_of_read k tr file g = inl perfData →
  maxAlloc < 16 * Nr perfData →
  (getPerfValues uu k file g tr).2 = Panic (MakesliceLenOutOfRange (Nr perfData)).
Proof.
  intros Hread Hhdr Hbig. open_getPerfValues g Hread Hhdr Hbuf.
  apply Z.ltb_lt in Hbig. by rewrite Hbig.
Qed.

Lemma getPerfValues_count_above uu k file g tr perfData :
  (file_Read k tr file (24 + 16 * length (names g))).2 = None →
  header_of_read k tr file g = inl perfData →
  16 * Nr perfData ≤ maxAlloc →
  Z.of_nat (length (names g)) < Nr perfData →
  (getPerfValues uu k file g tr).2
  = Ret (inr (Errorf_unable_to_decode_values (leaderName g)
                (if names g is [] then io_EOF else io_ErrUnexpectedEOF))).
Proof.
  intros Hread Hhdr Hfit Hmore. open_getPerfValues g Hread Hhdr Hbuf.
  apply Z.ltb_ge in Hfit. rewrite Hfit.
  unfold binary_Read_Values, readFull_error. rewrite Hbuf.
  destruct (16 * Z.to_nat (Nr perfData) <=? 16 * length (names g))%nat eqn:Hle;
    [apply Nat.leb_le in Hle; lia|].
  destruct (names g) as [|name rest]; [done|]. simpl length.
  by destruct (16 * S (length rest) =? 0)%nat eqn:Hz; [apply Nat.eqb_eq in Hz; lia|].
Qed.

Lemma getPerfValues_count_below uu k file g tr perfData :
  (file_Read k tr file (24 + 16 * length (names g))).2 = None →
  header_of_read k tr file g = inl perfData →
  0 ≤ Nr perfData →
  16 * Nr perfData ≤ maxAlloc →
  Nr perfData < Z.of_nat (length (names g)) →
  (getPerfValues uu k file g tr).2
  = Panic (IndexOutOfRange (Z.to_nat (Nr perfData)) (Z.to_nat (Nr perfData))).
Proof.
  intros Hread Hhdr Hlo Hfit Hless. open_getPerfValues g Hread Hhdr Hbuf.
  apply Z.ltb_ge in Hfit. rewrite Hfit.
  unfold binary_Read_Values, readFull_error. rewrite Hbuf.
  destruct (16 * Z.to_nat (Nr perfData) <=? 16 * length (names g))%nat eqn:Hle;
    [|apply Nat.leb_gt in Hle; lia].
  cbn [fst snd]. unfold scale.
  set (values := decode_Values _ _).
  assert (length values = Z.to_nat (Nr perfData)) as Hvalues
    by apply length_decode_Values.
  destruct (negb _);
    rewrite fill_short; rewrite ?length_replicate, ?Hvalues; done || lia.
Qed.

Lemma getPerfValues_count_equal uu k file g tr perfData :
  (file_Read k tr file (24 + 16 * length (names g))).2 = None →
  header_of_read k tr file g = inl perfData →
  16 * Nr perfData ≤ maxAlloc →
  Nr perfData = Z.of_nat (length (names g)) →
  ∃ pvs, (getPerfValues uu k file g tr).2 = Ret (inl pvs)
         ∧ length pvs = length (names g).
Proof.
  intros Hread Hhdr Hfit Hsame. open_getPerfValues g Hread Hhdr Hbuf.
  apply Z.ltb_ge in Hfit. rewrite Hfit.
  unfold binary_Read_Values, readFull_error. rewrite Hbuf.
  destruct (16 * Z.to_nat (Nr perfData) <=? 16 * length (names g))%nat eqn:Hle;
    [|apply Nat.leb_gt in Hle; lia].
  cbn [fst snd]. unfold scale.
  set (values := decode_Values _ _).
  assert (length values = length (names g)) as Hvalues.
  { subst values. rewrite length_decode_Values. lia. }
  assert (Z.to_nat (Nr perfData) = length (names g)) as -> by lia.
  destruct (negb _);
    match goal with
    | |- context [fill ?value ?ratio ?vs 0 ?ns ?pvs0] =>
        destruct (fill_enough value ratio vs ns 0 pvs0) as [pvs Hfill];
          rewrite ?length_replicate, ?Hvalues; try lia;
          pose proof Hfill as Hlen; apply fill_Ret in Hlen as [Hlen _];
          rewrite length_replicate in Hlen; rewrite Hfill; eauto
    end.
Qed.

(** X1: how a read that reports no error ends is decided by the count of
    the header alone: a count too large to allocate panics, a count
    above the number of names of the group is a decode error
    ([io.EOF] for a group without names, [io.ErrUnexpectedEOF]
    otherwise), a count below it panics with an index out of range at
    the count, and only a count equal to it reports values, one per
    name. *)
Theorem getPerfValues_by_count uu k file g tr :
  (file_Read k tr file (24 + 16 * length (names g))).2 = None →
  ∃ perfData,
    header_of_read k tr file g = inl perfData
    ∧ is_uint64 (Nr perfData)
    ∧ (maxAlloc < 16 * Nr perfData →
       (getPerfValues uu k file g tr).2 = Panic (MakesliceLenOutOfRange (Nr perfData)))
    ∧ (16 * Nr perfData ≤ maxAlloc → Z.of_nat (length (names g)) < Nr perfData →
       (getPerfValues uu k file g tr).2
       = Ret (inr (Errorf_unable_to_decode_values (leaderName g)
                     (if names g is [] then io_EOF else io_ErrUnexpectedEOF))))
    ∧ (16 * Nr perfData ≤ maxAlloc → Nr perfData < Z.of_nat (length (names g)) →
       (getPerfValues uu k file g tr).2
       = Panic (IndexOutOfRange (Z.to_nat (Nr perfData)) (Z.to_nat (Nr perfData))))
    ∧ (16 * Nr perfData ≤ maxAlloc → Nr perfData = Z.of_nat (length (names g)) →
       ∃ pvs, (getPerfValues uu k file g tr).2 = Ret (inl pvs)
              ∧ length pvs = length (names g)).
Proof.
  intros Hread.
  destruct (header_of_read_decodes k tr file g) as (perfData & Hhdr & Hnr).
  exists perfData. split; [done|]. split; [done|].
  split; [|split; [|split]].
  - by apply getPerfValues_count_too_large.
  - by apply getPerfValues_count_above.
  - apply getPerfValues_count_below; try done. apply Hnr.
  - by apply getPerfValues_count_equal.
Qed.

Lemma getPerfValues_by_count_witness :
  ∃ perfData,
    header_of_read scenario_world [] cycles_file scenario_group = inl perfData
    ∧ is_uint64 (Nr perfData)
    ∧ (maxAlloc < 16 * Nr perfData →
       (getPerfValues (λ _, 0) scenario_world cycles_file scenario_group []).2
       = Panic (MakesliceLenOutOfRange (Nr perfData)))
    ∧ (16 * Nr perfData ≤ maxAlloc →
       Z.of_nat (length (names scenario_group)) < Nr perfData →
       (getPerfValues (λ _, 0) scenario_world cycles_file scenario_group []).2
       = Ret (inr (Errorf_unable_to_decode_values (leaderName scenario_group)
                     (if names scenario_group is [] then io_EOF
                      else io_ErrUnexpectedEOF))))
    ∧ (16 * Nr perfData ≤ maxAlloc →
       Nr perfData < Z.of_nat (length (names scenario_group)) →
       (getPerfValues (λ _, 0) scenario_world cycles_file scenario_group []).2
       = Panic (IndexOutOfRange (Z.to_nat (Nr perfData)) (Z.to_nat (Nr perfData))))
    ∧ (16 * Nr perfData ≤ maxAlloc →
       Nr perfData = Z.of_nat (length (names scenario_group)) →
       ∃ pvs,
         (getPerfValues (λ _, 0) scenario_world cycles_file scenario_group []).2
         = Ret (inl pvs)
         ∧ length pvs = length (names scenario_group)).
Proof.
  apply (getPerfValues_by_count (λ _, 0) scenario_world cycles_file scenario_group []).
  vm_compute. reflexivity.
Defined.

Lemma getPerfValues_entries uu k file g tr pvs :
  (getPerfValues uu k file g tr).2 = Ret (inl pvs) →
  ∃ perfData,
    header_of_read k tr file g = inl perfData
    ∧ pvs = zip_with
              (λ name v, {| ScalingRatio := scalingRatio perfData;
                            Value := reported uu (scalingRatio perfData) (Values_Value v);
                            Name := name |})
              (names g) (values_of_read k tr file g (length (names g))).
Proof.
  destruct (getPerfValues uu k file g tr) as [tr' o] eqn:Hrun. simpl. intros ->.
  apply getPerfValues_Ret in Hrun as (perfData & Hhdr & _ & Hlen & Hscale).
  exists perfData. split; [done|].
  apply scale_Ret in Hscale as [_ Hat].
  apply list_eq. intros j. rewrite lookup_zip_with.
  destruct (names g !! j) as [name|] eqn:Hname; simpl.
  - destruct (Hat j name Hname) as (v & -> & ->). done.
  - apply lookup_ge_None. apply lookup_ge_None in Hname. lia.
Qed.

Lemma names_zip_with {V} (ratio : float) (f : V → Z) (ns : list string) (vs : list V) :
  length ns = length vs →
  map (λ x, Name x)
    (zip_with (λ name v, {| ScalingRatio := ratio; Value := f v; Name := name |}) ns vs)
  = ns.
Proof.
  revert vs. induction ns as [|n ns IH]; intros [|v vs] Hlen; simpl in *; try done.
  f_equal. apply IH. lia.
Qed.

(** X2: the statistics of a group read come in the registration order of
    the group: the names reported are the names of the group, one
    statistic each, and every statistic is tagged with the CPU that was
    read. *)
Theorem readGroupPerfStat_names uu k file g cpu cgroupPath tr tr' stats :
  readGroupPerfStat uu k file g cpu cgroupPath tr = (tr', Ret (inl stats)) →
  map (λ stat, Name (PerfStat_PerfValue stat)) stats = names g
  ∧ Forall (λ stat, Cpu stat = cpu) stats.
Proof.
  unfold readGroupPerfStat, bind, ret.
  destruct (getPerfValues uu k file g tr) as [tr1 [[pvs|err]|p]] eqn:Hrun; try done.
  intros [= _ <-].
  assert ((getPerfValues uu k file g tr).2 = Ret (inl pvs)) as Hpvs by by rewrite Hrun.
  clear Hrun.
  apply getPerfValues_entries in Hpvs as (perfData & _ & ->).
  split.
  - rewrite map_map. simpl. apply names_zip_with.
    unfold values_of_read. by rewrite length_decode_Values.
  - apply Forall_forall. intros stat Hstat.
    apply list_elem_of_In, in_map_iff in Hstat as (pv & <- & _). done.
Qed.

Lemma readGroupPerfStat_names_witness :
  map (λ stat, Name (PerfStat_PerfValue stat))
    (map (λ value, {| PerfStat_PerfValue := value; Cpu := 0 |}) scenario_values)
  = names scenario_group
  ∧ Forall (λ stat, Cpu stat = 0)
      (map (λ value, {| PerfStat_PerfValue := value; Cpu := 0 |}) scenario_values).
Proof.
  eapply (readGroupPerfStat_names (λ _, 0) scenario_world cycles_file scenario_group 0
            "/sys/fs/cgroup/perf_event/docker/c1" []).
  vm_compute. reflexivity.
Defined.

Lemma fill_buffer_exact size data : length data = size → fill_buffer size data = data.
Proof. intros <-. unfold fill_buffer. by rewrite take_app_length. Qed.

(** X3: reading the record the kernel writes.  When the read stores the
    little-endian record of a header and of as many entries as the
    group has names, with a count equal to their number, [getPerfValues]
    reports, name by name, the ratio of that header and the value
    computed from the counter of the matching entry. *)
Theorem getPerfValues_of_encoded uu k file g tr perfData values :
  file_Read k tr file (24 + 16 * length (names g))
  = (encode_group_read perfData values, None) →
  is_uint64 (TimeEnabled perfData) →
  is_uint64 (TimeRunning perfData) →
  Forall (λ v, is_uint64 (Values_Value v) ∧ is_uint64 (Values_ID v)) values →
  Nr perfData = Z.of_nat (length values) →
  length values = length (names g) →
  16 * Nr perfData ≤ maxAlloc →
  (getPerfValues uu k file g tr).2
  = Ret (inl (zip_with
                (λ name v, {| ScalingRatio := scalingRatio perfData;
                              Value := reported uu (scalingRatio perfData)
                                         (Values_Value v);
                              Name := name |})
                (names g) values)).
Proof.
  intros Hread Hen Hrun Hvalues Hnr Hlen Hfit.
  assert (is_uint64 (Nr perfData)) as Hnr64.
  { unfold is_uint64, maxAlloc in *. lia. }
  destruct (decode_encode_group_read perfData values Hnr64 Hen Hrun Hvalues)
    as [Hheader Hentries].
  assert (fill_buffer (24 + 16 * length (names g)) (encode_group_read perfData values)
          = encode_group_read perfData values) as Hbuf.
  { apply fill_buffer_exact. rewrite length_encode_group_read. lia. }
  assert (header_of_read k tr file g = inl perfData) as Hhdr.
  { unfold header_of_read. rewrite Hread. cbn [fst]. by rewrite Hbuf. }
  assert (values_of_read k tr file g (length (names g)) = values) as Hvs.
  { unfold values_of_read. rewrite Hread. cbn [fst]. rewrite Hbuf.
    unfold binary_Read_Values in Hentries.
    destruct (readFull_error _ _); [done|]. rewrite <- Hlen. by injection Hentries. }
  destruct (getPerfValues_count_equal uu k file g tr perfData) as (pvs & Hpvs & _);
    [by rewrite Hread|done|done|lia|].
  rewrite Hpvs. apply getPerfValues_entries in Hpvs as (pd & Hpd & ->).
  rewrite Hhdr in Hpd. injection Hpd as <-. by rewrite Hvs.
Qed.

Lemma getPerfValues_of_encoded_witness :
  (getPerfValues (λ _, 0) scenario_world cycles_file scenario_group []).2
  = Ret (inl (zip_with
                (λ name v,
                   {| ScalingRatio :=
                        scalingRatio {| Nr := 3; TimeEnabled := 1000; TimeRunning := 500 |};
                      Value :=
                        reported (λ _, 0)
                          (scalingRatio
                             {| Nr := 3; TimeEnabled := 1000; TimeRunning := 500 |})
                          (Values_Value v);
                      Name := name |})
                (names scenario_group)
                (imap (λ i v, {| Values_Value := v; Values_ID := Z.of_nat i |})
                   [100; 200; 300]))).
Proof.
  apply (getPerfValues_of_encoded (λ _, 0) scenario_world cycles_file scenario_group []
           {| Nr := 3; TimeEnabled := 1000; TimeRunning := 500 |}).
  - vm_compute. reflexivity.
  - unfold is_uint64. simpl. lia.
  - unfold is_uint64. simpl. lia.
  - repeat constructor; simpl; lia.
  - reflexivity.
  - reflexivity.
  - vm_compute. discriminate.
Defined.
Lemma read_warnings_app tr1 tr2 :
  read_warnings (tr1 ++ tr2) = (read_warnings tr1 + read_warnings tr2)%nat.
Proof. unfold read_warnings. by rewrite List.filter_app, length_app. Qed.

Lemma getPerfValues_trace uu k file g tr :
  ∃ ev, (getPerfValues uu k file g tr).1 = tr ++ [ev] ∧ is_read_warning ev = false.
Proof.
  unfold getPerfValues, bind, do_Read, ret, raise, lift_outcome.
  exists (Ev_Read file (24 + 16 * length (names g))
            (file_Read k tr file (24 + 16 * length (names g)))).
  split; [|done]. cbn [fst snd].
  destruct (file_Read k tr file _).2; [done|].
  destruct (binary_Read_GroupReadFormat _); [|done].
  destruct (maxAlloc <? _); [done|].
  destruct (binary_Read_Values _ _); [|done].
  by destruct (scale _ _ _ _ _).
Qed.

Lemma getPerfValues_read_error uu k file g tr err :
  (file_Read k tr file (24 + 16 * length (names g))).2 = Some err →
  (getPerfValues uu k file g tr).2
  = Ret (inr (Errorf_unable_to_read_group (leaderName g) err)).
Proof.
  intros Hread. unfold getPerfValues, bind, do_Read, ret. cbn [fst snd].
  by rewrite Hread.
Qed.

Section UpdateStatsProperties.
Variable uu : float → Z.
Variable O : Type.
Variable k : world.
Variable uncore : list event → ContainerStats O → ContainerStats O * option error.

Lemma UpdateStats_files_failing c g :
  (∀ tr file n, is_Some (file_Read k tr file n).2) →
  ∀ files perfStats tr,
    ∃ tr',
      UpdateStats_files uu k c g files perfStats tr = (tr', Ret perfStats)
      ∧ read_warnings tr' = (read_warnings tr + length files)%nat.
Proof.
  intros Hfail. induction files as [|[cpu file] rest IH]; intros perfStats tr.
  - exists tr. split; [done|]. simpl. lia.
  - cbn [UpdateStats_files]. unfold bind at 1, readGroupPerfStat, bind at 1.
    destruct (Hfail tr file (24 + 16 * length (names g))%nat) as [err Herr].
    pose proof (getPerfValues_read_error uu k file g tr err Herr) as Hres.
    destruct (getPerfValues_trace uu k file g tr) as (ev & Htr & Hev).
    destruct (getPerfValues uu k file g tr) as [tr1 o]. simpl in Hres, Htr. subst.
    unfold ret at 1, bind at 1, log at 1.
    destruct (IH perfStats
                ((tr ++ [ev])
                   ++ [Log_Warningf_unable_to_read (leaderName g) cpu (cgroupPath c)
                         (Errorf_unable_to_read_group (leaderName g) err)]))
      as (tr' & Hrun & Hcount).
    exists tr'. split; [exact Hrun|]. rewrite Hcount, !read_warnings_app.
    unfold read_warnings at 2 3. simpl. rewrite Hev. simpl. lia.
Qed.

Lemma UpdateStats_groups_failing c :
  (∀ tr file n, is_Some (file_Read k tr file n).2) →
  ∀ groups perfStats tr,
    ∃ tr',
      UpdateStats_groups uu k c groups perfStats tr = (tr', Ret perfStats)
      ∧ read_warnings tr' = (read_warnings tr + count_leader_files groups)%nat.
Proof.
  intros Hfail. induction groups as [|[i g] rest IH]; intros perfStats tr.
  - exists tr. split; [done|]. unfold count_leader_files. simpl. lia.
  - cbn [UpdateStats_groups]. unfold bind at 1.
    destruct (UpdateStats_files_failing c g Hfail
                (map_to_list (default ∅ (group_cpuFiles g !! leaderName g)))
                perfStats tr) as (tr1 & -> & Hcount1).
    destruct (IH perfStats tr1) as (tr' & Hrun & Hcount).
    exists tr'. split; [exact Hrun|]. rewrite Hcount, Hcount1.
    change (count_leader_files ((i, g) :: rest))
      with (size (leader_files g) + count_leader_files rest)%nat.
    unfold leader_files. rewrite length_map_to_list. lia.
Qed.

End UpdateStatsProperties.

(** X4: when every read fails, [UpdateStats] still returns nil: it logs
    one warning for each leader file of each group and reports no
    statistic, whatever the record held before and whatever the uncore
    collector answered. *)
Theorem UpdateStats_all_reads_failing uu (O : Type) k uncore c
    (stats : ContainerStats O) tr :
  (∀ tr file n, is_Some (file_Read k tr file n).2) →
  ∃ tr',
    UpdateStats uu O k uncore c stats tr
    = (tr', Ret ({| PerfStats := []; Other := Other (uncore tr stats).1 |}, None))
    ∧ read_warnings tr'
      = (read_warnings tr + count_leader_files (map_to_list (cpuFiles c)))%nat.
Proof.
  intros Hfail. unfold UpdateStats, bind at 1, do_uncore_UpdateStats.
  set (r := uncore tr stats). unfold bind at 1.
  set (tr0 := tr ++ [Ev_uncore_UpdateStats r.2]).
  assert (∃ tr1, (match r.2 with
                  | Some err => log (Log_Errorf_uncore err)
                  | None => ret tt
                  end) tr0 = (tr1, Ret tt)
                 ∧ read_warnings tr1 = read_warnings tr) as (tr1 & -> & Htr1).
  { destruct r.2 as [err|]; unfold log, ret; eexists; (split; [done|]);
      subst tr0; rewrite !read_warnings_app; unfold read_warnings; simpl; lia. }
  unfold bind at 1. cbn [PerfStats Other].
  destruct (UpdateStats_groups_failing uu k c Hfail (map_to_list (cpuFiles c)) [] tr1)
    as (tr' & -> & Hcount).
  exists tr'. split; [done|]. by rewrite Hcount, Htr1.
Qed.

Lemma UpdateStats_all_reads_failing_witness :
  ∃ tr',
    UpdateStats (λ _, 0) unit
      all_reads_failing_world
      quiet_uncore three_event_collector {| PerfStats := []; Other := tt |} []
    = (tr', Ret ({| PerfStats := [];
                    Other := Other (quiet_uncore []
                                      {| PerfStats := []; Other := tt |}).1 |}, None))
    ∧ read_warnings tr'
      = (read_warnings []
         + count_leader_files (map_to_list (cpuFiles three_event_collector)))%nat.
Proof.
  apply (UpdateStats_all_reads_failing (λ _, 0) unit
           all_reads_failing_world
           quiet_uncore three_event_collector {| PerfStats := []; Other := tt |} []).
  intros tr file n. simpl. eauto.
Defined.
Lemma readGroupPerfStat_complete uu k file g cpu cgroupPath tr perfData :
  (file_Read k tr file (24 + 16 * length (names g))).2 = None →
  header_of_read k tr file g = inl perfData →
  Nr perfData = Z.of_nat (length (names g)) →
  16 * Nr perfData ≤ maxAlloc →
  ∃ stats ev,
    readGroupPerfStat uu k file g cpu cgroupPath tr = (tr ++ [ev], Ret (inl stats))
    ∧ is_read_warning ev = false
    ∧ map stat_key stats = map (λ name, (cpu, name)) (names g).
Proof.
  intros Hread Hhdr Hnr Hfit.
  destruct (getPerfValues_count_equal uu k file g tr perfData Hread Hhdr Hfit Hnr)
    as (pvs & Hpvs & _).
  destruct (getPerfValues_trace uu k file g tr) as (ev & Htr & Hev).
  pose proof (getPerfValues_entries uu k file g tr pvs Hpvs) as (pd & _ & Hzip).
  unfold readGroupPerfStat, bind, ret.
  destruct (getPerfValues uu k file g tr) as [tr1 o]. simpl in Hpvs, Htr. subst o tr1.
  eexists _, ev. split; [done|]. split; [done|].
  assert (map (λ x, Name x) pvs = names g) as Hnames.
  { rewrite Hzip. apply names_zip_with.
    unfold values_of_read. by rewrite length_decode_Values. }
  rewrite <- Hnames, !map_map. done.
Qed.

Section UpdateStatsComplete.
Variable uu : float → Z.
Variable k : world.

Lemma UpdateStats_files_complete c g :
  ∀ files perfStats tr,
    (∀ tr cpu file, (cpu, file) ∈ files →
       (file_Read k tr file (24 + 16 * length (names g))).2 = None
       ∧ ∃ perfData,
           header_of_read k tr file g = inl perfData
           ∧ Nr perfData = Z.of_nat (length (names g))
           ∧ 16 * Nr perfData ≤ maxAlloc) →
    ∃ tr' out,
      UpdateStats_files uu k c g files perfStats tr = (tr', Ret (perfStats ++ out))
      ∧ read_warnings tr' = read_warnings tr
      ∧ map stat_key out
        = flat_map (λ cf : Z * os_File, map (λ name, (cf.1, name)) (names g)) files.
Proof.
  induction files as [|[cpu file] rest IH]; intros perfStats tr Hgood.
  - exists tr, []. by rewrite app_nil_r.
  - destruct (Hgood tr cpu file) as (Hread & perfData & Hhdr & Hnr & Hfit);
      [apply elem_of_cons; by left|].
    destruct (readGroupPerfStat_complete uu k file g cpu (cgroupPath c) tr perfData
                Hread Hhdr Hnr Hfit) as (stats & ev & Hrun & Hev & Hkeys).
    cbn [UpdateStats_files]. unfold bind at 1. rewrite Hrun.
    destruct (IH (perfStats ++ stats) (tr ++ [ev])) as (tr' & out & Hrest & Hwarn & Hout).
    { intros tr0 cpu0 file0 Hin. apply (Hgood tr0 cpu0 file0). apply elem_of_cons. by right. }
    exists tr', (stats ++ out). rewrite app_assoc. split; [exact Hrest|]. split.
    + rewrite Hwarn, read_warnings_app. unfold read_warnings at 2. simpl.
      rewrite Hev. simpl. lia.
    + rewrite map_app, Hkeys, Hout. done.
Qed.

Lemma UpdateStats_groups_complete c :
  ∀ groups perfStats tr,
    (∀ tr i g cpu file, (i, g) ∈ groups → leader_files g !! cpu = Some file →
       (file_Read k tr file (24 + 16 * length (names g))).2 = None
       ∧ ∃ perfData,
           header_of_read k tr file g = inl perfData
           ∧ Nr perfData = Z.of_nat (length (names g))
           ∧ 16 * Nr perfData ≤ maxAlloc) →
    ∃ tr' out,
      UpdateStats_groups uu k c groups perfStats tr = (tr', Ret (perfStats ++ out))
      ∧ read_warnings tr' = read_warnings tr
      ∧ map stat_key out = flat_map (λ ig : Z * group, group_keys ig.2) groups.
Proof.
  induction groups as [|[i g] rest IH]; intros perfStats tr Hgood.
  - exists tr, []. by rewrite app_nil_r.
  - cbn [UpdateStats_groups]. unfold bind at 1.
    destruct (UpdateStats_files_complete c g (map_to_list (leader_files g)) perfStats tr)
      as (tr1 & out1 & Hrun1 & Hwarn1 & Hout1).
    { intros tr0 cpu file Hin. apply (Hgood tr0 i g cpu file).
      - apply elem_of_cons. by left.
      - by apply elem_of_map_to_list in Hin. }
    unfold leader_files in Hrun1. rewrite Hrun1.
    destruct (IH (perfStats ++ out1) tr1) as (tr' & out & Hrest & Hwarn & Hout).
    { intros tr0 i0 g0 cpu file Hin. apply (Hgood tr0 i0 g0 cpu file).
      apply elem_of_cons. by right. }
    exists tr', (out1 ++ out). rewrite app_assoc. split; [exact Hrest|]. split.
    + by rewrite Hwarn.
    + rewrite map_app, Hout1, Hout. done.
Qed.

End UpdateStatsComplete.

Lemma UpdateStats_complete_keys uu (O : Type) k uncore c (stats : ContainerStats O) tr :
  reads_complete k c →
  ∃ tr' perfStats,
    UpdateStats uu O k uncore c stats tr
    = (tr', Ret ({| PerfStats := perfStats; Other := Other (uncore tr stats).1 |}, None))
    ∧ map stat_key perfStats = collector_keys c
    ∧ read_warnings tr' = read_warnings tr.
Proof.
  intros Hgood. unfold UpdateStats, bind at 1, do_uncore_UpdateStats.
  set (r := uncore tr stats). unfold bind at 1.
  set (tr0 := tr ++ [Ev_uncore_UpdateStats r.2]).
  assert (∃ tr1, (match r.2 with
                  | Some err => log (Log_Errorf_uncore err)
                  | None => ret tt
                  end) tr0 = (tr1, Ret tt)
                 ∧ read_warnings tr1 = read_warnings tr) as (tr1 & -> & Htr1).
  { destruct r.2 as [err|]; unfold log, ret; eexists; (split; [done|]);
      subst tr0; rewrite !read_warnings_app; unfold read_warnings; simpl; lia. }
  unfold bind at 1. cbn [PerfStats Other].
  destruct (UpdateStats_groups_complete uu k c (map_to_list (cpuFiles c)) [] tr1)
    as (tr' & out & Hrun & Hwarn & Hout).
  { intros tr2 i g cpu file Hin. apply (Hgood tr2 i g cpu file).
    by apply elem_of_map_to_list in Hin. }
  rewrite Hrun. exists tr', out. split; [done|]. split.
  - done.
  - by rewrite Hwarn.
Qed.


(** X5: when every read of a leader file stores, without error, a record
    whose count is the number of names of its group, [UpdateStats]
    returns nil without a warning and reports exactly one statistic for
    each name of each group on each CPU the leader of the group is
    tracked on, and nothing of what the record held before. *)
Theorem UpdateStats_complete uu (O : Type) k uncore c (stats : ContainerStats O) tr :
  reads_complete k c →
  ∃ tr' perfStats,
    UpdateStats uu O k uncore c stats tr
    = (tr', Ret ({| PerfStats := perfStats; Other := Other (uncore tr stats).1 |}, None))
    ∧ map stat_key perfStats ≡ₚ collector_keys c
    ∧ read_warnings tr' = read_warnings tr.
Proof.
  intros Hgood.
  destruct (UpdateStats_complete_keys uu O k uncore c stats tr Hgood)
    as (tr' & perfStats & Hrun & Hkeys & Hwarn).
  exists tr', perfStats. by rewrite Hkeys.
Qed.

Lemma UpdateStats_complete_witness :
  ∃ tr' perfStats,
    UpdateStats (λ _, 0) unit scenario_world quiet_uncore three_event_collector
      {| PerfStats := []; Other := tt |} []
    = (tr', Ret ({| PerfStats := perfStats;
                    Other := Other (quiet_uncore []
                                      {| PerfStats := []; Other := tt |}).1 |}, None))
    ∧ map stat_key perfStats ≡ₚ collector_keys three_event_collector
    ∧ read_warnings tr' = read_warnings [].
Proof.
  apply (UpdateStats_complete (λ _, 0) unit scenario_world quiet_uncore
           three_event_collector {| PerfStats := []; Other := tt |} []).
  intros tr i g cpu file Hg Hfile.
  unfold three_event_collector in Hg. cbn [cpuFiles] in Hg.
  apply lookup_singleton_Some in Hg as [_ <-].
  split; [reflexivity|]. eexists. split; [vm_compute; reflexivity|].
  split; [reflexivity|]. vm_compute. discriminate.
Defined.
Lemma closed_app tr1 tr2 : closed (tr1 ++ tr2) = closed tr1 ++ closed tr2.
Proof. apply omap_app. Qed.

Lemma failed_closes_app tr1 tr2 :
  failed_closes (tr1 ++ tr2) = (failed_closes tr1 + failed_closes tr2)%nat.
Proof. unfold failed_closes. by rewrite List.filter_app, length_app. Qed.

Lemma close_warnings_app tr1 tr2 :
  close_warnings (tr1 ++ tr2) = (close_warnings tr1 + close_warnings tr2)%nat.
Proof. unfold close_warnings. by rewrite List.filter_app, length_app. Qed.

Section DestroyProperties.
Variable file_Close : list destroy_event → os_File → option error.

Lemma Destroy_files_run c name files tr :
  ∃ body,
    Destroy_files file_Close c name files tr = (tr ++ body, Ret tt)
    ∧ closed body = map snd files
    ∧ close_warnings body = failed_closes body
    ∧ Ev_uncore_Destroy ∉ body.
Proof.
  revert tr. induction files as [|[cpu file] rest IH]; intros tr.
  - exists []. rewrite app_nil_r. repeat apply conj; try done. apply not_elem_of_nil.
  - cbn [Destroy_files]. unfold bind at 1, do_Close. unfold bind at 1.
    destruct (file_Close tr file) as [err|] eqn:Herr.
    + unfold log_destroy.
      destruct (IH ((tr ++ [Ev_file_Close file (Some err)])
                      ++ [Log_Warningf_unable_to_close (cgroupPath c) name cpu]))
        as (body & -> & Hclosed & Hwarn & Hnot).
      exists (Ev_file_Close file (Some err)
              :: Log_Warningf_unable_to_close (cgroupPath c) name cpu :: body).
      split; [by rewrite <- !app_assoc|]. repeat apply conj.
      * simpl. by rewrite <- Hclosed.
      * unfold close_warnings, failed_closes in *. simpl. by rewrite Hwarn.
      * rewrite !not_elem_of_cons. done.
    + unfold ret at 1.
      destruct (IH (tr ++ [Ev_file_Close file None]))
        as (body & -> & Hclosed & Hwarn & Hnot).
      exists (Ev_file_Close file None :: body).
      split; [by rewrite <- !app_assoc|]. repeat apply conj.
      * simpl. by rewrite <- Hclosed.
      * unfold close_warnings, failed_closes in *. simpl. by rewrite Hwarn.
      * rewrite !not_elem_of_cons. done.
Qed.

Lemma Destroy_names_run c entries cpuFiles tr :
  ∃ body,
    Destroy_names file_Close c entries cpuFiles tr
    = (tr ++ body, Ret (foldl (λ m nf, delete nf.1 m) cpuFiles entries))
    ∧ closed body
      = flat_map (λ nf : string * gmap Z os_File, map snd (map_to_list nf.2)) entries
    ∧ close_warnings body = failed_closes body
    ∧ Ev_uncore_Destroy ∉ body.
Proof.
  revert cpuFiles tr. induction entries as [|[name files] rest IH]; intros cpuFiles tr.
  - exists []. rewrite app_nil_r. repeat apply conj; try done. apply not_elem_of_nil.
  - cbn [Destroy_names]. unfold bind at 1.
    destruct (Destroy_files_run c name (map_to_list files) tr)
      as (body1 & -> & Hclosed1 & Hwarn1 & Hnot1).
    destruct (IH (delete name cpuFiles) (tr ++ body1))
      as (body & -> & Hclosed & Hwarn & Hnot).
    exists (body1 ++ body). split; [by rewrite <- app_assoc|]. repeat apply conj.
    + rewrite closed_app, Hclosed1, Hclosed. done.
    + by rewrite close_warnings_app, failed_closes_app, Hwarn1, Hwarn.
    + rewrite not_elem_of_app. done.
Qed.

Lemma foldl_delete_lookup {A} (entries : list (string * A)) (m : gmap string A) name :
  foldl (λ m nf, delete nf.1 m) m entries !! name
  = if bool_decide (name ∈ entries.*1) then None else m !! name.
Proof.
  revert m. induction entries as [|[n a] rest IH]; intros m; [done|].
  cbn [foldl fst]. rewrite IH. rewrite fmap_cons. cbn [fst].
  destruct (decide (name = n)) as [->|Hne].
  - rewrite lookup_delete_eq. rewrite (bool_decide_eq_true_2 (n ∈ n :: rest.*1));
      [by case_bool_decide|apply elem_of_cons; by left].
  - rewrite lookup_delete_ne by done.
    destruct (decide (name ∈ rest.*1)) as [Hin|Hnin].
    + rewrite !bool_decide_eq_true_2; [done|apply elem_of_cons; by right|done].
    + rewrite !bool_decide_eq_false_2; [done| |done].
      intros [?|?]%elem_of_cons; done.
Qed.

Lemma foldl_delete_all {A} (m : gmap string A) :
  foldl (λ m nf, delete nf.1 m) m (map_to_list m) = ∅.
Proof.
  apply map_eq. intros name. rewrite foldl_delete_lookup, lookup_empty.
  case_bool_decide as Hin; [done|].
  apply not_elem_of_dom. intros Hdom. apply Hin.
  apply elem_of_dom in Hdom as [a Ha].
  apply list_elem_of_fmap. exists (name, a). split; [done|].
  by apply elem_of_map_to_list.
Qed.

Lemma Destroy_groups_run c groups cpuFiles tr :
  ∃ body,
    Destroy_groups file_Close c groups cpuFiles tr
    = (tr ++ body, Ret (foldl (λ m ig, <[ig.1 := emptied ig.2]> m) cpuFiles groups))
    ∧ closed body = flat_map (λ ig : Z * group, group_files ig.2) groups
    ∧ close_warnings body = failed_closes body
    ∧ Ev_uncore_Destroy ∉ body.
Proof.
  revert cpuFiles tr. induction groups as [|[i g] rest IH]; intros cpuFiles tr.
  - exists []. rewrite app_nil_r. repeat apply conj; try done. apply not_elem_of_nil.
  - cbn [Destroy_groups]. unfold bind at 1.
    destruct (Destroy_names_run c (map_to_list (group_cpuFiles g)) (group_cpuFiles g) tr)
      as (body1 & -> & Hclosed1 & Hwarn1 & Hnot1).
    rewrite foldl_delete_all.
    destruct (IH (<[i := Group_ ∅ (names g) (leaderName g)]> cpuFiles) (tr ++ body1))
      as (body & -> & Hclosed & Hwarn & Hnot).
    exists (body1 ++ body). split; [by rewrite <- app_assoc|]. repeat apply conj.
    + rewrite closed_app, Hclosed1, Hclosed. done.
    + by rewrite close_warnings_app, failed_closes_app, Hwarn1, Hwarn.
    + rewrite not_elem_of_app. done.
Qed.

Lemma foldl_insert_lookup {A} (f : A → A) (l : list (Z * A)) (m : gmap Z A) i :
  NoDup l.*1 →
  foldl (λ m ia, <[ia.1 := f ia.2]> m) m l !! i
  = match list_to_map (M := gmap Z A) l !! i with
    | Some a => Some (f a)
    | None => m !! i
    end.
Proof.
  revert m. induction l as [|[j a] rest IH]; intros m Hnd; [done|].
  rewrite fmap_cons in Hnd. apply NoDup_cons in Hnd as [Hj Hnd].
  cbn [foldl fst snd]. rewrite IH by done. cbn [list_to_map foldr].
  destruct (decide (i = j)) as [->|Hne].
  - rewrite lookup_insert_eq.
    rewrite (not_elem_of_list_to_map_1 (M := gmap Z) rest j Hj).
    by rewrite lookup_insert_eq.
  - rewrite !lookup_insert_ne by done. done.
Qed.

Lemma foldl_insert_all {A} (f : A → A) (m : gmap Z A) :
  foldl (λ m ia, <[ia.1 := f ia.2]> m) m (map_to_list m) = f <$> m.
Proof.
  apply map_eq. intros i.
  rewrite foldl_insert_lookup by apply NoDup_fst_map_to_list.
  rewrite list_to_map_to_list, lookup_fmap. by destruct (m !! i).
Qed.

Lemma Destroy_run c tr :
  ∃ body,
    Destroy file_Close c tr
    = (tr ++ Ev_uncore_Destroy :: body,
       Ret (Collector (cgroupPath c) (events c) (emptied <$> cpuFiles c)
              (onlineCPUs c) (eventToCustomEvent c)))
    ∧ closed body = tracked_files c
    ∧ close_warnings body = failed_closes body
    ∧ Ev_uncore_Destroy ∉ body.
Proof.
  unfold Destroy, bind at 1, log_destroy. unfold bind at 1.
  destruct (Destroy_groups_run c (map_to_list (cpuFiles c)) (cpuFiles c)
              (tr ++ [Ev_uncore_Destroy])) as (body & -> & Hclosed & Hwarn & Hnot).
  rewrite foldl_insert_all. exists body. by rewrite <- app_assoc.
Qed.

Lemma closed_nil_failed_closes body : closed body = [] → failed_closes body = 0%nat.
Proof.
  induction body as [|[|file [err|]|cgroupPath name cpu] rest IH]; try done.
Qed.

Lemma Destroy_body_nil body :
  closed body = [] →
  close_warnings body = failed_closes body →
  Ev_uncore_Destroy ∉ body →
  body = [].
Proof.
  intros Hclosed Hwarn Hnot. rewrite (closed_nil_failed_closes body Hclosed) in Hwarn.
  destruct body as [|[|file err|cgroupPath name cpu] rest]; try done.
  exfalso. apply Hnot. apply elem_of_cons. by left.
Qed.

Lemma tracked_files_emptied c cgroupPath events onlineCPUs eventToCustomEvent :
  tracked_files (Collector cgroupPath events (emptied <$> cpuFiles c) onlineCPUs
                   eventToCustomEvent) = [].
Proof.
  unfold tracked_files. cbn [cpuFiles].
  assert (∀ groups : list (Z * group),
            Forall (λ ig, group_cpuFiles ig.2 = ∅) groups →
            flat_map (λ ig : Z * group, group_files ig.2) groups = []) as Hnil.
  { induction 1 as [|[i g] rest Hg _ IH]; [done|].
    cbn [flat_map snd]. rewrite IH. unfold group_files. simpl in Hg. rewrite Hg.
    by rewrite map_to_list_empty. }
  apply Hnil. apply Forall_forall. intros [i g] Hin.
  apply elem_of_map_to_list in Hin. rewrite lookup_fmap in Hin.
  destruct (cpuFiles c !! i); [|done]. by injection Hin as <-.
Qed.

End DestroyProperties.
(** X6: [Destroy] first destroys the uncore collector and then closes
    every file the collector tracks, each once, whatever the closes
    answer: a close that fails is logged as one warning and the
    remaining files are still closed. *)
Theorem Destroy_closes_every_file file_Close c tr :
  ∃ body c',
    Destroy file_Close c tr = (tr ++ Ev_uncore_Destroy :: body, Ret c')
    ∧ closed body ≡ₚ tracked_files c
    ∧ close_warnings body = failed_closes body.
Proof.
  destruct (Destroy_run file_Close c tr) as (body & Hrun & Hclosed & Hwarn & _).
  exists body. eexists. split; [exact Hrun|]. by rewrite Hclosed.
Qed.

(** X7: [Destroy] leaves every group in place with its names and its
    leader name, tracking no file; the other fields of the collector are
    kept. *)
Theorem Destroy_empties_groups file_Close c tr :
  ∃ c',
    (Destroy file_Close c tr).2 = Ret c'
    ∧ cpuFiles c' = emptied <$> cpuFiles c
    ∧ (∀ fd, ¬ tracked (cpuFiles c') fd)
    ∧ cgroupPath c' = cgroupPath c
    ∧ events c' = events c
    ∧ onlineCPUs c' = onlineCPUs c
    ∧ eventToCustomEvent c' = eventToCustomEvent c.
Proof.
  destruct (Destroy_run file_Close c tr) as (body & Hrun & _).
  eexists. rewrite Hrun. split; [done|]. repeat apply conj; try done.
  intros fd (i & name & cpu & g & files & file & Hg & Hfiles & _).
  cbn [cpuFiles] in Hg. rewrite lookup_fmap in Hg.
  destruct (cpuFiles c !! i) as [g0|]; [|done].
  injection Hg as <-. cbn [emptied group_cpuFiles] in Hfiles.
  by rewrite lookup_empty in Hfiles.
Qed.

(** X8: destroying a destroyed collector closes nothing: the second
    [Destroy] only destroys the uncore collector again and leaves the
    collector as it was. *)
Theorem Destroy_twice file_Close file_Close' c tr tr' :
  ∃ c',
    (Destroy file_Close c tr).2 = Ret c'
    ∧ Destroy file_Close' c' tr' = (tr' ++ [Ev_uncore_Destroy], Ret c').
Proof.
  destruct (Destroy_run file_Close c tr) as (body & Hrun & _).
  eexists. rewrite Hrun. split; [done|].
  match goal with
  | |- Destroy _ ?c1 _ = _ =>
      destruct (Destroy_run file_Close' c1 tr')
        as (body' & Hrun' & Hclosed' & Hwarn' & Hnot')
  end.
  rewrite Hrun'. rewrite tracked_files_emptied in Hclosed'.
  rewrite (Destroy_body_nil body' Hclosed' Hwarn' Hnot').
  cbn [cgroupPath events cpuFiles onlineCPUs eventToCustomEvent].
  by rewrite <- map_fmap_compose.
Qed.
Lemma UpdateStats_groups_emptied uu k c groups perfStats tr :
  Forall (λ ig : Z * group, group_cpuFiles ig.2 = ∅) groups →
  UpdateStats_groups uu k c groups perfStats tr = (tr, Ret perfStats).
Proof.
  induction 1 as [|[i g] rest Hg _ IH]; [done|].
  cbn [UpdateStats_groups]. unfold bind at 1. simpl in Hg. rewrite Hg.
  rewrite lookup_empty. cbn [default]. rewrite map_to_list_empty.
  cbn [UpdateStats_files]. unfold ret at 1. exact IH.
Qed.

(** X9: after [Destroy], [UpdateStats] reads no file: it asks the uncore
    collector, logs its error if it gave one, and reports no statistic
    and nil. *)
Theorem UpdateStats_after_Destroy file_Close uu (O : Type) k uncore c
    (stats : ContainerStats O) trd tr :
  ∃ c',
    (Destroy file_Close c trd).2 = Ret c'
    ∧ UpdateStats uu O k uncore c' stats tr
      = (tr ++ Ev_uncore_UpdateStats (uncore tr stats).2
            :: match (uncore tr stats).2 with
               | Some err => [Log_Errorf_uncore err]
               | None => []
               end,
         Ret ({| PerfStats := []; Other := Other (uncore tr stats).1 |}, None)).
Proof.
  destruct (Destroy_run file_Close c trd) as (body & Hrun & _).
  eexists. rewrite Hrun. split; [done|].
  unfold UpdateStats, bind at 1, do_uncore_UpdateStats.
  set (r := uncore tr stats). unfold bind at 1.
  assert (∀ tr1 : list event,
            UpdateStats_groups uu k
              (Collector (cgroupPath c) (events c) (emptied <$> cpuFiles c)
                 (onlineCPUs c) (eventToCustomEvent c))
              (map_to_list (emptied <$> cpuFiles c)) [] tr1 = (tr1, Ret [])) as Hgroups.
  { intros tr1. apply UpdateStats_groups_emptied.
    apply Forall_forall. intros [i g] Hin.
    apply elem_of_map_to_list in Hin. rewrite lookup_fmap in Hin.
    destruct (cpuFiles c !! i); [|done]. by injection Hin as <-. }
  destruct r.2 as [err|]; unfold log, ret at 1; unfold bind at 1;
    cbn [PerfStats Other cpuFiles]; rewrite Hgroups; unfold ret;
    by rewrite <- ?app_assoc.
Qed.
Lemma addEventFile_with_file i name cpu perfFile cpuFiles :
  addEventFile i name cpu perfFile cpuFiles
  = <[i := with_file (default (Group_ ∅ [] name) (cpuFiles !! i)) name cpu perfFile]>
      cpuFiles.
Proof.
  unfold addEventFile, with_file.
  assert (default (Group_ ∅ [] name)
            (match cpuFiles !! i with
             | Some _ => cpuFiles
             | None => <[i := Group_ ∅ [] name]> cpuFiles
             end !! i) = default (Group_ ∅ [] name) (cpuFiles !! i)) as ->.
  { destruct (cpuFiles !! i) eqn:Hi; [by rewrite Hi|]. by rewrite lookup_insert_eq. }
  cbn [names group_cpuFiles leaderName].
  case_bool_decide; destruct (cpuFiles !! i); by rewrite ?insert_insert_eq.
Qed.

Lemma shaped_ext g evs cpus_of cpus_of' :
  (∀ name, cpus_of name = cpus_of' name) →
  shaped g evs cpus_of → shaped g evs cpus_of'.
Proof.
  intros Hext (Hnames & Hhead & Hdom & Hfiles). repeat apply conj; try done.
  intros name files Hlookup. rewrite <- Hext. by apply Hfiles.
Qed.

Lemma wf_files_insert name cpus files cpu perfFile :
  wf_files name cpus files →
  file_name perfFile = name → 0 ≤ file_fd perfFile →
  wf_files name ({[cpu]} ∪ cpus) (<[cpu := perfFile]> files).
Proof.
  intros [Hdom Hfiles] Hname Hfd. split.
  - by rewrite dom_insert_L, Hdom.
  - intros cpu' file. destruct (decide (cpu' = cpu)) as [->|Hne].
    + rewrite lookup_insert_eq. by intros [= <-].
    + rewrite lookup_insert_ne by done. apply Hfiles.
Qed.

Lemma wf_files_empty name : wf_files name ∅ ∅.
Proof. split; [apply dom_empty_L|]. intros cpu file. by rewrite lookup_empty. Qed.

(** The first file of the first event of a group. *)
Lemma with_file_first cpus_of name cpu perfFile :
  file_name perfFile = name → 0 ≤ file_fd perfFile →
  shaped (with_file (Group_ ∅ [] name) name cpu perfFile) [name]
    (λ n, if decide (n = name) then {[cpu]} ∪ ∅ else cpus_of n).
Proof.
  intros Hname Hfd. unfold with_file. cbn [names group_cpuFiles leaderName].
  rewrite bool_decide_eq_false_2 by apply not_elem_of_nil.
  repeat apply conj; try done.
  - cbn [group_cpuFiles]. rewrite dom_insert_L, dom_empty_L.
    apply set_eq. intros x.
    rewrite elem_of_union, elem_of_empty, elem_of_singleton, elem_of_list_to_set,
      list_elem_of_singleton. tauto.
  - cbn [group_cpuFiles]. intros n files. rewrite lookup_empty. cbn [default].
    destruct (decide (n = name)) as [->|Hne].
    + rewrite lookup_insert_eq. intros [= <-].
      apply wf_files_insert; [apply wf_files_empty|done..].
    + rewrite lookup_insert_ne by done. by rewrite lookup_empty.
Qed.

(** The first file of a further event. *)
Lemma with_file_new g evs cpus_of name cpu perfFile :
  shaped g evs cpus_of → name ∉ evs →
  file_name perfFile = name → 0 ≤ file_fd perfFile →
  shaped (with_file g name cpu perfFile) (evs ++ [name])
    (λ n, if decide (n = name) then {[cpu]} ∪ ∅ else cpus_of n).
Proof.
  intros (Hnames & Hhead & Hdom & Hfiles) Hnew Hname Hfd. unfold with_file.
  rewrite bool_decide_eq_false_2 by by rewrite Hnames.
  assert (group_cpuFiles g !! name = None) as Hnone.
  { apply not_elem_of_dom. rewrite Hdom. by rewrite elem_of_list_to_set. }
  rewrite Hnone. cbn [default].
  repeat apply conj; cbn [names group_cpuFiles leaderName].
  - by rewrite Hnames.
  - destruct evs; [done|]. done.
  - rewrite dom_insert_L, Hdom. apply set_eq. intros x.
    rewrite elem_of_union, elem_of_singleton, !elem_of_list_to_set, elem_of_app,
      list_elem_of_singleton. tauto.
  - intros n files. destruct (decide (n = name)) as [->|Hne].
    + rewrite lookup_insert_eq. intros [= <-].
      apply wf_files_insert; [apply wf_files_empty|done..].
    + rewrite lookup_insert_ne by done. apply Hfiles.
Qed.

(** A further file of an event that has one. *)
Lemma with_file_more g evs cpus_of name cpu perfFile :
  shaped g evs cpus_of → name ∈ evs →
  file_name perfFile = name → 0 ≤ file_fd perfFile →
  shaped (with_file g name cpu perfFile) evs
    (λ n, if decide (n = name) then {[cpu]} ∪ cpus_of n else cpus_of n).
Proof.
  intros (Hnames & Hhead & Hdom & Hfiles) Hin Hname Hfd. unfold with_file.
  rewrite bool_decide_eq_true_2 by by rewrite Hnames.
  assert (is_Some (group_cpuFiles g !! name)) as [files0 Hfiles0].
  { apply elem_of_dom. rewrite Hdom. by rewrite elem_of_list_to_set. }
  rewrite Hfiles0. cbn [default].
  repeat apply conj; cbn [names group_cpuFiles leaderName]; try done.
  - rewrite dom_insert_L, Hdom. apply set_eq. intros x.
    rewrite elem_of_union, elem_of_singleton, !elem_of_list_to_set.
    split; [intros [->|?]; done|tauto].
  - intros n files. destruct (decide (n = name)) as [->|Hne].
    + rewrite lookup_insert_eq. intros [= <-].
      apply wf_files_insert; [by apply Hfiles|done..].
    + rewrite lookup_insert_ne by done. apply Hfiles.
Qed.
Section Registering.
Variables perfSampleIdentifier perfAttrBitsInherit perfAttrBitsExcludeGuest : Z.
Variable sizeof_PerfEventAttr : Z.
Variable k : world.

Lemma registerEvent_cpus_more event pid flags isGroupLeader leaderFileDescriptors evs :
  eventInfo_name event ∈ evs →
  ∀ cpus newLeaderFileDescriptors cpuFiles tr s' r g cpus_of,
    registerEvent_cpus k event pid flags isGroupLeader leaderFileDescriptors cpus
      newLeaderFileDescriptors (cpuFiles, tr) = (s', Ret (inl r)) →
    cpuFiles !! eventInfo_groupIndex event = Some g →
    shaped g evs cpus_of →
    (∃ g', s'.1 !! eventInfo_groupIndex event = Some g'
           ∧ shaped g' evs
               (λ n, if decide (n = eventInfo_name event)
                     then list_to_set cpus ∪ cpus_of n else cpus_of n))
    ∧ ∀ i', i' ≠ eventInfo_groupIndex event → s'.1 !! i' = cpuFiles !! i'.
Proof.
  intros Hin. induction cpus as [|cpu rest IH];
    intros newL cpuFiles tr s' r g cpus_of; cbn [registerEvent_cpus].
  - unfold ret. intros [= <- _] Hg Hshaped. split; [|done].
    exists g. split; [done|]. eapply shaped_ext; [|exact Hshaped].
    intros n. cbn. destruct (decide _); [|done].
    apply set_eq. intros x. rewrite elem_of_union, elem_of_empty. tauto.
  - unfold bind at 1, do_PerfEventOpen at 1.
    destruct (unix_PerfEventOpen k tr _ _ _ _ _) as [fd|err]; [|done].
    unfold os_NewFile. destruct (fd <? 0) eqn:Hfd; [done|].
    apply Z.ltb_ge in Hfd.
    unfold bind at 1, do_addEventFile at 1. rewrite addEventFile_with_file.
    intros Hrun Hg Hshaped. rewrite Hg in Hrun. cbn [default] in Hrun.
    eapply (IH _ _ _ _ _ _
              (λ n, if decide (n = eventInfo_name event)
                    then {[cpu]} ∪ cpus_of n else cpus_of n))
      in Hrun as [(g' & Hg' & Hshaped') Hframe].
    + split.
      * exists g'. split; [done|]. eapply shaped_ext; [|exact Hshaped'].
        intros n. cbn beta. destruct (decide _); [|done].
        apply set_eq. intros x.
        rewrite !elem_of_union, !elem_of_list_to_set, elem_of_cons, elem_of_singleton.
        tauto.
      * intros i' Hi'. rewrite Hframe by done. by rewrite lookup_insert_ne.
    + apply lookup_insert_eq.
    + by apply with_file_more.
Qed.

Lemma registerEvent_cpus_registers event pid flags isGroupLeader leaderFileDescriptors
    evs cpus0 cpus newLeaderFileDescriptors cpuFiles tr s' r :
  cpus ≠ [] →
  eventInfo_name event ∉ evs →
  registered_at cpuFiles (eventInfo_groupIndex event) evs cpus0 →
  registerEvent_cpus k event pid flags isGroupLeader leaderFileDescriptors cpus
    newLeaderFileDescriptors (cpuFiles, tr) = (s', Ret (inl r)) →
  (∃ g', s'.1 !! eventInfo_groupIndex event = Some g'
         ∧ shaped g' (evs ++ [eventInfo_name event])
             (λ n, if decide (n = eventInfo_name event)
                   then list_to_set cpus else list_to_set cpus0))
  ∧ ∀ i', i' ≠ eventInfo_groupIndex event → s'.1 !! i' = cpuFiles !! i'.
Proof.
  intros Hcpus Hnew Hat. destruct cpus as [|cpu rest]; [done|].
  cbn [registerEvent_cpus]. unfold bind at 1, do_PerfEventOpen at 1.
  destruct (unix_PerfEventOpen k tr _ _ _ _ _) as [fd|err]; [|done].
  unfold os_NewFile. destruct (fd <? 0) eqn:Hfd; [done|].
  apply Z.ltb_ge in Hfd.
  unfold bind at 1, do_addEventFile at 1. rewrite addEventFile_with_file.
  intros Hrun.
  assert (eventInfo_name event ∈ evs ++ [eventInfo_name event]) as Hin.
  { apply elem_of_app. right. by apply list_elem_of_singleton. }
  eapply (registerEvent_cpus_more _ _ _ _ _ (evs ++ [eventInfo_name event]) Hin
            _ _ _ _ _ _ _
            (λ n, if decide (n = eventInfo_name event)
                  then {[cpu]} ∪ ∅ else list_to_set cpus0))
    in Hrun as [(g' & Hg' & Hshaped') Hframe].
  - split.
    + exists g'. split; [done|]. eapply shaped_ext; [|exact Hshaped'].
      intros n. cbn beta. destruct (decide _); [|done].
      apply set_eq. intros x.
      rewrite !elem_of_union, !elem_of_list_to_set, elem_of_cons, elem_of_singleton,
        elem_of_empty.
      tauto.
    + intros i' Hi'. rewrite Hframe by done. by rewrite lookup_insert_ne.
  - apply lookup_insert_eq.
  - unfold registered_at in Hat.
    destruct (cpuFiles !! eventInfo_groupIndex event) as [g|]; cbn [default].
    + by apply with_file_new.
    + subst evs. by apply with_file_first.
Qed.

Lemma registerEvent_registers c event leaderFileDescriptors evs cpuFiles tr s' r :
  onlineCPUs c ≠ [] →
  eventInfo_name event ∉ evs →
  registered_at cpuFiles (eventInfo_groupIndex event) evs (onlineCPUs c) →
  registerEvent k c event leaderFileDescriptors (cpuFiles, tr) = (s', Ret (inl r)) →
  registered_at s'.1 (eventInfo_groupIndex event) (evs ++ [eventInfo_name event])
    (onlineCPUs c)
  ∧ ∀ i', i' ≠ eventInfo_groupIndex event → s'.1 !! i' = cpuFiles !! i'.
Proof.
  intros Hcpus Hnew Hat. unfold registerEvent. case_bool_decide; [|done].
  unfold bind.
  destruct (registerEvent_cpus _ _ _ _ _ _ _ _ _) as [s1 [[newL|err]|p]] eqn:Hrun.
  - intros Hret. assert (s' = s1) as ->.
    { destruct (bool_decide _); unfold ret in Hret; by injection Hret as <- _. }
    eapply registerEvent_cpus_registers in Hrun as [(g' & Hg' & Hshaped) Hframe];
      try done.
    split; [|done]. unfold registered_at. rewrite Hg'.
    eapply shaped_ext; [|exact Hshaped]. intros n. cbn beta. by destruct (decide _).
  - unfold ret. by intros [= _ ?].
  - done.
Qed.

Lemma setup_event_registers c cgroupFd i j event leaderFileDescriptors evs s s' r :
  custom_names_coherent c →
  onlineCPUs c ≠ [] →
  event ∉ evs →
  registered_at s.1 i evs (onlineCPUs c) →
  setup_event perfSampleIdentifier perfAttrBitsInherit perfAttrBitsExcludeGuest
    sizeof_PerfEventAttr k c cgroupFd i j event leaderFileDescriptors s
  = (s', Ret (inl r)) →
  registered_at s'.1 i (evs ++ [event]) (onlineCPUs c)
  ∧ ∀ i', i' ≠ i → s'.1 !! i' = s.1 !! i'.
Proof.
  intros Hcoh Hcpus Hnew Hat. unfold setup_event. destruct s as [cpuFiles tr].
  destruct (eventToCustomEvent c !! event) as [customEvent|] eqn:Hcustom.
  - apply Hcoh in Hcustom. unfold bind, lift_outcome.
    destruct (createConfigFromRawEvent _ _ _ _ _ _) as [config|p]; [|done].
    intros Hrun. apply (registerEvent_registers _ _ _ evs) in Hrun; try done.
    + cbn [eventInfo_name eventInfo_groupIndex] in Hrun. by rewrite Hcustom in Hrun.
    + cbn [eventInfo_name]. by rewrite Hcustom.
  - unfold bind at 1, createConfigFromEvent, bind, readPerfEventAttr.
    destruct (pfm_get_os_event_encoding k tr event) as [config|pErr]; simpl; [|done].
    intros Hrun. by apply (registerEvent_registers _ _ _ evs) in Hrun.
Qed.

Lemma setup_events_registers c cgroupFd i :
  custom_names_coherent c →
  onlineCPUs c ≠ [] →
  ∀ rest j leaderFileDescriptors evs s s' r,
    NoDup (evs ++ rest) →
    registered_at s.1 i evs (onlineCPUs c) →
    setup_events perfSampleIdentifier perfAttrBitsInherit perfAttrBitsExcludeGuest
      sizeof_PerfEventAttr k c cgroupFd i j rest leaderFileDescriptors s
    = (s', Ret (inl r)) →
    registered_at s'.1 i (evs ++ rest) (onlineCPUs c)
    ∧ ∀ i', i' ≠ i → s'.1 !! i' = s.1 !! i'.
Proof.
  intros Hcoh Hcpus. induction rest as [|event rest IH];
    intros j leaderFileDescriptors evs s s' r Hnodup Hat; cbn [setup_events].
  - unfold ret. intros [= <- _]. by rewrite app_nil_r.
  - unfold bind at 1.
    destruct (setup_event _ _ _ _ _ _ _ _ _ _ _ _) as [s1 [[lfd|err]|p]] eqn:Hstep;
      [|unfold ret; by intros [= _ ?]|done].
    apply (setup_event_registers _ _ _ _ _ _ evs) in Hstep as [Hat1 Hframe1]; try done.
    + intros Hrun. apply (IH _ _ (evs ++ [event])) in Hrun as [Hat' Hframe'].
      * rewrite <- app_assoc in Hat'. split; [done|].
        intros i' Hi'. rewrite Hframe' by done. by apply Hframe1.
      * by rewrite <- app_assoc.
      * done.
    + apply NoDup_app in Hnodup as (_ & Hdisjoint & _).
      intros Hin. apply (Hdisjoint event Hin). apply elem_of_cons. by left.
Qed.

Lemma setup_enable_cpuFiles :
  ∀ fds s s' o, setup_enable k fds s = (s', o) → s'.1 = s.1.
Proof.
  induction fds as [|fd rest IH]; intros [cpuFiles tr] s' o; cbn [setup_enable].
  - unfold ret. by intros [= <- _].
  - unfold bind at 1, do_IoctlSetInt at 1.
    destruct (unix_IoctlSetInt k tr fd PERF_EVENT_IOC_RESET 0).
    + unfold ret. by intros [= <- _].
    + unfold bind at 1, do_IoctlSetInt at 1.
      destruct (unix_IoctlSetInt k _ fd PERF_EVENT_IOC_ENABLE 0).
      * unfold ret. by intros [= <- _].
      * intros Hrun. by apply IH in Hrun.
Qed.

Lemma setup_group_registers c cgroupFd i g s s' :
  custom_names_coherent c →
  onlineCPUs c ≠ [] →
  NoDup (Group_events g) →
  s.1 !! i = None →
  setup_group perfSampleIdentifier perfAttrBitsInherit perfAttrBitsExcludeGuest
    sizeof_PerfEventAttr k c cgroupFd i g s = (s', Ret None) →
  registered_at s'.1 i (Group_events g) (onlineCPUs c)
  ∧ ∀ i', i' ≠ i → s'.1 !! i' = s.1 !! i'.
Proof.
  intros Hcoh Hcpus Hnodup Hnone. unfold setup_group, bind at 1.
  destruct (setup_events _ _ _ _ _ _ _ _ _ _ _ _) as [s1 [[lfd|err]|p]] eqn:Hevents;
    [|unfold ret; by intros [= _ ?]|done].
  apply (setup_events_registers _ _ _ Hcoh Hcpus _ _ _ []) in Hevents
    as [Hat Hframe]; [|done|by unfold registered_at; rewrite Hnone].
  intros Henable. apply setup_enable_cpuFiles in Henable. by rewrite Henable.
Qed.

Lemma setup_groups_registers c cgroupFd :
  custom_names_coherent c →
  onlineCPUs c ≠ [] →
  ∀ groups i s s',
    Forall (λ g, NoDup (Group_events g)) groups →
    (∀ j, i ≤ j → s.1 !! j = None) →
    setup_groups perfSampleIdentifier perfAttrBitsInherit perfAttrBitsExcludeGuest
      sizeof_PerfEventAttr k c cgroupFd i groups s = (s', Ret None) →
    (∀ (n : nat) g, groups !! n = Some g →
       registered_at s'.1 (i + Z.of_nat n) (Group_events g) (onlineCPUs c))
    ∧ (∀ j, j < i → s'.1 !! j = s.1 !! j)
    ∧ (∀ j, i + Z.of_nat (length groups) ≤ j → s'.1 !! j = None).
Proof.
  intros Hcoh Hcpus. induction groups as [|g rest IH]; intros i s s' Hgroups Hfree;
    cbn [setup_groups].
  - unfold ret. intros [= <- ]. repeat apply conj; try done.
    intros j Hj. apply Hfree. simpl in Hj. lia.
  - apply Forall_cons in Hgroups as [Hg Hrest]. unfold bind at 1.
    destruct (setup_group _ _ _ _ _ _ _ _ _ _) as [s1 [[err|]|p]] eqn:Hgroup;
      [unfold ret; by intros [= _ ?]| |done].
    apply setup_group_registers in Hgroup as [Hat Hframe]; try done;
      [|apply Hfree; lia].
    intros Hrun. apply IH in Hrun as (Hall & Hbelow & Habove); [|done|].
    + repeat apply conj.
      * intros [|n] g' Hlookup.
        -- injection Hlookup as <-. replace (i + Z.of_nat 0) with i by lia.
           unfold registered_at in *. rewrite Hbelow by lia. done.
        -- replace (i + Z.of_nat (S n)) with (i + 1 + Z.of_nat n) by lia.
           by apply Hall.
      * intros j Hj. rewrite Hbelow by lia. apply Hframe. lia.
      * intros j Hj. apply Habove. simpl in Hj. lia.
    + intros j Hj. rewrite Hframe by lia. apply Hfree. lia.
Qed.

End Registering.

(** X15: what a successful [setup] of a new collector with an online CPU
    leaves tracked, when no group names an event twice.  Under the index
    of each group that has events there is a group whose names are the
    events of the configuration in their order, whose leader is the
    first of them, and which holds for each event one valid file on each
    online CPU, carrying the name of the event; a group without events
    and an index outside the configuration have no entry. *)
Theorem setup_registers_groups
    perfSampleIdentifier perfAttrBitsInherit perfAttrBitsExcludeGuest
    sizeof_PerfEventAttr k cgroupPath events onlineCPUs cpuToSocket tr0 c' tr' :
  Forall (λ g, NoDup (Group_events g)) (Events_Events (Core events)) →
  onlineCPUs ≠ [] →
  setup perfSampleIdentifier perfAttrBitsInherit perfAttrBitsExcludeGuest
    sizeof_PerfEventAttr k (newCollector cgroupPath events onlineCPUs cpuToSocket) tr0
  = ((c', tr'), Ret None) →
  (∀ (n : nat) g,
     Events_Events (Core events) !! n = Some g →
     registered_at (cpuFiles c') (Z.of_nat n) (Group_events g) onlineCPUs)
  ∧ ∀ j, j < 0 ∨ Z.of_nat (length (Events_Events (Core events))) ≤ j →
         cpuFiles c' !! j = None.
Proof.
  intros Hgroups Hcpus. unfold setup. simpl.
  destruct (os_Open k tr0 cgroupPath) as [cgroupFd|err]; [|done].
  destruct (setup_groups _ _ _ _ _ _ _ _ _ _) as [[cpuFiles' tr1] o] eqn:Hrun.
  intros [= <- _ ->]. simpl.
  apply setup_groups_registers in Hrun as (Hall & Hbelow & Habove); try done.
  - split.
    + intros n g Hg. apply Hall in Hg.
      by replace (0 + Z.of_nat n) with (Z.of_nat n) in Hg by lia.
    + intros j [Hj|Hj].
      * cbn [fst] in Hbelow. rewrite Hbelow by done. apply lookup_empty.
      * apply Habove. lia.
  - apply newCollector_coherent.
Qed.

Lemma setup_registers_groups_witness :
  (∀ (n : nat) g,
     Events_Events (Core scenario_events) !! n = Some g →
     registered_at (cpuFiles (sample_setup scenario_world scenario_collector []).1.1)
       (Z.of_nat n) (Group_events g) [0; 1])
  ∧ ∀ j, j < 0 ∨ Z.of_nat (length (Events_Events (Core scenario_events))) ≤ j →
         cpuFiles (sample_setup scenario_world scenario_collector []).1.1 !! j = None.
Proof.
  apply (setup_registers_groups (2 ^ 16) (2 ^ 1) (2 ^ 20) 128 scenario_world
           "/sys/fs/cgroup/perf_event/docker/c1" scenario_events [0; 1] ∅ []
           (sample_setup scenario_world scenario_collector []).1.1
           (sample_setup scenario_world scenario_collector []).1.2).
  - repeat constructor; intros H;
      repeat (apply elem_of_cons in H as [H|H]; [discriminate|]);
      by apply elem_of_nil in H.
  - discriminate.
  - vm_compute. reflexivity.
Defined.
Lemma registerEvent_duplicate_cpus k c event leaderFileDescriptors s :
  ¬ NoDup (onlineCPUs c) →
  dom leaderFileDescriptors = list_to_set (onlineCPUs c) →
  registerEvent k c event leaderFileDescriptors s
  = (s, Ret (inr Errorf_cannot_decide_leader)).
Proof.
  intros Hdup Hdom. unfold registerEvent.
  rewrite bool_decide_eq_false_2; [done|].
  intros Hsize. apply Hdup, size_list_to_set_NoDup. by rewrite <- Hdom, size_dom.
Qed.

Lemma setup_event_duplicate_cpus
    perfSampleIdentifier perfAttrBitsInherit perfAttrBitsExcludeGuest
    sizeof_PerfEventAttr k c cgroupFd i j event leaderFileDescriptors cpuFiles tr :
  ¬ NoDup (onlineCPUs c) →
  dom leaderFileDescriptors = list_to_set (onlineCPUs c) →
  eventToCustomEvent c !! event = None →
  setup_event perfSampleIdentifier perfAttrBitsInherit perfAttrBitsExcludeGuest
    sizeof_PerfEventAttr k c cgroupFd i j event leaderFileDescriptors (cpuFiles, tr)
  = ((cpuFiles,
      tr ++ [Ev_pfm_get_os_event_encoding event (pfm_get_os_event_encoding k tr event)]),
     Ret (inr match pfm_get_os_event_encoding k tr event with
              | inl _ => Errorf_cannot_decide_leader
              | inr pErr => Errorf_unable_to_transform event pErr
              end)).
Proof.
  intros Hdup Hdom Hcustom. unfold setup_event. rewrite Hcustom.
  unfold bind at 1, createConfigFromEvent, bind, readPerfEventAttr.
  destruct (pfm_get_os_event_encoding k tr event) as [config|pErr]; simpl; [|done].
  by rewrite registerEvent_duplicate_cpus.
Qed.

(** X16: a list of online CPUs that names a CPU twice makes [setup] fail
    at the first event of the first group, before any counter is
    opened: the map of leader descriptors then has fewer entries than
    the list, and [registerEvent] cannot decide on the leader.  Nothing
    is tracked; the error is that one, unless the cgroup directory did
    not open or libpfm did not know the event. *)
Theorem setup_duplicate_cpus
    perfSampleIdentifier perfAttrBitsInherit perfAttrBitsExcludeGuest
    sizeof_PerfEventAttr k c tr g gs event rest :
  ¬ NoDup (onlineCPUs c) →
  Events_Events (Core (events c)) = g :: gs →
  Group_events g = event :: rest →
  eventToCustomEvent c !! event = None →
  let r := setup perfSampleIdentifier perfAttrBitsInherit perfAttrBitsExcludeGuest
             sizeof_PerfEventAttr k c tr in
  perf_event_open_calls r.1.2 = perf_event_open_calls tr
  ∧ cpuFiles r.1.1 = cpuFiles c
  ∧ ∃ err,
      r.2 = Ret (Some err)
      ∧ (err = Errorf_cannot_decide_leader
         ∨ (∃ e, os_Open k tr (cgroupPath c) = inr e
                 ∧ err = Errorf_unable_to_open_cgroup (cgroupPath c) e)
         ∨ (∃ pErr, err = Errorf_unable_to_transform event pErr)).
Proof.
  intros Hdup Hgroups Hevents Hcustom r. subst r. unfold setup.
  assert (∀ tr1 ev, (∀ a p cpu gfd fl res, ev ≠ Ev_PerfEventOpen a p cpu gfd fl res) →
            perf_event_open_calls (tr1 ++ [ev]) = perf_event_open_calls tr1) as Hskip.
  { intros tr1 ev Hev. unfold perf_event_open_calls. rewrite omap_app. simpl.
    destruct ev; try by rewrite app_nil_r. by edestruct Hev. }
  destruct (os_Open k tr (cgroupPath c)) as [cgroupFd|e] eqn:Hopen.
  - rewrite Hgroups. cbn [setup_groups]. unfold setup_group.
    rewrite Hevents. cbn [setup_events]. unfold bind. cbn beta.
    rewrite setup_event_duplicate_cpus; try done.
    + unfold ret. cbn [fst snd cpuFiles]. rewrite !Hskip by done.
      repeat apply conj; try done. eexists. split; [done|].
      destruct (pfm_get_os_event_encoding k _ event); eauto.
    + rewrite dom_initial_leaderFileDescriptors, dom_empty_L.
      apply set_eq. intros x. rewrite elem_of_union, elem_of_empty. tauto.
  - cbn [fst snd cpuFiles]. rewrite Hskip by done. repeat apply conj; try done.
    eexists. split; [done|]. right. left. by exists e.
Qed.

Lemma setup_duplicate_cpus_witness :
  let r := setup (2 ^ 16) (2 ^ 1) (2 ^ 20) 128 scenario_world duplicate_cpu_collector [] in
  perf_event_open_calls r.1.2 = perf_event_open_calls []
  ∧ cpuFiles r.1.1 = cpuFiles duplicate_cpu_collector
  ∧ ∃ err,
      r.2 = Ret (Some err)
      ∧ (err = Errorf_cannot_decide_leader
         ∨ (∃ e, os_Open scenario_world [] (cgroupPath duplicate_cpu_collector) = inr e
                 ∧ err = Errorf_unable_to_open_cgroup
                           (cgroupPath duplicate_cpu_collector) e)
         ∨ (∃ pErr, err = Errorf_unable_to_transform "instructions" pErr)).
Proof.
  apply (setup_duplicate_cpus (2 ^ 16) (2 ^ 1) (2 ^ 20) 128 scenario_world
           duplicate_cpu_collector []
           {| Group_events := ["instructions"; "cycles"]%string; Group_array := false |}
           [] "instructions" ["cycles"]%string).
  - intros Hnodup. apply NoDup_cons in Hnodup as [Hin _]. apply Hin.
    apply elem_of_cons. by left.
  - reflexivity.
  - reflexivity.
  - reflexivity.
Defined.

Lemma foldl_insert_last (l : list CustomEvent) (m : gmap string CustomEvent) name :
  foldl (λ m event, <[CustomEvent_Name event := event]> m) m l !! name
  = match last (filter (λ customEvent, CustomEvent_Name customEvent = name) l) with
    | Some customEvent => Some customEvent
    | None => m !! name
    end.
Proof.
  revert m. induction l as [|x l IH] using rev_ind; intros m; [done|].
  rewrite foldl_app, filter_app. cbn [foldl].
  destruct (decide (CustomEvent_Name x = name)) as [Hx|Hx].
  - rewrite Hx, lookup_insert_eq.
    assert (filter (λ customEvent, CustomEvent_Name customEvent = name) [x] = [x]) as ->
      by by rewrite filter_cons_True.
    by rewrite last_snoc.
  - rewrite lookup_insert_ne by done.
    assert (filter (λ customEvent, CustomEvent_Name customEvent = name) [x] = []) as ->
      by by rewrite filter_cons_False.
    rewrite app_nil_r. apply IH.
Qed.

(** X17: the custom event [setup] uses for a name is the last one the
    configuration gives under that name, and a name without a custom
    event is left to libpfm. *)
Theorem mapEventsToCustomEvents_last_wins cgroupPath events onlineCPUs cpuToSocket name :
  eventToCustomEvent (newCollector cgroupPath events onlineCPUs cpuToSocket) !! name
  = last (configured events name).
Proof.
  unfold newCollector, mapEventsToCustomEvents, configured. cbn [eventToCustomEvent].
  rewrite foldl_insert_last, lookup_empty. by destruct (last _).
Qed.
Lemma map_to_list_constant (m : gmap Z Z) (v : Z) :
  (∀ key x, m !! key = Some x → x = v) →
  map snd (map_to_list m) = replicate (size m) v.
Proof.
  intros Hall. rewrite <- length_map_to_list.
  assert (Forall (λ kx : Z * Z, kx.2 = v) (map_to_list m)) as Hlist.
  { apply Forall_forall. intros [key x] Hin. apply elem_of_map_to_list in Hin.
    by apply (Hall key). }
  induction Hlist as [|[key x] l Hx _ IH]; [done|].
  simpl in *. by rewrite Hx, IH.
Qed.

(** X18: for a group without events [setup] opens nothing and goes
    straight to the enabling loop, which it runs on the sentinel -1 in
    place of a descriptor, once for each distinct online CPU; with a CPU
    online the group therefore starts with a reset of descriptor -1. *)
Theorem setup_group_without_events
    perfSampleIdentifier perfAttrBitsInherit perfAttrBitsExcludeGuest
    sizeof_PerfEventAttr k c cgroupFd i g s s' o :
  Group_events g = [] →
  setup_group perfSampleIdentifier perfAttrBitsInherit perfAttrBitsExcludeGuest
    sizeof_PerfEventAttr k c cgroupFd i g s = (s', o) →
  s'.1 = s.1
  ∧ ∃ body,
      s'.2 = s.2 ++ body
      ∧ enabled_in_turn (replicate (distinct_cpus c) groupLeaderFileDescriptor) body
      ∧ (onlineCPUs c ≠ [] →
         ∃ r rest,
           body = Ev_IoctlSetInt groupLeaderFileDescriptor PERF_EVENT_IOC_RESET 0 r
                    :: rest).
Proof.
  intros Hevents. unfold setup_group. rewrite Hevents. cbn [setup_events].
  unfold bind, ret. intros Hrun.
  rewrite (map_to_list_constant _ groupLeaderFileDescriptor) in Hrun.
  - rewrite <- size_dom, dom_initial_leaderFileDescriptors, dom_empty_L in Hrun.
    assert (∅ ∪ list_to_set (onlineCPUs c) = (list_to_set (onlineCPUs c) : gset Z))
      as Hcpus.
    { apply set_eq. intros x. rewrite elem_of_union, elem_of_empty. tauto. }
    rewrite Hcpus in Hrun. fold (distinct_cpus c) in Hrun.
    split; [by apply setup_enable_cpuFiles in Hrun|].
    apply setup_enable_calls in Hrun as (body & Htr & Hturn).
    exists body. split; [done|]. split; [done|].
    intros Hne. unfold distinct_cpus in Hturn.
    destruct (onlineCPUs c) as [|cpu rest] eqn:Hlist; [done|].
    destruct (size (list_to_set (cpu :: rest) : gset Z)) as [|n] eqn:Hsize.
    + apply size_empty_inv in Hsize.
      assert (cpu ∈ (list_to_set (cpu :: rest) : gset Z)) as Hin
        by (apply elem_of_list_to_set, elem_of_cons; by left).
      rewrite Hsize in Hin. by apply elem_of_empty in Hin.
    + cbn [replicate] in Hturn. inversion Hturn; subst; eauto.
  - intros key x. rewrite initial_leaderFileDescriptors_lookup, lookup_empty.
    case_bool_decide; [|done]. by intros [= <-].
Qed.

Lemma setup_group_without_events_witness :
  let r := setup_group (2 ^ 16) (2 ^ 1) (2 ^ 20) 128 scenario_world
             empty_group_collector 3 0
             {| Group_events := []; Group_array := false |} (∅, []) in
  r.1.1 = (∅, [] : list event).1
  ∧ ∃ body,
      r.1.2 = (∅ : gmap Z group, [] : list event).2 ++ body
      ∧ enabled_in_turn
          (replicate (distinct_cpus empty_group_collector) groupLeaderFileDescriptor)
          body
      ∧ (onlineCPUs empty_group_collector ≠ [] →
         ∃ r rest,
           body = Ev_IoctlSetInt groupLeaderFileDescriptor PERF_EVENT_IOC_RESET 0 r
                    :: rest).
Proof.
  apply (setup_group_without_events (2 ^ 16) (2 ^ 1) (2 ^ 20) 128 scenario_world
           empty_group_collector 3 0
           {| Group_events := []; Group_array := false |} (∅, [])
           (setup_group (2 ^ 16) (2 ^ 1) (2 ^ 20) 128 scenario_world
              empty_group_collector 3 0
              {| Group_events := []; Group_array := false |} (∅, [])).1
           (setup_group (2 ^ 16) (2 ^ 1) (2 ^ 20) 128 scenario_world
              empty_group_collector 3 0
              {| Group_events := []; Group_array := false |} (∅, [])).2).
  - reflexivity.
  - vm_compute. reflexivity.
Defined.
Lemma elem_of_flat_map {A B} (f : A → list B) (l : list A) (y : B) :
  y ∈ flat_map f l ↔ ∃ x, x ∈ l ∧ y ∈ f x.
Proof.
  rewrite list_elem_of_In, in_flat_map. split; intros (x & Hx & Hy); exists x;
    by rewrite ?list_elem_of_In in *.
Qed.

Lemma elem_of_collector_keys c cpu name :
  (cpu, name) ∈ collector_keys c
  ↔ ∃ i g, cpuFiles c !! i = Some g
           ∧ is_Some (leader_files g !! cpu)
           ∧ name ∈ names g.
Proof.
  unfold collector_keys, group_keys. rewrite elem_of_flat_map. split.
  - intros ([i g] & Hg & Hkey). apply elem_of_map_to_list in Hg.
    apply elem_of_flat_map in Hkey as ([cpu' file] & Hfile & Hname).
    apply elem_of_map_to_list in Hfile.
    apply list_elem_of_In, in_map_iff in Hname as (name' & [= <- <-] & Hname).
    exists i, g. split; [done|]. split; [by exists file|]. by apply list_elem_of_In.
  - intros (i & g & Hg & [file Hfile] & Hname). exists (i, g).
    split; [by apply elem_of_map_to_list|].
    apply elem_of_flat_map. exists (cpu, file).
    split; [by apply elem_of_map_to_list|].
    apply list_elem_of_In, in_map_iff. exists name. split; [done|].
    by apply list_elem_of_In.
Qed.

Lemma registered_leader_files g evs cpus cpu :
  registered g evs cpus →
  is_Some (leader_files g !! cpu) ↔ cpu ∈ cpus.
Proof.
  intros (Hnames & Hhead & Hdom & Hfiles). unfold leader_files.
  assert (is_Some (group_cpuFiles g !! leaderName g)) as [files Hleader].
  { apply elem_of_dom. rewrite Hdom. apply elem_of_list_to_set.
    by apply head_Some_elem_of. }
  rewrite Hleader. cbn [default].
  destruct (Hfiles _ _ Hleader) as [Hcpus _].
  simpl. rewrite <- elem_of_dom. rewrite Hcpus. apply elem_of_list_to_set.
Qed.

(** X19: [setup] and [UpdateStats] together.  After a successful [setup]
    of a new collector with an online CPU, whose groups name no event
    twice, an [UpdateStats] whose reads are complete returns nil without
    a warning, and the statistics it reports are those of the
    configuration: there is one for a CPU and a name exactly when the
    CPU is online and an event group of the configuration has the
    name. *)
Theorem setup_then_UpdateStats
    perfSampleIdentifier perfAttrBitsInherit perfAttrBitsExcludeGuest
    sizeof_PerfEventAttr uu (O : Type) k uncore cgroupPath events onlineCPUs
    cpuToSocket tr0 c' tr1 (stats : ContainerStats O) :
  Forall (λ g, NoDup (Group_events g)) (Events_Events (Core events)) →
  onlineCPUs ≠ [] →
  setup perfSampleIdentifier perfAttrBitsInherit perfAttrBitsExcludeGuest
    sizeof_PerfEventAttr k (newCollector cgroupPath events onlineCPUs cpuToSocket) tr0
  = ((c', tr1), Ret None) →
  reads_complete k c' →
  ∃ tr2 perfStats,
    UpdateStats uu O k uncore c' stats tr1
    = (tr2, Ret ({| PerfStats := perfStats; Other := Other (uncore tr1 stats).1 |}, None))
    ∧ read_warnings tr2 = read_warnings tr1
    ∧ ∀ cpu name,
        (cpu, name) ∈ map stat_key perfStats
        ↔ cpu ∈ onlineCPUs
          ∧ ∃ g, g ∈ Events_Events (Core events) ∧ name ∈ Group_events g.
Proof.
  intros Hgroups Hcpus Hsetup Hreads.
  destruct (UpdateStats_complete_keys uu O k uncore c' stats tr1 Hreads)
    as (tr2 & perfStats & Hrun & Hkeys & Hwarn).
  exists tr2, perfStats. split; [done|]. split; [done|].
  assert ((∀ (n : nat) g,
             Events_Events (Core events) !! n = Some g →
             registered_at (cpuFiles c') (Z.of_nat n) (Group_events g) onlineCPUs)
          ∧ ∀ j, j < 0 ∨ Z.of_nat (length (Events_Events (Core events))) ≤ j →
                 cpuFiles c' !! j = None) as [Hin Hout].
  { revert Hsetup. unfold setup. simpl.
    destruct (os_Open k tr0 cgroupPath) as [cgroupFd|err]; [|done].
    destruct (setup_groups _ _ _ _ _ _ _ _ _ _) as [[cpuFiles' tr'] o] eqn:Hrun'.
    intros [= <- _ ->]. simpl.
    apply setup_groups_registers in Hrun' as (Hall & Hbelow & Habove); try done;
      [|apply newCollector_coherent].
    split.
    - intros n g Hg. apply Hall in Hg.
      by replace (0 + Z.of_nat n) with (Z.of_nat n) in Hg by lia.
    - intros j [Hj|Hj].
      + cbn [fst] in Hbelow. rewrite Hbelow by done. apply lookup_empty.
      + apply Habove. lia. }
  intros cpu name. rewrite Hkeys, elem_of_collector_keys. split.
  - intros (i & gr & Hgr & Hfile & Hname).
    destruct (decide (0 ≤ i < Z.of_nat (length (Events_Events (Core events)))))
      as [Hi|Hi]; [|rewrite Hout in Hgr by lia; done].
    destruct (lookup_lt_is_Some_2 (Events_Events (Core events)) (Z.to_nat i))
      as [g Hg]; [lia|].
    pose proof (Hin _ _ Hg) as Hat. unfold registered_at in Hat.
    rewrite Z2Nat.id, Hgr in Hat by lia.
    split; [by apply (registered_leader_files gr (Group_events g))|].
    exists g. split; [by apply list_elem_of_lookup_2 in Hg|].
    destruct Hat as (<- & _). done.
  - intros (Hcpu & g & Hg & Hname).
    apply list_elem_of_lookup_1 in Hg as [n Hg].
    pose proof (Hin _ _ Hg) as Hat. unfold registered_at in Hat.
    destruct (cpuFiles c' !! Z.of_nat n) as [gr|] eqn:Hgr;
      [|rewrite Hat in Hname; by apply elem_of_nil in Hname].
    exists (Z.of_nat n), gr. split; [done|].
    split; [by apply (registered_leader_files gr (Group_events g) onlineCPUs)|].
    destruct Hat as (-> & _). done.
Qed.
Lemma tracked_in_tracked_files c fd :
  tracked (cpuFiles c) fd → ∃ file, file ∈ tracked_files c ∧ file_fd file = fd.
Proof.
  intros (i & name & cpu & g & files & file & Hg & Hfiles & Hfile & Hfd).
  exists file. split; [|done]. unfold tracked_files, group_files.
  apply elem_of_flat_map. exists (i, g). split; [by apply elem_of_map_to_list|].
  apply elem_of_flat_map. exists (name, files). split; [by apply elem_of_map_to_list|].
  apply list_elem_of_In, in_map_iff. exists (cpu, file). split; [done|].
  by apply list_elem_of_In, elem_of_map_to_list.
Qed.

(** X23: [setup] and [Destroy] together.  Whatever way a [setup] of a
    new collector whose groups name no event twice ends, with nil, with
    an error or with a panic, a [Destroy] after it closes every
    descriptor the kernel handed out to a [perf_event_open] of that
    [setup], and leaves nothing tracked. *)
Theorem setup_then_Destroy_closes_opened
    perfSampleIdentifier perfAttrBitsInherit perfAttrBitsExcludeGuest
    sizeof_PerfEventAttr k file_Close cgroupPath events onlineCPUs cpuToSocket
    tr0 trd :
  Forall (λ g, NoDup (Group_events g)) (Events_Events (Core events)) →
  let r := setup perfSampleIdentifier perfAttrBitsInherit perfAttrBitsExcludeGuest
             sizeof_PerfEventAttr k
             (newCollector cgroupPath events onlineCPUs cpuToSocket) tr0 in
  ∃ new body c'',
    r.1.2 = tr0 ++ new
    ∧ Destroy file_Close r.1.1 trd = (trd ++ Ev_uncore_Destroy :: body, Ret c'')
    ∧ (∀ fd, fd ∈ opened new → 0 ≤ fd →
         ∃ file, file ∈ closed body ∧ file_fd file = fd)
    ∧ ∀ fd, ¬ tracked (cpuFiles c'') fd.
Proof.
  intros Hgroups r.
  destruct (Destroy_run file_Close r.1.1 trd) as (body & Hrun & Hclosed & _).
  assert (∃ new, r.1.2 = tr0 ++ new
                 ∧ ∀ fd, fd ∈ opened new → 0 ≤ fd → tracked (cpuFiles r.1.1) fd)
    as (new & Hnew & Htracked).
  { subst r. unfold setup. simpl.
    destruct (os_Open k tr0 cgroupPath) as [cgroupFd|err] eqn:Hopen.
    - destruct (setup_groups _ _ _ _ _ _ _ _ _ _) as [[cpuFiles' tr'] o] eqn:Hgr.
      apply setup_groups_Post in Hgr; try done; [|apply newCollector_coherent].
      destruct Hgr as (body' & Htr & _ & _ & Hopened & _). simpl in *.
      exists ([Ev_os_Open cgroupPath (inl cgroupFd)] ++ body' ++ [Ev_os_Close cgroupFd]).
      split; [by rewrite Htr, <- !app_assoc|].
      intros fd Hfd Hpos. rewrite !opened_app in Hfd. simpl in Hfd.
      rewrite app_nil_r in Hfd.
      destruct (Hopened fd Hfd Hpos) as (i & name & cpu & _ & Ht). by exists i, name, cpu.
    - exists [Ev_os_Open cgroupPath (inr err)]. split; [done|].
      intros fd Hfd. by apply elem_of_nil in Hfd. }
  exists new, body. eexists. split; [done|]. split; [exact Hrun|]. split.
  - intros fd Hfd Hpos. rewrite Hclosed. apply tracked_in_tracked_files. by apply Htracked.
  - intros fd (i & name & cpu & g & files & file & Hg & Hfiles & _).
    cbn [cpuFiles] in Hg. rewrite lookup_fmap in Hg.
    destruct (cpuFiles r.1.1 !! i) as [g0|]; [|done].
    injection Hg as <-. cbn [emptied group_cpuFiles] in Hfiles.
    by rewrite lookup_empty in Hfiles.
Qed.

Lemma setup_then_Destroy_closes_opened_witness :
  let r := setup (2 ^ 16) (2 ^ 1) (2 ^ 20) 128 ioctl_denied_world
             (newCollector "/sys/fs/cgroup/perf_event/docker/c1" scenario_events
                [0; 1] ∅) [] in
  ∃ new body c'',
    r.1.2 = [] ++ new
    ∧ Destroy (λ _ _, None) r.1.1 [] = ([] ++ Ev_uncore_Destroy :: body, Ret c'')
    ∧ (∀ fd, fd ∈ opened new → 0 ≤ fd →
         ∃ file, file ∈ closed body ∧ file_fd file = fd)
    ∧ ∀ fd, ¬ tracked (cpuFiles c'') fd.
Proof.
  apply (setup_then_Destroy_closes_opened (2 ^ 16) (2 ^ 1) (2 ^ 20) 128
           ioctl_denied_world (λ _ _, None) "/sys/fs/cgroup/perf_event/docker/c1"
           scenario_events [0; 1] ∅ [] []).
  repeat constructor; intros H;
    repeat (apply elem_of_cons in H as [H|H]; [discriminate|]);
    by apply elem_of_nil in H.
Defined.
Lemma setup_then_UpdateStats_witness :
  ∃ tr2 perfStats,
    UpdateStats (λ _, 0) unit scenario_world quiet_uncore
      (sample_setup scenario_world scenario_collector []).1.1
      {| PerfStats := []; Other := tt |}
      (sample_setup scenario_world scenario_collector []).1.2
    = (tr2,
       Ret ({| PerfStats := perfStats;
               Other := Other (quiet_uncore
                                 (sample_setup scenario_world scenario_collector []).1.2
                                 {| PerfStats := []; Other := tt |}).1 |}, None))
    ∧ read_warnings tr2
      = read_warnings (sample_setup scenario_world scenario_collector []).1.2
    ∧ ∀ cpu name,
        (cpu, name) ∈ map stat_key perfStats
        ↔ cpu ∈ [0; 1]
          ∧ ∃ g, g ∈ Events_Events (Core scenario_events) ∧ name ∈ Group_events g.
Proof.
  apply (setup_then_UpdateStats (2 ^ 16) (2 ^ 1) (2 ^ 20) 128 (λ _, 0) unit
           scenario_world quiet_uncore "/sys/fs/cgroup/perf_event/docker/c1"
           scenario_events [0; 1] ∅ []).
  - repeat constructor; intros H;
      repeat (apply elem_of_cons in H as [H|H]; [discriminate|]);
      by apply elem_of_nil in H.
  - discriminate.
  - vm_compute. reflexivity.
  - intros tr i g cpu file Hg Hfile.
    assert (cpuFiles (sample_setup scenario_world scenario_collector []).1.1
            = {[ 0 := scenario_group ]}) as Hc by (vm_compute; reflexivity).
    rewrite Hc in Hg. apply lookup_singleton_Some in Hg as [_ <-].
    split; [reflexivity|]. eexists. split; [vm_compute; reflexivity|].
    split; [reflexivity|]. vm_compute. discriminate.
Defined.

(** X20: the attribute [setup] passes for a custom event.  The first
    configuration word is the config, the second, when there is one, the
    first extension, and the third the second extension only when there
    are exactly three words: of four words or more the third is dropped.
    A custom event without a configuration word makes the index of the
    first one panic.  The type is that of the event, and the attribute
    asks for a group read with both times and the identifiers. *)
Theorem createConfigFromRawEvent_words
    perfSampleIdentifier perfAttrBitsInherit perfAttrBitsExcludeGuest
    sizeof_PerfEventAttr event isGroupLeader :
  match CustomEvent_Config event with
  | [] =>
      createConfigFromRawEvent perfSampleIdentifier perfAttrBitsInherit
        perfAttrBitsExcludeGuest sizeof_PerfEventAttr event isGroupLeader
      = Panic (IndexOutOfRange 0 0)
  | config :: exts =>
      ∃ attr,
        createConfigFromRawEvent perfSampleIdentifier perfAttrBitsInherit
          perfAttrBitsExcludeGuest sizeof_PerfEventAttr event isGroupLeader
        = Ret attr
        ∧ Type_ attr = CustomEvent_Type event
        ∧ Config attr = config
        ∧ Ext1 attr = default 0 (head exts)
        ∧ Ext2 attr = match exts with [_; ext2] => ext2 | _ => 0 end
        ∧ Size attr = sizeof_PerfEventAttr
        ∧ Sample_type attr = perfSampleIdentifier
        ∧ Read_format attr = 15
  end.
Proof.
  unfold createConfigFromRawEvent, createPerfEventAttr.
  destruct (CustomEvent_Config event) as [|config [|ext1 [|ext2 [|ext3 exts]]]];
    [done|eexists; repeat apply conj; reflexivity..].
Qed.

Lemma setup_group_leader_first_witness :
  let r := setup_group (2 ^ 16) (2 ^ 1) (2 ^ 20) 128 scenario_world scenario_collector
             3 0
             {| Group_events := ["instructions"; "cycles"; "cache-misses"]%string;
                Group_array := false |} (∅, []) in
  ∃ body_leader body_siblings body_enable fds,
    r.1.2 = (∅ : gmap Z group, [] : list event).2
              ++ body_leader ++ body_siblings ++ body_enable
    ∧ Forall (λ ev, is_ioctl ev = false) (body_leader ++ body_siblings)
    ∧ (∀ attr pid cpu groupFd flags r,
         Ev_PerfEventOpen attr pid cpu groupFd flags r ∈ body_leader →
         groupFd = groupLeaderFileDescriptor
         ∧ pid = 3
         ∧ flags = Z.lor PERF_FLAG_FD_CLOEXEC PERF_FLAG_PID_CGROUP)
    ∧ (∀ attr pid cpu groupFd flags r,
         Ev_PerfEventOpen attr pid cpu groupFd flags r ∈ body_siblings →
         leader_opened body_leader cpu groupFd
         ∧ pid = -1
         ∧ flags = PERF_FLAG_FD_CLOEXEC)
    ∧ enabled_in_turn fds body_enable
    ∧ (∀ fd, fd ∈ fds → ∃ cpu, leader_opened body_leader cpu fd).
Proof.
  apply (setup_group_leader_first (2 ^ 16) (2 ^ 1) (2 ^ 20) 128 scenario_world
           scenario_collector 3 0
           {| Group_events := ["instructions"; "cycles"; "cache-misses"]%string;
              Group_array := false |}
           "instructions" ["cycles"; "cache-misses"]%string (∅, [])
           (setup_group (2 ^ 16) (2 ^ 1) (2 ^ 20) 128 scenario_world scenario_collector
              3 0
              {| Group_events := ["instructions"; "cycles"; "cache-misses"]%string;
                 Group_array := false |} (∅, [])).1
           (setup_group (2 ^ 16) (2 ^ 1) (2 ^ 20) 128 scenario_world scenario_collector
              3 0
              {| Group_events := ["instructions"; "cycles"; "cache-misses"]%string;
                 Group_array := false |} (∅, [])).2).
  - apply elem_of_cons. by left.
  - reflexivity.
  - vm_compute. reflexivity.
Defined.

Lemma setAttributes_disabled_witness :
  Z.testbit (Bits (setAttributes (2 ^ 16) (2 ^ 1) (2 ^ 20) 128 zero_PerfEventAttr true)) 0
  = true.
Proof.
  apply (setAttributes_disabled (2 ^ 16) (2 ^ 1) (2 ^ 20) 128 zero_PerfEventAttr true);
    reflexivity.
Defined.

End PerfProperties.

